(** * Quantized backreachability: a shallow embedding of [backreach.py]

    The development follows the source file: the [State] container with
    its methods ([__init__], [copy], [assign_state_id], [backstep],
    [get_predecessors], [get_dx_dy_qrange], and further down [__str__],
    [print_replay_init] and [print_replay_witness]) and the search driver
    [backreach_single].

    Modelling conventions.
    - Python [int] is [Z]; numpy floats are idealised as exact rationals
      [Q], numpy vectors and matrices are [list Q] and [list (list Q)].
    - An uncaught Python exception ends the task: methods live in an error
      monad whose failure carries the exception class.
    - [State.next_state_id] is a class attribute shared by every instance;
      it is threaded explicitly through every method that reads or
      advances it.
    - The modules [star], [dubins], [util], [networks] and [settings] are
      imported by the source but are not part of it: what the source uses
      of them is collected in the class [Providers]. *)

From Stdlib Require Import ZArith QArith Qround Lia Reals Qreals Lra Lqa Ascii.
From stdpp Require Import base list gmap pretty.

Local Open Scope Z_scope.

(** ** Exceptions and the two monads *)

Inductive exn := AssertionError | IndexError | AttributeError.

Inductive outcome (A : Type) : Type :=
| Ok (a : A)
| Raise (e : exn)
| OutOfFuel.
Arguments Ok {A} a.
Arguments Raise {A} e.
Arguments OutOfFuel {A}.

Definition obind {A B} (m : outcome A) (k : A → outcome B) : outcome B :=
  match m with
  | Ok a => k a
  | Raise e => Raise e
  | OutOfFuel => OutOfFuel
  end.

Definition omap {A B} (f : A → B) (m : outcome A) : outcome B :=
  obind m (λ a, Ok (f a)).

(** [M A]: a computation that may raise and that reads and advances the
    class-level counter [State.next_state_id]. *)
Definition M (A : Type) : Type := Z → outcome (A * Z).

Definition ret {A} (a : A) : M A := λ n, Ok (a, n).
Definition raise {A} (e : exn) : M A := λ _, Raise e.
Definition bind {A B} (m : M A) (k : A → M B) : M B :=
  λ n, match m n with
       | Ok (a, n') => k a n'
       | Raise e => Raise e
       | OutOfFuel => OutOfFuel
       end.
Definition lift {A} (o : outcome A) : M A :=
  λ n, obind o (λ a, Ok (a, n)).

Declare Scope py_scope.
Delimit Scope py_scope with py.
Notation "x <- c1 ;; c2" := (bind c1 (λ x, c2))
  (at level 100, c1 at next level, right associativity) : py_scope.
Notation "x <~ c1 ;; c2" := (obind c1 (λ x, c2))
  (at level 100, c1 at next level, right associativity) : py_scope.
Local Open Scope py_scope.

(** Two outcomes of the same kind: both results, related by [R], or the
    same exception, or both out of fuel. *)
Definition outcome_rel {A B} (R : A → B → Prop)
    (o1 : outcome A) (o2 : outcome B) : Prop :=
  match o1, o2 with
  | Ok a, Ok b => R a b
  | Raise e1, Raise e2 => e1 = e2
  | OutOfFuel, OutOfFuel => True
  | _, _ => False
  end.

(** [assert b] *)
Definition assert (b : bool) : outcome unit :=
  if b then Ok tt else Raise AssertionError.

(** [for x in xs: acc = body(acc, x)] *)
Fixpoint for_each {A S} (xs : list A) (body : S → A → M S) (acc : S) : M S :=
  match xs with
  | [] => ret acc
  | x :: xs' => acc' <- body acc x ;; for_each xs' body acc'
  end.

(** ** Python lists and numpy arrays *)

(** [l[i]] with Python's negative indices; out of range raises. *)
Definition py_index {A} (l : list A) (i : Z) : outcome A :=
  let j := if 0 <=? i then i else Z.of_nat (length l) + i in
  if 0 <=? j then
    match l !! Z.to_nat j with
    | Some x => Ok x
    | None => Raise IndexError
    end
  else Raise IndexError.

(** [range(a, b)] *)
Definition py_range (a b : Z) : list Z := seqZ a (b - a).

Abbreviation Vec := (list Q).
Abbreviation Mat := (list (list Q)).

Definition np_zeros (n : nat) : Vec := replicate n 0%Q.

(** [v[i] = x] on an array: in range or [IndexError]. *)
Definition np_setitem (v : Vec) (i : nat) (x : Q) : outcome Vec :=
  if bool_decide (i < length v)%nat then Ok (<[i:=x]> v) else Raise IndexError.

Definition np_getitem (v : Vec) (i : nat) : outcome Q :=
  match v !! i with
  | Some x => Ok x
  | None => Raise IndexError
  end.

Definition np_neg (v : Vec) : Vec := Qopp <$> v.

(** [u @ v] on two vectors. *)
Fixpoint dot (u v : Vec) : Q :=
  match u, v with
  | x :: u', y :: v' => (x * y + dot u' v')%Q
  | _, _ => 0%Q
  end.

(** [m @ v] for a matrix (list of rows) and a vector. *)
Definition matvec (m : Mat) (v : Vec) : Vec := (λ row, dot row v) <$> m.

Fixpoint transpose (ncols : nat) (m : Mat) : Mat :=
  match ncols with
  | O => []
  | S k => ((λ row, default 0%Q (head row)) <$> m) :: transpose k (tail <$> m)
  end.

(** [a @ b] for two matrices. *)
Definition matmul (a b : Mat) : Mat :=
  let bt := transpose (length (default [] (head b))) b in
  (λ row, (λ col, dot row col) <$> bt) <$> a.

(** ** The external collaborators *)

(** A [Star] instance: the source reads and overwrites [a_mat] and [b_vec]
    directly; the rest of the object (the domain constraints) is only ever
    handed back to the geometry provider. *)
Record Star (Dom : Type) := mkStar {
  dom_constraints : Dom;
  a_mat : Mat;
  b_vec : Vec;
}.
Arguments mkStar {Dom} _ _ _.
Arguments dom_constraints {Dom} _.
Arguments a_mat {Dom} _.
Arguments b_vec {Dom} _.

Class Providers := {
  (** [star.Star] *)
  Dom : Type;
  NUM_VARS : nat;
  X_OWN : nat;
  Y_OWN : nat;
  X_INT : nat;
  is_feasible : Star Dom → option Vec;
  minimize_vec : Star Dom → Vec → Vec;
  domain_to_range : Star Dom → Vec → Vec;
  (** [util] *)
  make_qstar : Star Dom → Z * Z → Star Dom;
  is_init_qx_qy : Z → Z → bool;
  (** [networks.get_cmd(prev_cmd, qdx, qdy, qtheta1, qv_own, qv_int)] *)
  get_cmd : Z → Z → Z → Z → Z → Z → Z;
  (** [dubins] *)
  get_time_elapse_mat : Z → Q → Mat;
  init_to_constraints : Z * Z → Z * Z → Z → Z → Z → Dom * Mat * Vec;
  (** [settings.Quanta]; [pos] is a positive scalar *)
  pos : Q;
  cmd_quantum_list : list Z;
}.

(** What the source takes for granted about the constants of [Star] and
    [Quanta]: the three coordinates it names exist and the two it
    subtracts are different ones, the heading table has its five entries,
    and the position quantum is positive. *)
Class ProvidersOK (P : Providers) : Prop := {
  X_INT_lt : (X_INT < NUM_VARS)%nat;
  X_OWN_lt : (X_OWN < NUM_VARS)%nat;
  Y_OWN_lt : (Y_OWN < NUM_VARS)%nat;
  X_INT_X_OWN : X_INT ≠ X_OWN;
  cmd_quantum_len : length cmd_quantum_list = 5%nat;
  pos_positive : (0 < pos)%Q;
}.

(** The contract of [minimize_vec] with respect to the set of range points
    [contains st] a star stands for: on a non-empty star it returns a point
    of the star at which the direction [v] is least. *)
Class OptimizerOK (P : Providers) (contains : Star Dom → Vec → Prop) : Prop := {
  minimize_vec_in : ∀ st v p, contains st p → contains st (minimize_vec st v);
  minimize_vec_le : ∀ st v p,
    contains st p → (dot (minimize_vec st v) v <= dot p v)%Q;
}.

Definition Qlt_bool (a b : Q) : bool := negb (Qle_bool b a).

(** [l.pop()] on a non-empty list: the last element and the rest. *)
Definition py_pop {A} (l : list A) : option (A * list A) :=
  match last l with
  | Some x => Some (x, take (length l - 1)%nat l)
  | None => None
  end.

(** ** The [State] class *)

Section Attributes.
Context {Dom : Type}.

(** Instance attributes, in the order [__init__] creates them. [star] is
    optional because [copy] parks [None] there while it runs. *)
Record State := mkState {
  qtheta1 : Z;
  qv_own : Z;
  qv_int : Z;
  alpha_prev_list : list Z;
  star : option (Star Dom);
  domain_witness : option Vec;
  state_id : Z;
}.

Definition set_qtheta1 (s : State) (x : Z) : State :=
  mkState x (qv_own s) (qv_int s) (alpha_prev_list s) (star s)
          (domain_witness s) (state_id s).
Definition set_alpha_prev_list (s : State) (x : list Z) : State :=
  mkState (qtheta1 s) (qv_own s) (qv_int s) x (star s)
          (domain_witness s) (state_id s).
Definition set_star (s : State) (x : option (Star Dom)) : State :=
  mkState (qtheta1 s) (qv_own s) (qv_int s) (alpha_prev_list s) x
          (domain_witness s) (state_id s).
Definition set_domain_witness (s : State) (x : option Vec) : State :=
  mkState (qtheta1 s) (qv_own s) (qv_int s) (alpha_prev_list s) (star s)
          x (state_id s).
Definition set_state_id (s : State) (x : Z) : State :=
  mkState (qtheta1 s) (qv_own s) (qv_int s) (alpha_prev_list s) (star s)
          (domain_witness s) x.

(** [self.star.<attr>]: [AttributeError] on [None]. *)
Definition get_star (s : State) : outcome (Star Dom) :=
  match star s with
  | Some st => Ok st
  | None => Raise AttributeError
  end.

End Attributes.
Arguments State : clear implicits.

Section Model.
Context `{P : Providers}.

Local Abbreviation State := (State Dom).

(** [assign_state_id]: take the class counter and advance it. *)
Definition assign_state_id (self : State) : M State :=
  λ next_state_id, Ok (set_state_id self next_state_id, next_state_id + 1).

(** [State.__init__]. [assert isinstance(qtheta1, int)] holds by typing. *)
Definition State_init (alpha_prev qtheta1 qv_own qv_int : Z)
    (star : Star Dom) : M State :=
  let domain_witness := is_feasible star in
  _ <- lift (assert (bool_decide (is_Some domain_witness))) ;;
  assign_state_id
    (mkState qtheta1 qv_own qv_int [alpha_prev] (Some star) domain_witness (-1)).

(** [deepcopy] of a [State], seen as a value: every attribute is
    duplicated, so the copy is an equal value. What it shares with the
    original (nothing) is the subject of [Heap.deepcopy] below. *)
Definition deepcopy (s : State) : State := s.

(** [copy]: returns [self] as the call leaves it, and the new state. *)
Definition copy (self : State) (new_star : option (Star Dom))
    (new_domain_witness : option Vec) : M (State * State) :=
  match new_star with
  | Some _ =>
      _ <- lift (assert (bool_decide (is_Some new_domain_witness))) ;;
      let self_star := star self in
      let self := set_star self None in
      let rv := deepcopy self in
      rv <- assign_state_id rv ;;
      let rv := set_star rv new_star in
      let rv := set_domain_witness rv new_domain_witness in
      let self := set_star self self_star in
      ret (self, rv)
  | None =>
      let rv := deepcopy self in
      rv <- assign_state_id rv ;;
      ret (self, rv)
  end.

(** [backstep]: returns [self] after the in-place update. *)
Definition backstep (self : State) (forward : bool)
    (forward_alpha_prev : Z) : outcome State :=
  cmd <~ (if forward then Ok forward_alpha_prev
          else py_index (alpha_prev_list self) (-1)) ;;
  _ <~ assert ((0 <=? cmd) && (cmd <=? 4)) ;;
  let mat := get_time_elapse_mat cmd (if negb forward then (-1)%Q else 1%Q) in
  st <~ get_star self ;;
  let st := mkStar (dom_constraints st) (matmul mat (a_mat st)) (b_vec st) in
  let st := mkStar (dom_constraints st) (a_mat st) (matvec mat (b_vec st)) in
  let self := set_star self (Some st) in
  delta_q_theta <~ py_index cmd_quantum_list cmd ;;
  Ok (if forward then set_qtheta1 self (qtheta1 self + delta_q_theta)
      else set_qtheta1 self (qtheta1 self - delta_q_theta)).

(** [get_dx_dy_qrange] *)
Definition get_dx_dy_qrange (self : State) : outcome ((Z * Z) * (Z * Z)) :=
  let pos_quantum := pos in
  let vec := np_zeros NUM_VARS in
  vec <~ np_setitem vec X_INT 1%Q ;;
  vec <~ np_setitem vec X_OWN (-1)%Q ;;
  st <~ get_star self ;;
  let dx_min := dot (minimize_vec st vec) vec in
  let dx_max := dot (minimize_vec st (np_neg vec)) vec in
  let qdx_min := Qfloor (dx_min / pos_quantum) in
  let qdx_max := Qceiling (dx_max / pos_quantum) in
  let dx_qrange := (qdx_min, qdx_max) in
  let vec := np_zeros NUM_VARS in
  vec <~ np_setitem vec Y_OWN (-1)%Q ;;
  let dy_min := dot (minimize_vec st vec) vec in
  let dy_max := dot (minimize_vec st (np_neg vec)) vec in
  let qdy_min := Qfloor (dy_min / pos_quantum) in
  let qdy_max := Qceiling (dy_max / pos_quantum) in
  let dy_qrange := (qdy_min, qdy_max) in
  Ok (dx_qrange, dy_qrange).

(** *** [get_predecessors] *)

(** The four locals the cell loops update: [correct_qstates],
    [incorrect_qstates], [all_right], [all_wrong]. The dictionary
    [qstate_to_cmd] is written but never read and is left out. *)
Definition tally : Type := list (Z * Z) * list (Z * Z) * bool * bool.

(** Body of the two nested cell loops. *)
Definition classify_cell (self : State) (constants : Z * Z * Z)
    (prev_cmd : Z) (acc : tally) (qstate : Z * Z) : outcome tally :=
  let '(correct_qstates, incorrect_qstates, all_right, all_wrong) := acc in
  let '(qdx, qdy) := qstate in
  let '(c1, c2, c3) := constants in
  if is_init_qx_qy qdx qdy then Ok acc
  else
    let out_cmd := get_cmd prev_cmd qdx qdy c1 c2 c3 in
    last_cmd <~ py_index (alpha_prev_list self) (-1) ;;
    if out_cmd =? last_cmd
    then Ok (correct_qstates ++ [qstate], incorrect_qstates, all_right, false)
    else Ok (correct_qstates, incorrect_qstates ++ [qstate], false, all_wrong).

(** The loop over [incorrect_qstates], with its [break]. *)
Fixpoint all_incorrect_infeasible (st : Star Dom) (qs : list (Z * Z)) : bool :=
  match qs with
  | [] => true
  | qstate :: qs' =>
      match is_feasible (make_qstar st qstate) with
      | Some _ => false
      | None => all_incorrect_infeasible st qs'
      end
  end.

(** [prev_s = self.copy(..); prev_s.alpha_prev_list.append(prev_cmd);
    rv.append(prev_s)] *)
Definition emit (prev_cmd : Z) (new_star : option (Star Dom))
    (new_domain_witness : option Vec) (acc : State * list State)
    : M (State * list State) :=
  let '(self, rv) := acc in
  r <- copy self new_star new_domain_witness ;;
  let '(self, prev_s) := r in
  let prev_s :=
    set_alpha_prev_list prev_s (alpha_prev_list prev_s ++ [prev_cmd]) in
  ret (self, rv ++ [prev_s]).

(** Body of the last loop, over [correct_qstates]. *)
Definition split_cell (prev_cmd : Z) (acc : State * list State)
    (qstate : Z * Z) : M (State * list State) :=
  st <- lift (get_star (fst acc)) ;;
  let star := make_qstar st qstate in
  let domain_witness := is_feasible star in
  match domain_witness with
  | Some _ => emit prev_cmd (Some star) domain_witness acc
  | None => ret acc
  end.

(** Body of [for prev_cmd in range(5)]. *)
Definition try_prev_cmd (dx_qrange dy_qrange : Z * Z) (constants : Z * Z * Z)
    (acc : State * list State) (prev_cmd : Z) : M (State * list State) :=
  let self := fst acc in
  t <- for_each (py_range (fst dx_qrange) (snd dx_qrange + 1))
        (λ t qdx,
           for_each (py_range (fst dy_qrange) (snd dy_qrange + 1))
             (λ t qdy, lift (classify_cell self constants prev_cmd t (qdx, qdy)))
             t)
        (([], [], true, true) : tally) ;;
  let '(correct_qstates, incorrect_qstates, all_right, all_wrong) := t in
  if all_wrong then ret acc
  else if all_right then emit prev_cmd None None acc
  else
    st <- lift (get_star self) ;;
    if all_incorrect_infeasible st incorrect_qstates
    then emit prev_cmd None None acc
    else for_each correct_qstates (split_cell prev_cmd) acc.

(** [get_predecessors]: returns [self] as the call leaves it (stepped
    back once) and the list [rv]. *)
Definition get_predecessors (self : State) : M (State * list State) :=
  _ <- lift (get_dx_dy_qrange self) ;;
  self <- lift (backstep self false (-1)) ;;
  let rv : list State := [] in
  r <- lift (get_dx_dy_qrange self) ;;
  let '(dx_qrange, dy_qrange) := r in
  let constants := (qtheta1 self, qv_own self, qv_int self) in
  for_each (py_range 0 5) (try_prev_cmd dx_qrange dy_qrange constants)
    (self, rv).

(** ** The search driver *)

(** [(init_alpha_prev, x_own, y_own, theta1, v_own, v_int)] *)
Definition Params : Type := Z * (Z * Z) * (Z * Z) * Z * Z * Z.

Record BackreachResult := mkResult {
  counterexample : option State;
  runtime : Q;
  num_popped : Z;
  unique_paths : nat;
  index : Z;
  params : Params;
}.

(** The test guarding [rv['counterexample'] = deepcopy(p)], with Python's
    short-circuit [and]. *)
Definition is_counterexample (p : State) : outcome bool :=
  a2 <~ py_index (alpha_prev_list p) (-2) ;;
  both_clear <~ (if a2 =? 0
                 then a1 <~ py_index (alpha_prev_list p) (-1) ;; Ok (a1 =? 0)
                 else Ok false) ;;
  if both_clear : bool then
    domain_pt <~ (match domain_witness p with
                  | Some d => Ok d
                  | None => Raise AssertionError
                  end) ;;
    st <~ get_star p ;;
    let pt := domain_to_range st domain_pt in
    x_int <~ np_getitem pt X_INT ;;
    x_own <~ np_getitem pt X_OWN ;;
    let dx := (x_int - x_own)%Q in
    y_own <~ np_getitem pt Y_OWN ;;
    let dy := (0 - y_own)%Q in
    Ok (Qlt_bool (10000 ^ 2) (dx ^ 2 + dy ^ 2))
  else Ok false.

(** [for p in predecessors: ...] with its [break]: the frontier after the
    loop and the counterexample slot of [rv]. *)
Fixpoint scan_predecessors (predecessors work : list State)
    : outcome (list State * option State) :=
  match predecessors with
  | [] => Ok (work, None)
  | p :: rest =>
      let work := work ++ [p] in
      hit <~ is_counterexample p ;;
      if hit : bool then Ok (work, Some (deepcopy p))
      else scan_predecessors rest work
  end.

(** Loop state of [while work and rv['counterexample'] is None]. *)
Record Search := mkSearch {
  work : list State;
  popped : Z;
  deadends : gset (list Z);
  found : option State;
}.

(** One iteration of the loop body. *)
Definition search_step (s : State) (work : list State) (popped : Z)
    (deadends : gset (list Z)) : M Search :=
  let popped := popped + 1 in
  r <- get_predecessors s ;;
  let '(s, predecessors) := r in
  r <- lift (scan_predecessors predecessors work) ;;
  let '(work, found) := r in
  let deadends :=
    match predecessors with
    | [] => {[ alpha_prev_list s ]} ∪ deadends
    | _ => deadends
    end in
  ret (mkSearch work popped deadends found).

(** The loop itself; [fuel] bounds the number of iterations. *)
Fixpoint search_loop (fuel : nat) (st : Search) : M Search :=
  match py_pop (work st), found st with
  | Some (s, work'), None =>
      match fuel with
      | O => λ _, OutOfFuel
      | S fuel' =>
          st' <- search_step s work' (popped st) (deadends st) ;;
          search_loop fuel' st'
      end
  | _, _ => ret st
  end.

(** [backreach_single(arg, parallel, plot)]. [next_task] is what
    [increment_index()] hands out, [t_start] and [t_end] are the two
    readings of [time.perf_counter()]. Plotting, printing and the shared
    counter of the parallel runner do not reach the result and are left
    out. *)
Definition backreach_single (fuel : nat) (next_task : Z * Params)
    (t_start t_end : Q) (arg : option Params) (parallel : bool)
    : M BackreachResult :=
  r <- (if parallel then ret next_task
        else match arg with
             | Some a => ret (0, a)
             | None => raise AssertionError
             end) ;;
  let '(index, params) := r in
  let '(init_alpha_prev, x_own, y_own, theta1, v_own, v_int) := params in
  let '(box, a_mat, b_vec) := init_to_constraints x_own y_own v_own v_int theta1 in
  let init_star := mkStar box a_mat b_vec in
  init_s <- State_init init_alpha_prev theta1 v_own v_int init_star ;;
  st <- search_loop fuel (mkSearch [init_s] 0 ∅ None) ;;
  let diff := (t_end - t_start)%Q in
  ret (mkResult (found st) diff (popped st) (size (deadends st)) index params).

End Model.

(** ** Objects and references: [deepcopy] and [copy] on a store

    A [State] instance holds references to three mutable objects: the list
    [alpha_prev_list], the [Star] and the numpy array [domain_witness]
    (the three integers are immutable). The store below keeps each of them
    at a location, so that sharing between two states can be stated. A
    [Star] is one node: its matrices are never referenced from outside
    it. *)

Module Heap.
Section Store.
Context `{P : Providers}.

Definition loc := positive.

Inductive obj :=
| OList (xs : list Z)
| OArray (v : Vec)
| OStar (st : Star Dom)
| OState (qtheta1 qv_own qv_int : Z) (alpha_prev_list : loc)
         (star domain_witness : option loc) (state_id : Z).

Definition alloc (h : gmap loc obj) (o : obj) : loc * gmap loc obj :=
  let l := fresh (dom h) in (l, <[l:=o]> h).

(** [deepcopy] of an attribute value: lists, arrays and stars are
    duplicated at a new location. The attributes of a [State] are of
    three different classes, so no object is reached twice and the memo
    table of [deepcopy] never hits. *)
Definition deepcopy_attr (h : gmap loc obj) (l : loc)
    : outcome (loc * gmap loc obj) :=
  match h !! l with
  | Some (OList xs) => Ok (alloc h (OList xs))
  | Some (OArray v) => Ok (alloc h (OArray v))
  | Some (OStar st) => Ok (alloc h (OStar st))
  | _ => Raise AttributeError
  end.

Definition deepcopy_opt (h : gmap loc obj) (l : option loc)
    : outcome (option loc * gmap loc obj) :=
  match l with
  | None => Ok (None, h)
  | Some l => r <~ deepcopy_attr h l ;; Ok (Some (fst r), snd r)
  end.

(** [deepcopy(self)] for a [State]: the attributes are copied in the
    order [__init__] created them. *)
Definition deepcopy (h : gmap loc obj) (self : loc)
    : outcome (loc * gmap loc obj) :=
  match h !! self with
  | Some (OState qt qo qi al st dw sid) =>
      r <~ deepcopy_attr h al ;;
      let '(al', h) := r in
      r <~ deepcopy_opt h st ;;
      let '(st', h) := r in
      r <~ deepcopy_opt h dw ;;
      let '(dw', h) := r in
      Ok (alloc h (OState qt qo qi al' st' dw' sid))
  | _ => Raise AttributeError
  end.

(** [obj.star = v], [obj.domain_witness = v], [obj.state_id = v] *)
Definition setattr_star (h : gmap loc obj) (l : loc) (v : option loc)
    : outcome (gmap loc obj) :=
  match h !! l with
  | Some (OState qt qo qi al _ dw sid) =>
      Ok (<[l:=OState qt qo qi al v dw sid]> h)
  | _ => Raise AttributeError
  end.

Definition setattr_domain_witness (h : gmap loc obj) (l : loc)
    (v : option loc) : outcome (gmap loc obj) :=
  match h !! l with
  | Some (OState qt qo qi al st _ sid) =>
      Ok (<[l:=OState qt qo qi al st v sid]> h)
  | _ => Raise AttributeError
  end.

Definition getattr_star (h : gmap loc obj) (l : loc) : outcome (option loc) :=
  match h !! l with
  | Some (OState _ _ _ _ st _ _) => Ok st
  | _ => Raise AttributeError
  end.

Definition assign_state_id (h : gmap loc obj) (l : loc) : M (gmap loc obj) :=
  λ next_state_id,
    match h !! l with
    | Some (OState qt qo qi al st dw _) =>
        Ok (<[l:=OState qt qo qi al st dw next_state_id]> h, next_state_id + 1)
    | _ => Raise AttributeError
    end.

(** [State.copy], statement by statement. *)
Definition copy (h : gmap loc obj) (self : loc)
    (new_star new_domain_witness : option loc) : M (loc * gmap loc obj) :=
  match new_star with
  | Some _ =>
      _ <- lift (assert (bool_decide (is_Some new_domain_witness))) ;;
      self_star <- lift (getattr_star h self) ;;
      h <- lift (setattr_star h self None) ;;
      r <- lift (deepcopy h self) ;;
      let '(rv, h) := r in
      h <- assign_state_id h rv ;;
      h <- lift (setattr_star h rv new_star) ;;
      h <- lift (setattr_domain_witness h rv new_domain_witness) ;;
      h <- lift (setattr_star h self self_star) ;;
      ret (rv, h)
  | None =>
      r <- lift (deepcopy h self) ;;
      let '(rv, h) := r in
      h <- assign_state_id h rv ;;
      ret (rv, h)
  end.

(** Reading a state back as a value. *)
Definition read_list (h : gmap loc obj) (l : loc) : option (list Z) :=
  match h !! l with Some (OList xs) => Some xs | _ => None end.
Definition read_array (h : gmap loc obj) (l : loc) : option Vec :=
  match h !! l with Some (OArray v) => Some v | _ => None end.
Definition read_star (h : gmap loc obj) (l : loc) : option (Star Dom) :=
  match h !! l with Some (OStar st) => Some st | _ => None end.

(** [read_opt rd h l]: an optional attribute; [None] when a reference is
    dangling or of the wrong class. *)
Definition read_opt {A} (rd : gmap loc obj → loc → option A)
    (h : gmap loc obj) (l : option loc) : option (option A) :=
  match l with
  | None => Some None
  | Some l => match rd h l with Some a => Some (Some a) | None => None end
  end.

Definition read_state (h : gmap loc obj) (l : loc) : option (State Dom) :=
  match h !! l with
  | Some (OState qt qo qi al st dw sid) =>
      xs ← read_list h al;
      st ← read_opt read_star h st;
      dw ← read_opt read_array h dw;
      Some (mkState qt qo qi xs st dw sid)
  | _ => None
  end.

(** The locations a state owns: itself and its three attributes. *)
Definition footprint (h : gmap loc obj) (l : loc) : list loc :=
  match h !! l with
  | Some (OState _ _ _ al st dw _) =>
      l :: al :: option_list st ++ option_list dw
  | _ => [l]
  end.

(** Objects that are not [State] instances. *)
Definition is_attr (o : obj) : Prop :=
  match o with OState _ _ _ _ _ _ _ => False | _ => True end.

End Store.
End Heap.

(** ** A small concrete set of providers

    Used to run the model on concrete inputs. The geometry keeps a star's
    domain as a finite list of points; feasibility, directional
    optimisation and the restriction to a cell are exact for it. The
    dynamics are straight-line flight for every command. *)

Module Toy.

Definition vadd (u v : Vec) : Vec := zip_with Qplus u v.

(** [a_mat @ d + b_vec] *)
Definition to_range (st : Star (list Vec)) (d : Vec) : Vec :=
  vadd (matvec (a_mat st) d) (b_vec st).

Definition range_points (st : Star (list Vec)) : list Vec :=
  to_range st <$> dom_constraints st.

Fixpoint argmin (f : Vec → Q) (best : Vec) (l : list Vec) : Vec :=
  match l with
  | [] => best
  | x :: l' => if Qlt_bool (f x) (f best) then argmin f x l' else argmin f best l'
  end.

Definition toy_minimize_vec (st : Star (list Vec)) (v : Vec) : Vec :=
  match range_points st with
  | [] => np_zeros 6
  | p :: ps => argmin (λ x, dot x v) p ps
  end.

(** The relative position of a range point: [dx = x_int - x_own],
    [dy = 0 - y_own], with [x_own], [y_own], [x_int] at 0, 1 and 4. *)
Definition rel_dx (pt : Vec) : Q := (default 0 (pt !! 4%nat) - default 0 (pt !! 0%nat))%Q.
Definition rel_dy (pt : Vec) : Q := (0 - default 0 (pt !! 1%nat))%Q.

Definition toy_pos : Q := 10%Q.

(** The closed cell [(qdx, qdy)]. *)
Definition in_cell (c : Z * Z) (pt : Vec) : bool :=
  Qle_bool (inject_Z (fst c) * toy_pos) (rel_dx pt)
  && Qle_bool (rel_dx pt) (inject_Z (fst c + 1) * toy_pos)
  && Qle_bool (inject_Z (snd c) * toy_pos) (rel_dy pt)
  && Qle_bool (rel_dy pt) (inject_Z (snd c + 1) * toy_pos).

Definition toy_make_qstar (st : Star (list Vec)) (c : Z * Z)
    : Star (list Vec) :=
  mkStar (List.filter (λ d, in_cell c (to_range st d)) (dom_constraints st))
         (a_mat st) (b_vec st).

(** Straight-line flight for [dt] seconds over
    [(x_own, y_own, vx_own, vy_own, x_int, vx_int)]. *)
Definition toy_time_elapse_mat (cmd : Z) (dt : Q) : Mat :=
  [ [1; 0; dt; 0; 0; 0];
    [0; 1; 0; dt; 0; 0];
    [0; 0; 1; 0; 0; 0];
    [0; 0; 0; 1; 0; 0];
    [0; 0; 0; 0; 1; dt];
    [0; 0; 0; 0; 0; 1] ]%Q.

Definition identity6 : Mat := toy_time_elapse_mat 0 0.

(** The initial set: the own ship at the two ends of its quantized
    interval, at rest; the intruder at the origin, at rest. *)
Definition toy_init_to_constraints (x_own y_own : Z * Z) (v_own v_int theta1 : Z)
    : list Vec * Mat * Vec :=
  ([ [inject_Z (fst x_own) * toy_pos; inject_Z (fst y_own) * toy_pos; 0; 0; 0; 0];
     [inject_Z (snd x_own) * toy_pos; inject_Z (snd y_own) * toy_pos; 0; 0; 0; 0] ]%Q,
   identity6, np_zeros 6).

(** Providers over this geometry, for a given decision function and a
    given set of initial cells. *)
Definition providers (net : Z → Z → Z → Z → Z → Z → Z)
    (init : Z → Z → bool) : Providers :=
  {| Dom := list Vec;
     NUM_VARS := 6; X_OWN := 0; Y_OWN := 1; X_INT := 4;
     is_feasible := λ st, head (dom_constraints st);
     minimize_vec := toy_minimize_vec;
     domain_to_range := to_range;
     make_qstar := toy_make_qstar;
     is_init_qx_qy := init;
     get_cmd := net;
     get_time_elapse_mat := toy_time_elapse_mat;
     init_to_constraints := toy_init_to_constraints;
     pos := toy_pos;
     cmd_quantum_list := [0; 1; -1; 2; -2] |}.

(** A star is the set of the range images of its domain points. *)
Definition contains (st : Star (list Vec)) (pt : Vec) : Prop :=
  pt ∈ range_points st.

(** The network that always answers "clear", and no initial cell. *)
Definition always_clear : Z → Z → Z → Z → Z → Z → Z := λ _ _ _ _ _ _, 0.
Definition no_init : Z → Z → bool := λ _ _, false.

(** *** Concrete scenarios *)

(** Two own-ship positions, 10 apart, flying along [x] at speed 1; the
    intruder at rest at [x = 100]. One step back puts them at relative
    positions (96, -5) and (86, -5), in the cells (9, -1) and (8, -1); the
    range of cells is 8..10 by -1..0. *)
Definition cloud0 : list Vec :=
  [ [5; 5; 1; 0; 100; 0]; [15; 5; 1; 0; 100; 0] ]%Q.
Definition star0 : Star (list Vec) := mkStar cloud0 identity6 (np_zeros 6).

(** The second point of [cloud0] alone. *)
Definition star1 : Star (list Vec) :=
  mkStar [ [15; 5; 1; 0; 100; 0]%Q ] identity6 (np_zeros 6).

(** The empty polytope. *)
Definition star_empty : Star (list Vec) := mkStar [] identity6 (np_zeros 6).

(** The state [State(c, 3, 1, 1, star0)] built when the counter is 0. *)
Definition state0 (c : Z) : State (list Vec) :=
  mkState 3 1 1 [c] (Some star0) (Some [5; 5; 1; 0; 100; 0]%Q) 0.

(** A network that exercises the four cases of the policy when the
    current command is 0: candidate 0 matches everywhere, candidate 1
    nowhere, candidate 2 in the column [qdx = 8] only, candidate 3
    everywhere but in the cell (10, 0), which the polytope does not reach,
    candidate 4 nowhere. *)
Definition four_case_net : Z → Z → Z → Z → Z → Z → Z :=
  λ prev_cmd qdx qdy _ _ _,
    if prev_cmd =? 0 then 0
    else if prev_cmd =? 2 then (if qdx =? 8 then 0 else 1)
    else if prev_cmd =? 3 then (if (qdx =? 10) && (qdy =? 0) then 1 else 0)
    else 1.

(** The cell (9, -1) flagged initial. *)
Definition init_9 : Z → Z → bool := λ qdx qdy, (qdx =? 9) && (qdy =? -1).

(** A network under which the search ends: only candidate 3 explains the
    command 0, and nothing explains the command 3. *)
Definition only_3_net : Z → Z → Z → Z → Z → Z → Z :=
  λ prev_cmd _ _ _ _ _, if prev_cmd =? 3 then 0 else 1.

Definition clear_providers : Providers := providers always_clear no_init.
Definition four_case_providers : Providers := providers four_case_net no_init.
Definition init_9_providers : Providers := providers always_clear init_9.
Definition only_3_providers : Providers := providers only_3_net no_init.

(** A scenario whose own ship starts 20000 away from the intruder. *)
Definition far_params : Z * (Z * Z) * (Z * Z) * Z * Z * Z :=
  (0, (2000, 2000), (0, 0), 0, 0, 0).
(** A scenario whose own ship starts 30 away from the intruder. *)
Definition near_params : Z * (Z * Z) * (Z * Z) * Z * Z * Z :=
  (0, (3, 3), (0, 0), 0, 0, 0).

(** A state whose last two commands are clear, with the given witness. *)
Definition clear_state (w : Vec) : State (list Vec) :=
  mkState 0 0 0 [0; 0] (Some (mkStar [w] identity6 (np_zeros 6))) (Some w) 7.

(** A store: a state at 1 over its history at 2, its polytope at 3 and
    its witness at 4; another polytope at 5 and another witness at 6. *)
Definition store0 (P : Providers) (st st' : Star (@Dom P)) (w w' : Vec)
    : gmap positive (@Heap.obj P) :=
  <[1%positive := Heap.OState 3 1 1 2%positive (Some 3%positive)
                    (Some 4%positive) 0]>
  (<[2%positive := Heap.OList [0; 4]]>
  (<[3%positive := Heap.OStar st]>
  (<[4%positive := Heap.OArray w]>
  (<[5%positive := Heap.OStar st']>
  (<[6%positive := Heap.OArray w']> ∅))))).

End Toy.

(** ** Vocabulary of the statements *)

Section Vocabulary.
Context `{P : Providers}.
Local Abbreviation State := (State Dom).

(** [self] after the transform [mat] has been applied to its star and
    its heading level has been set to [qt]. *)
Definition stepped (self : State) (st : Star Dom) (mat : Mat) (qt : Z) : State :=
  mkState qt (qv_own self) (qv_int self) (alpha_prev_list self)
    (Some (mkStar (dom_constraints st) (matmul mat (a_mat st))
                  (matvec mat (b_vec st))))
    (domain_witness self) (state_id self).

(** Coordinate [i] of a range point. *)
Definition coord (pt : Vec) (i : nat) : Q := default 0%Q (pt !! i).

(** The displacement from the own ship to the intruder, whose [y] is
    always 0. *)
Definition dx_of (pt : Vec) : Q := (coord pt X_INT - coord pt X_OWN)%Q.
Definition dy_of (pt : Vec) : Q := (0 - coord pt Y_OWN)%Q.

(** [m] is the least, resp. greatest, value of [f] over the points of
    [st]. *)
Definition is_min_over (contains : Star Dom → Vec → Prop) (st : Star Dom)
    (f : Vec → Q) (m : Q) : Prop :=
  (∃ p, contains st p ∧ (f p == m)%Q) ∧ ∀ p, contains st p → (m <= f p)%Q.
Definition is_max_over (contains : Star Dom → Vec → Prop) (st : Star Dom)
    (f : Vec → Q) (m : Q) : Prop :=
  (∃ p, contains st p ∧ (f p == m)%Q) ∧ ∀ p, contains st p → (f p <= m)%Q.

(** The two direction vectors [get_dx_dy_qrange] builds. *)
Definition dx_vec : Vec := <[X_OWN:=(-1)%Q]> (<[X_INT:=1%Q]> (np_zeros NUM_VARS)).
Definition dy_vec : Vec := <[Y_OWN:=(-1)%Q]> (np_zeros NUM_VARS).

(** *** Vocabulary for [get_predecessors] *)

(** The cells the two nested loops run through, in their order. *)
Definition cell_grid (dx_qrange dy_qrange : Z * Z) : list (Z * Z) :=
  concat ((λ qdx, (λ qdy, (qdx, qdy))
                    <$> py_range (fst dy_qrange) (snd dy_qrange + 1))
            <$> py_range (fst dx_qrange) (snd dx_qrange + 1)).

(** The cells that are sampled: those not flagged initial. *)
Definition sampled_cells (grid : list (Z * Z)) : list (Z * Z) :=
  List.filter (λ c, negb (is_init_qx_qy (fst c) (snd c))) grid.

(** The decision at cell [c] for the candidate [prev_cmd] equals [cur]. *)
Definition cell_matches (constants : Z * Z * Z) (cur prev_cmd : Z)
    (c : Z * Z) : bool :=
  get_cmd prev_cmd (fst c) (snd c)
          (fst (fst constants)) (snd (fst constants)) (snd constants) =? cur.

Definition match_cells (constants : Z * Z * Z) (cur prev_cmd : Z)
    (grid : list (Z * Z)) : list (Z * Z) :=
  List.filter (cell_matches constants cur prev_cmd) (sampled_cells grid).

Definition mismatch_cells (constants : Z * Z * Z) (cur prev_cmd : Z)
    (grid : list (Z * Z)) : list (Z * Z) :=
  List.filter (λ c, negb (cell_matches constants cur prev_cmd c))
              (sampled_cells grid).

(** The restriction of [st] to cell [c] is feasible. *)
Definition restriction_feasible (st : Star Dom) (c : Z * Z) : bool :=
  bool_decide (is_Some (is_feasible (make_qstar st c))).

(** A predecessor is the whole stepped polytope, or its restriction to
    one cell together with the witness found for the restriction. *)
Inductive region :=
| Whole
| Restricted (c : Z * Z) (w : Vec).

(** The cells of [cells] whose restriction is feasible, each with its
    witness, in order. *)
Fixpoint feasible_restrictions (st : Star Dom) (cells : list (Z * Z))
    : list region :=
  match cells with
  | [] => []
  | c :: cells' =>
      match is_feasible (make_qstar st c) with
      | Some w => Restricted c w :: feasible_restrictions st cells'
      | None => feasible_restrictions st cells'
      end
  end.

(** The four-case policy for one candidate command, in priority order. *)
Definition policy (st : Star Dom) (constants : Z * Z * Z) (cur prev_cmd : Z)
    (grid : list (Z * Z)) : list region :=
  let good := match_cells constants cur prev_cmd grid in
  let bad := mismatch_cells constants cur prev_cmd grid in
  if bool_decide (good = []) then []
  else if bool_decide (bad = []) then [Whole]
  else if forallb (λ c, negb (restriction_feasible st c)) bad then [Whole]
  else feasible_restrictions st good.

(** The predecessor of the stepped state [self] (whose star is [st]) for
    the candidate [prev_cmd], over the region [r], with identifier [id]. *)
Definition predecessor (self : State) (st : Star Dom) (prev_cmd : Z)
    (r : region) (id : Z) : State :=
  match r with
  | Whole =>
      mkState (qtheta1 self) (qv_own self) (qv_int self)
        (alpha_prev_list self ++ [prev_cmd]) (Some st) (domain_witness self) id
  | Restricted c w =>
      mkState (qtheta1 self) (qv_own self) (qv_int self)
        (alpha_prev_list self ++ [prev_cmd]) (Some (make_qstar st c)) (Some w) id
  end.

(** Predecessors for a list of regions, numbered from [n]. *)
Fixpoint numbered (self : State) (st : Star Dom) (prev_cmd : Z)
    (rs : list region) (n : Z) : list State :=
  match rs with
  | [] => []
  | r :: rs' => predecessor self st prev_cmd r n
                :: numbered self st prev_cmd rs' (n + 1)
  end.

(** The output of the loop over the candidates [cmds], numbered from
    [n]. *)
Fixpoint all_predecessors (self : State) (st : Star Dom) (cur : Z)
    (grid : list (Z * Z)) (cmds : list Z) (n : Z) : list State :=
  match cmds with
  | [] => []
  | prev_cmd :: cmds' =>
      let rs := policy st (qtheta1 self, qv_own self, qv_int self)
                       cur prev_cmd grid in
      numbered self st prev_cmd rs n
      ++ all_predecessors self st cur grid cmds' (n + Z.of_nat (length rs))
  end.

(** The tally after one more cell, as a function. *)
Definition tally_cell (constants : Z * Z * Z) (cur prev_cmd : Z)
    (acc : tally) (c : Z * Z) : tally :=
  let '(good, bad, all_right, all_wrong) := acc in
  if is_init_qx_qy (fst c) (snd c) then acc
  else if cell_matches constants cur prev_cmd c
       then (good ++ [c], bad, all_right, false)
       else (good, bad ++ [c], false, all_wrong).

(** A command code of the five advisories. *)
Definition is_cmd (c : Z) : Prop := 0 ≤ c ≤ 4.

(** Every state the search holds has the history [a :: cs] with [a] the
    command of the scenario and [cs] advisory codes. *)
Definition history_from (a : Z) (s : State) : Prop :=
  ∃ cs, alpha_prev_list s = a :: cs ∧ Forall is_cmd cs.

(** The invariant on the loop state of the search. *)
Definition search_history_from (a : Z) (st : Search) : Prop :=
  (∀ s, s ∈ work st → history_from a s)
  ∧ (∀ s, found st = Some s → history_from a s).

(** The same providers with another decision function. *)
Definition with_get_cmd (net : Z → Z → Z → Z → Z → Z → Z) : Providers :=
  {| Dom := Dom; NUM_VARS := NUM_VARS; X_OWN := X_OWN; Y_OWN := Y_OWN;
     X_INT := X_INT; is_feasible := is_feasible; minimize_vec := minimize_vec;
     domain_to_range := domain_to_range; make_qstar := make_qstar;
     is_init_qx_qy := is_init_qx_qy; get_cmd := net;
     get_time_elapse_mat := get_time_elapse_mat;
     init_to_constraints := init_to_constraints;
     pos := pos; cmd_quantum_list := cmd_quantum_list |}.

(** *** Vocabulary for the search *)

(** The Euclidean distance between the own ship and the intruder at a
    range point. *)
Definition separation (pt : Vec) : R :=
  sqrt (Q2R (dx_of pt ^ 2 + dy_of pt ^ 2)).

(** The two most recent commands of [p] are both 0 (clear). *)
Definition two_clear (p : State) : Prop :=
  ∃ l, alpha_prev_list p = l ++ [0; 0].

(** The witness of [p], mapped to range coordinates, has the three
    coordinates the driver reads and puts the two aircraft more than 10000
    apart. *)
Definition far_apart (p : State) : Prop :=
  ∃ w st,
    domain_witness p = Some w ∧ star p = Some st
    ∧ (X_INT < length (domain_to_range st w))%nat
    ∧ (X_OWN < length (domain_to_range st w))%nat
    ∧ (Y_OWN < length (domain_to_range st w))%nat
    ∧ (10000 < separation (domain_to_range st w))%R.

(** A state with its identifier blanked. *)
Definition erase_id (s : State) : State := set_state_id s 0.

(** Two loop states of the search that differ in identifiers only. *)
Definition same_search (st1 st2 : Search) : Prop :=
  erase_id <$> work st1 = erase_id <$> work st2
  ∧ popped st1 = popped st2
  ∧ deadends st1 = deadends st2
  ∧ erase_id <$> found st1 = erase_id <$> found st2.

(** The two counts of a result. *)
Definition counts (r : BackreachResult) : Z * nat :=
  (num_popped r, unique_paths r).

End Vocabulary.

(** ** Printing a state: [__str__], [print_replay_init] *)

Section Printing.
Context {Dom : Type}.

(** [", ".join(...)] *)
Fixpoint join (sep : string) (l : list string) : string :=
  match l with
  | [] => ""
  | [x] => x
  | x :: l' => x +:+ sep +:+ join sep l'
  end.

(** [str(l)] for a list of integers. *)
Definition str_list (l : list Z) : string :=
  "[" +:+ join ", " (pretty <$> l) +:+ "]".

(** [State.__str__] *)
Definition State_str (self : State Dom) : string :=
  "State(id=" +:+ pretty (state_id self) +:+ " with alpha_prev_list = "
  +:+ str_list (alpha_prev_list self) +:+ ")".

(** [print_replay_init]: the four lines it prints. *)
Definition print_replay_init (self : State Dom) : list string :=
  [ "alpha_prev_list = " +:+ str_list (alpha_prev_list self);
    "qtheta1 = " +:+ pretty (qtheta1 self);
    "qv_own = " +:+ pretty (qv_own self);
    "qv_int = " +:+ pretty (qv_int self) ].

End Printing.

(** ** Replaying a witness: [print_replay_witness]

    The method prints and plots, and returns nothing: what it does is the
    sequence of its calls to [print], [Plotter.plot_star] and [plt.show],
    kept here in order, each with the values it is given. The lines that
    hold floats and arrays are kept with their arguments rather than as
    text. *)

Section Replay.
Context `{P : Providers}.
Local Abbreviation State := (State Dom).

(** [Star.get_witness(get_radius=True)], one more method of the external
    class [Star]: a domain point, its image in the range and the radius of
    the Chebyshev ball around it. *)
Context (get_witness : Star Dom → Vec * Vec * Q).

Inductive event :=
| Print_radius (rad : Q)
| Print_end_start (domain_pt range_pt : Vec)
| Print_tiny_radius
| Print_blank
| Plot_star (st : option (Star Dom)) (color : option string)
| Print_network (step net cmd_out : Z)
| Print_state (pt : Vec)
| Print_qstate (qstate : Z * Z * Z * Z * Z)
| Print_mismatch_at (step cmd_out expected_cmd : Z)
| Plt_show
| Print_mismatch
| Print_all_matched.

(** The locals the replay loop updates, and what has been written. *)
Record Replay := mkReplay {
  pt : Vec;
  q_theta1 : Z;
  s_copy : State;
  mismatch : bool;
  trace : list event;
}.

(** Body of [for i in range(len(s.alpha_prev_list) - 1)]; [mismatch] is
    set when the body leaves through [break]. *)
Definition replay_step (s : State) (acc : Replay) (i : Z) : outcome Replay :=
  let pos_quantum := pos in
  net <~ py_index (alpha_prev_list s) (- (i + 1)) ;;
  expected_cmd <~ py_index (alpha_prev_list s) (- (i + 2)) ;;
  x_int <~ np_getitem (pt acc) X_INT ;;
  x_own <~ np_getitem (pt acc) X_OWN ;;
  let dx := Qfloor ((x_int - x_own) / pos_quantum) in
  y_own <~ np_getitem (pt acc) Y_OWN ;;
  let dy := Qfloor ((0 - y_own) / pos_quantum) in
  let qstate := (dx, dy, q_theta1 acc, qv_own s, qv_int s) in
  let cmd_out := get_cmd net dx dy (q_theta1 acc) (qv_own s) (qv_int s) in
  let log := trace acc ++ [Print_network (i + 1) net cmd_out;
                          Print_state (pt acc); Print_qstate qstate] in
  if negb (cmd_out =? expected_cmd) then
    Ok (mkReplay (pt acc) (q_theta1 acc) (s_copy acc) true
          (log ++ [Print_mismatch_at (i + 1) cmd_out expected_cmd]))
  else
    s_copy <~ backstep (s_copy acc) true cmd_out ;;
    let log := log ++ [Plot_star (star s_copy) None] in
    let mat := get_time_elapse_mat cmd_out 1%Q in
    let pt := matvec mat (pt acc) in
    delta_q_theta <~ py_index cmd_quantum_list cmd_out ;;
    Ok (mkReplay pt (q_theta1 acc + delta_q_theta) s_copy false log).

(** The loop, with its [break]. *)
Fixpoint replay_loop (s : State) (steps : list Z) (acc : Replay)
    : outcome Replay :=
  match steps with
  | [] => Ok acc
  | i :: steps' =>
      acc <~ replay_step s acc i ;;
      if mismatch acc then Ok acc else replay_loop s steps' acc
  end.

(** The loop from the locals as they are set up before it. *)
Definition replay (s : State) (range_pt : Vec) (log : list event)
    : outcome Replay :=
  let pt := range_pt in
  let q_theta1 := qtheta1 s in
  let s_copy := deepcopy s in
  let log := log ++ [Plot_star (star s) (Some "r")] in
  replay_loop s (py_range 0 (Z.of_nat (length (alpha_prev_list s)) - 1))
    (mkReplay pt q_theta1 s_copy false log).

(** [print_replay_witness(plot)] *)
Definition print_replay_witness (s : State) (plot : bool)
    : outcome (list event) :=
  st <~ get_star s ;;
  let '(domain_pt, range_pt, rad) := get_witness st in
  let log := [Print_radius rad; Print_end_start domain_pt range_pt] in
  if Qlt_bool rad (1 # 1000000) then Ok (log ++ [Print_tiny_radius])
  else
    let log := log ++ [Print_blank] in
    r <~ replay s range_pt log ;;
    let log := if plot then trace r ++ [Plt_show] else trace r in
    Ok (log ++ [if mismatch r then Print_mismatch else Print_all_matched]).

End Replay.

(** ** Emitting a predecessor, on the store *)

Module HeapEmit.
Section Store.
Context `{P : Providers}.

(** [obj.alpha_prev_list] *)
Definition getattr_alpha_prev_list (h : gmap Heap.loc Heap.obj) (l : Heap.loc)
    : outcome Heap.loc :=
  match h !! l with
  | Some (Heap.OState _ _ _ al _ _ _) => Ok al
  | _ => Raise AttributeError
  end.

(** [l.append(x)]: the list object is updated in place. *)
Definition list_append (h : gmap Heap.loc Heap.obj) (l : Heap.loc) (x : Z)
    : outcome (gmap Heap.loc Heap.obj) :=
  match h !! l with
  | Some (Heap.OList xs) => Ok (<[l:=Heap.OList (xs ++ [x])]> h)
  | _ => Raise AttributeError
  end.

(** [prev_s = self.copy(new_star, new_domain_witness);
    prev_s.alpha_prev_list.append(prev_cmd)] *)
Definition emit (h : gmap Heap.loc Heap.obj) (self : Heap.loc)
    (new_star new_domain_witness : option Heap.loc) (prev_cmd : Z)
    : M (Heap.loc * gmap Heap.loc Heap.obj) :=
  r <- Heap.copy h self new_star new_domain_witness ;;
  let '(prev_s, h) := r in
  al <- lift (getattr_alpha_prev_list h prev_s) ;;
  h <- lift (list_append h al prev_cmd) ;;
  ret (prev_s, h).

End Store.
End HeapEmit.

(** ** More concrete providers and states *)

Module ToyMore.

(** The witness of a point cloud: its first point, with radius 1. *)
Definition toy_get_witness (st : Star (list Vec)) : Vec * Vec * Q :=
  let d := default (np_zeros 6) (head (dom_constraints st)) in
  (d, Toy.to_range st d, 1%Q).

(** The same with a radius below the threshold of the replay. *)
Definition tiny_get_witness (st : Star (list Vec)) : Vec * Vec * Q :=
  let d := default (np_zeros 6) (head (dom_constraints st)) in
  (d, Toy.to_range st d, (1 # 10000000)%Q).

(** A state over [star0] with the history [hist]. *)
Definition state_with (hist : list Z) : State (list Vec) :=
  mkState 3 1 1 hist (Some Toy.star0) (Some [5; 5; 1; 0; 100; 0]%Q) 4.

(** The polytope of [Toy.state0 0] after one step back. *)
Definition star0_back : Star (list Vec) :=
  mkStar Toy.cloud0
    (matmul (Toy.toy_time_elapse_mat 0 (-1)%Q) Toy.identity6)
    (matvec (Toy.toy_time_elapse_mat 0 (-1)%Q) (np_zeros 6)).

End ToyMore.

(** ** Vocabulary of the further statements *)

Section MoreVocabulary.
Context `{P : Providers}.
Local Abbreviation State := (State Dom).

(** The heading quantum of a command: its entry in the table. *)
Definition quantum (c : Z) : Z := default 0 (cmd_quantum_list !! Z.to_nat c).

Definition sumZ (l : list Z) : Z := foldr Z.add 0 l.

(** The heading level of a state with history [hist] in a search that
    started at heading level [theta1]: one quantum has been taken off for
    every command of the history but the last. *)
Definition heading_of (theta1 : Z) (hist : list Z) : Z :=
  theta1 - sumZ (quantum <$> removelast hist).

(** The quantized cell of a range point. *)
Definition cell_of (pt : Vec) : Z * Z :=
  (Qfloor (dx_of pt / pos), Qfloor (dy_of pt / pos)).

(** A star whose range has [NUM_VARS] coordinates. *)
Definition shaped (st : Star Dom) : Prop :=
  length (a_mat st) = NUM_VARS ∧ length (b_vec st) = NUM_VARS.

(** The books of the search loop, for a run that started when the class
    counter was [n]: every state created so far has been pushed, and is
    either still on the frontier or has been popped; identifiers on the
    frontier are distinct and were handed out during the run. *)
Definition accounted (n : Z) (st : Search) (m : Z) : Prop :=
  0 ≤ popped st
  ∧ Z.of_nat (size (deadends st)) ≤ popped st
  ∧ popped st + Z.of_nat (length (work st)) ≤ m - n
  ∧ (found st = None → m - n = popped st + Z.of_nat (length (work st)))
  ∧ (found st = None → work st = [] → (1 ≤ size (deadends st))%nat)
  ∧ (∀ c, found st = Some c →
       1 ≤ popped st ∧ n < state_id c < m
       ∧ ∃ w, work st = w ++ [c])
  ∧ (∀ s, s ∈ work st → n ≤ state_id s < m)
  ∧ NoDup (state_id <$> work st).

(** Vectors and matrices equal entry by entry, as rationals. *)
Definition vec_eq (u v : Vec) : Prop := Forall2 Qeq u v.
Definition mat_eq (a b : Mat) : Prop := Forall2 vec_eq a b.

(** The identity matrix. *)
Fixpoint identity (n : nat) : Mat :=
  match n with
  | O => []
  | S k => (1%Q :: np_zeros k) :: ((cons 0%Q) <$> identity k)
  end.

(** The number of columns [matmul] takes its right operand to have. *)
Definition ncols (b : Mat) : nat := length (default [] (head b)).

(** A string without any of the characters that delimit the numbers of
    a printed list: the space, the comma and the closing bracket. *)
Fixpoint undelimited (s : string) : Prop :=
  match s with
  | EmptyString => True
  | String a s' =>
      (a ≠ " " ∧ a ≠ "," ∧ a ≠ "]")%char ∧ undelimited s'
  end.

(** A string that starts with one of them. *)
Definition delimited (s : string) : Prop :=
  ∃ a s', s = String a s' ∧ (a = " " ∨ a = "," ∨ a = "]")%char.

(** What follows the first number of a printed list. *)
Definition str_rest (l : list Z) : string :=
  match l with
  | [] => "]"
  | _ => ", " +:+ join ", " (pretty <$> l) +:+ "]"
  end.

(** A state of a search that started at heading level [theta1] with the
    speed levels [v_own] and [v_int]. *)
Definition on_course (theta1 v_own v_int : Z) (s : State) : Prop :=
  qtheta1 s = heading_of theta1 (alpha_prev_list s)
  ∧ qv_own s = v_own ∧ qv_int s = v_int.

(** A state the search can work on: it has a polytope of the right
    shape, a witness, and a most recent command in 0..4. *)
Definition ready (s : State) : Prop :=
  (∃ st, star s = Some st ∧ shaped st)
  ∧ is_Some (domain_witness s)
  ∧ (∃ c, last (alpha_prev_list s) = Some c ∧ 0 ≤ c ≤ 4).

(** The answer of the decision function run in the mode [net] at the
    cell of the range point [pt] and the heading level [q], with the
    speed levels of [s]. *)
Definition advice (s : State) (net : Z) (pt : Vec) (q : Z) : Z :=
  get_cmd net (cell_of pt).1 (cell_of pt).2 q (qv_own s) (qv_int s).

(** [explained s rh pt q]: the commands [rh], most recent first, are what
    the decision function makes of the flight that starts at [pt] with
    heading level [q]: run in the mode of each command it answers the
    next one, which is then flown for one step. *)
Fixpoint explained (s : State) (rh : list Z) (pt : Vec) (q : Z) : Prop :=
  match rh with
  | net :: ((c :: _) as rh') =>
      advice s net pt q = c
      ∧ explained s rh' (matvec (get_time_elapse_mat c 1%Q) pt) (q + quantum c)
  | _ => True
  end.

(** The point and heading level reached from [pt] and [q] by flying the
    commands [cs] in order, one step each. *)
Fixpoint fly (cs : list Z) (pt : Vec) (q : Z) : Vec * Z :=
  match cs with
  | [] => (pt, q)
  | c :: cs' => fly cs' (matvec (get_time_elapse_mat c 1%Q) pt) (q + quantum c)
  end.

(** [descends x s]: [s] is [x], or one of the predecessors
    [get_predecessors] returns for a state that descends from [x],
    whatever the class counter is at that call; identifiers apart. *)
Inductive descends (x : State) : State → Prop :=
| descends_here s : erase_id s = erase_id x → descends x s
| descends_pred s n s' preds n' p :
    descends x s →
    get_predecessors s n = Ok ((s', preds), n') →
    p ∈ preds →
    descends x p.

(** A state that has predecessors to give, none of which passes the
    test of the driver. *)
Definition cleared (s : State) : Prop :=
  ∀ n, ∃ s' preds n',
    get_predecessors s n = Ok ((s', preds), n')
    ∧ ∀ p, p ∈ preds → is_counterexample p = Ok false.

End MoreVocabulary.

(** The shapes of what the providers return: matrices of [NUM_VARS] rows,
    range points of [NUM_VARS] coordinates. *)
Class ShapesOK (P : Providers) : Prop := {
  init_shape : ∀ x_own y_own v_own v_int theta1,
    length (init_to_constraints x_own y_own v_own v_int theta1).1.2 = NUM_VARS
    ∧ length (init_to_constraints x_own y_own v_own v_int theta1).2 = NUM_VARS;
  elapse_shape : ∀ c t,
    0 ≤ c ≤ 4 → length (get_time_elapse_mat c t) = NUM_VARS;
  make_qstar_shape : ∀ st q, shaped st → shaped (make_qstar st q);
  range_shape : ∀ st w,
    shaped st → length (domain_to_range st w) = NUM_VARS;
}.

(** The contract of [is_feasible] and [make_qstar] with respect to the
    set of range points [contains st] a star stands for: a star reported
    infeasible has no point, and the restriction of a star to a cell keeps
    the points of the star whose cell it is. *)
Class GeometryOK (P : Providers) (contains : Star Dom → Vec → Prop) : Prop := {
  is_feasible_None : ∀ st p, is_feasible st = None → ¬ contains st p;
  make_qstar_keeps : ∀ st p,
    contains st p → contains (make_qstar st (cell_of p)) p;
}.

(** * Properties *)

(** ** The monads *)

Section MonadFacts.

Lemma obind_Ok_inv {A B} (m : outcome A) (k : A → outcome B) b :
  obind m k = Ok b → ∃ a, m = Ok a ∧ k a = Ok b.
Proof. destruct m; simpl; [eauto | discriminate..]. Qed.

Lemma bind_Ok_inv {A B} (m : M A) (k : A → M B) n r :
  bind m k n = Ok r → ∃ a n', m n = Ok (a, n') ∧ k a n' = Ok r.
Proof.
  unfold bind. destruct (m n) as [[a n']| |]; [eauto | discriminate..].
Qed.

Lemma bind_Ok {A B} (m : M A) (k : A → M B) n a n' :
  m n = Ok (a, n') → bind m k n = k a n'.
Proof. unfold bind. by intros ->. Qed.

Lemma bind_Raise {A B} (m : M A) (k : A → M B) n e :
  m n = Raise e → bind m k n = Raise e.
Proof. unfold bind. by intros ->. Qed.

Lemma lift_Ok {A} (o : outcome A) a n : o = Ok a → lift o n = Ok (a, n).
Proof. by intros ->. Qed.

Lemma lift_Ok_inv {A} (o : outcome A) n a n' :
  lift o n = Ok (a, n') → o = Ok a ∧ n' = n.
Proof. unfold lift. destruct o; simpl; [|discriminate..]. by intros [= -> ->]. Qed.

Lemma assert_Ok_inv b u : assert b = Ok u → b = true.
Proof. by destruct b. Qed.

Lemma for_each_app {A S} (xs ys : list A) (body : S → A → M S) acc n :
  for_each (xs ++ ys) body acc n
  = (acc' <- for_each xs body acc ;; for_each ys body acc') n.
Proof.
  revert acc n. induction xs as [|x xs IH]; intros acc n.
  - done.
  - simpl. unfold bind in *. destruct (body acc x n) as [[a n']| |]; [|done..].
    apply IH.
Qed.

End MonadFacts.

(** ** Python lists *)

Section ListFacts.
Context {A : Type}.
Implicit Types l : list A.

(** Python's [l[-1]] and [l[-2]]. *)
Lemma py_index_neg l (k : Z) :
  1 ≤ k ≤ Z.of_nat (length l) →
  py_index l (- k) =
    match l !! (length l - Z.to_nat k)%nat with
    | Some x => Ok x
    | None => Raise IndexError
    end.
Proof.
  intros Hk. unfold py_index.
  destruct (0 <=? - k) eqn:E1; [apply Z.leb_le in E1; lia|].
  destruct (0 <=? Z.of_nat (length l) + - k) eqn:E2; [|apply Z.leb_gt in E2; lia].
  by replace (Z.to_nat (Z.of_nat (length l) + - k)) with (length l - Z.to_nat k)%nat by lia.
Qed.

Lemma py_index_neg_out l (k : Z) :
  Z.of_nat (length l) < k → 1 ≤ k → py_index l (- k) = Raise IndexError.
Proof.
  intros Hk Hk1. unfold py_index.
  destruct (0 <=? - k) eqn:E1; [apply Z.leb_le in E1; lia|].
  destruct (0 <=? Z.of_nat (length l) + - k) eqn:E2; [apply Z.leb_le in E2; lia|done].
Qed.

Lemma py_index_last l :
  py_index l (-1) = match last l with Some x => Ok x | None => Raise IndexError end.
Proof.
  destruct l as [|a l _] using rev_ind.
  - done.
  - change (-1) with (Z.opp 1). rewrite py_index_neg, last_snoc.
    + rewrite length_app. simpl.
      replace (length l + 1 - Z.to_nat 1)%nat with (length l) by lia.
      by rewrite list_lookup_middle.
    + rewrite length_app. simpl. lia.
Qed.

Lemma py_index_snoc_last l x : py_index (l ++ [x]) (-1) = Ok x.
Proof. by rewrite py_index_last, last_snoc. Qed.

Lemma py_index_snoc2 l y x : py_index (l ++ [y; x]) (-2) = Ok y.
Proof.
  change (-2) with (Z.opp 2). rewrite py_index_neg.
  - rewrite length_app. simpl.
    replace (length l + 2 - Z.to_nat 2)%nat with (length l) by lia.
    by rewrite list_lookup_middle.
  - rewrite length_app. simpl. lia.
Qed.

Lemma py_index_in_bounds l (k : Z) :
  1 ≤ k ≤ Z.of_nat (length l) → ∃ x, py_index l (- k) = Ok x.
Proof.
  intros Hk. rewrite py_index_neg by done.
  destruct (l !! _) eqn:E3; [eauto|].
  apply lookup_ge_None in E3. lia.
Qed.

Lemma py_pop_snoc l x : py_pop (l ++ [x]) = Some (x, l).
Proof.
  unfold py_pop. rewrite last_snoc, length_app. simpl.
  replace (length l + 1 - 1)%nat with (length l) by lia.
  by rewrite take_app_length.
Qed.

Lemma py_pop_nil : py_pop (@nil A) = None.
Proof. done. Qed.

Lemma py_pop_Some l x l' : py_pop l = Some (x, l') → l = l' ++ [x].
Proof.
  destruct l as [|a l _] using rev_ind; [done|].
  rewrite py_pop_snoc. by intros [= -> ->].
Qed.

End ListFacts.

(** ** Construction *)

Section InitFacts.
Context `{P : Providers}.
Local Abbreviation State := (State Dom).

Lemma State_init_Ok alpha_prev qt qo qi (st : Star Dom) w n :
  is_feasible st = Some w →
  State_init alpha_prev qt qo qi st n
  = Ok (mkState qt qo qi [alpha_prev] (Some st) (Some w) n, n + 1).
Proof. intros Hw. unfold State_init. rewrite Hw. reflexivity. Qed.

Lemma State_init_Raise alpha_prev qt qo qi (st : Star Dom) n :
  is_feasible st = None →
  State_init alpha_prev qt qo qi st n = Raise AssertionError.
Proof. intros Hw. unfold State_init. rewrite Hw. reflexivity. Qed.

Lemma State_init_inv alpha_prev qt qo qi (st : Star Dom) n s n' :
  State_init alpha_prev qt qo qi st n = Ok (s, n') →
  ∃ w, is_feasible st = Some w
       ∧ s = mkState qt qo qi [alpha_prev] (Some st) (Some w) n ∧ n' = n + 1.
Proof.
  destruct (is_feasible st) as [w|] eqn:Hw.
  - rewrite (State_init_Ok _ _ _ _ _ w) by done. intros [= <- <-]. eauto.
  - by rewrite State_init_Raise.
Qed.

(** C6. Construction from an infeasible polytope raises the assertion
    error, whatever the caller goes on to do with the result, and the
    driver given a scenario whose initial polytope is infeasible raises
    it too, for every fuel; construction from a feasible polytope returns
    the state and stores the witness [is_feasible] returned. *)
Theorem State_init_feasibility alpha_prev qt qo qi (st : Star Dom) n :
  (is_feasible st = None →
     State_init alpha_prev qt qo qi st n = Raise AssertionError
     ∧ (∀ B (k : State → M B),
          bind (State_init alpha_prev qt qo qi st) k n = Raise AssertionError)
     ∧ (∀ fuel task t0 t1 x_own y_own,
          init_to_constraints x_own y_own qo qi qt
            = (dom_constraints st, a_mat st, b_vec st) →
          backreach_single fuel task t0 t1
            (Some (alpha_prev, x_own, y_own, qt, qo, qi)) false n
          = Raise AssertionError))
  ∧ (∀ w, is_feasible st = Some w →
       ∃ s, State_init alpha_prev qt qo qi st n = Ok (s, n + 1)
            ∧ domain_witness s = Some w
            ∧ star s = Some st
            ∧ alpha_prev_list s = [alpha_prev]
            ∧ (qtheta1 s, qv_own s, qv_int s) = (qt, qo, qi)
            ∧ state_id s = n).
Proof.
  split.
  - intros Hw. split; [by apply State_init_Raise|]. split.
    + intros B k. apply bind_Raise. by apply State_init_Raise.
    + intros fuel task t0 t1 x_own y_own Hinit.
      unfold backreach_single. simpl. unfold bind at 1. simpl.
      rewrite Hinit. destruct st as [d a b]. simpl in *.
      apply bind_Raise. by apply State_init_Raise.
  - intros w Hw. eexists. split; [by apply State_init_Ok|]. done.
Qed.

End InitFacts.

(** ** The backward and forward steps *)

Section BackstepFacts.
Context `{P : Providers}.
Local Abbreviation State := (State Dom).

Lemma cmd_quantum_lookup `{!ProvidersOK P} (c : Z) :
  0 ≤ c ≤ 4 → ∃ delta, cmd_quantum_list !! Z.to_nat c = Some delta.
Proof.
  intros Hc. apply lookup_lt_is_Some. rewrite cmd_quantum_len. lia.
Qed.

Lemma py_index_nonneg {A} (l : list A) (i : Z) :
  0 ≤ i →
  py_index l i
  = match l !! Z.to_nat i with Some x => Ok x | None => Raise IndexError end.
Proof.
  intros Hi. unfold py_index.
  assert (E : (0 <=? i) = true) by (apply Z.leb_le; lia).
  cbv zeta. by rewrite !E.
Qed.

(** What [backstep] does once the command [cmd] has been chosen. *)
Lemma backstep_cmd (self : State) (forward : bool) (fa cmd : Z)
    (st : Star Dom) (delta : Z) :
  (if forward then Ok fa else py_index (alpha_prev_list self) (-1)) = Ok cmd →
  0 ≤ cmd ≤ 4 →
  star self = Some st →
  cmd_quantum_list !! Z.to_nat cmd = Some delta →
  backstep self forward fa
  = Ok (stepped self st
          (get_time_elapse_mat cmd (if negb forward then (-1)%Q else 1%Q))
          (if forward then qtheta1 self + delta else qtheta1 self - delta)).
Proof.
  intros Hcmd Hc Hst Hd. unfold backstep. rewrite Hcmd. simpl.
  replace ((0 <=? cmd) && (cmd <=? 4)) with true
    by (symmetry; apply andb_true_iff; split; apply Z.leb_le; lia).
  simpl. unfold get_star. rewrite Hst. simpl.
  rewrite py_index_nonneg, Hd by lia. simpl.
  by destruct forward.
Qed.

Lemma backstep_out_of_range (self : State) (forward : bool) (fa cmd : Z) :
  (if forward then Ok fa else py_index (alpha_prev_list self) (-1)) = Ok cmd →
  ¬ 0 ≤ cmd ≤ 4 →
  backstep self forward fa = Raise AssertionError.
Proof.
  intros Hcmd Hc. unfold backstep. rewrite Hcmd. simpl.
  replace ((0 <=? cmd) && (cmd <=? 4)) with false; [done|].
  symmetry. apply andb_false_iff.
  destruct (decide (0 ≤ cmd)); [right|left]; apply Z.leb_gt; lia.
Qed.

Lemma backstep_inv (self self' : State) (forward : bool) (fa : Z) :
  backstep self forward fa = Ok self' →
  ∃ cmd st delta,
    (if forward then Ok fa else py_index (alpha_prev_list self) (-1)) = Ok cmd
    ∧ 0 ≤ cmd ≤ 4
    ∧ star self = Some st
    ∧ cmd_quantum_list !! Z.to_nat cmd = Some delta
    ∧ self' = stepped self st
        (get_time_elapse_mat cmd (if negb forward then (-1)%Q else 1%Q))
        (if forward then qtheta1 self + delta else qtheta1 self - delta).
Proof.
  intros H. unfold backstep in H.
  apply obind_Ok_inv in H as (cmd & Hcmd & H).
  apply obind_Ok_inv in H as (u & Hassert & H).
  apply assert_Ok_inv, andb_true_iff in Hassert as [H0 H4].
  apply Z.leb_le in H0, H4.
  apply obind_Ok_inv in H as (st & Hst & H).
  apply obind_Ok_inv in H as (delta & Hd & H).
  unfold get_star in Hst. destruct (star self) as [st'|] eqn:Hst'; [|done].
  injection Hst as ->.
  assert (Hd' : cmd_quantum_list !! Z.to_nat cmd = Some delta).
  { rewrite py_index_nonneg in Hd by done.
    destruct (cmd_quantum_list !! Z.to_nat cmd); congruence. }
  exists cmd, st, delta. repeat split; [done..|].
  injection H as <-. by destruct forward.
Qed.

(** C7. On a state that has a polytope and whose most recent command [c]
    is in 0..4, the backward step multiplies [a_mat] and [b_vec] by the
    transform of [c] for time -1 and subtracts the table entry of [c] from
    the heading level; the forward step multiplies them by the transform
    of the supplied command for time +1 and adds the table entry of that
    command (for the command [c] itself: the very delta the backward step
    subtracts); a command outside 0..4 raises the assertion error in
    either direction. *)
Theorem backstep_spec `{!ProvidersOK P} (self : State) (st : Star Dom) (c : Z) :
  star self = Some st →
  last (alpha_prev_list self) = Some c →
  (0 ≤ c ≤ 4 →
     ∃ delta, cmd_quantum_list !! Z.to_nat c = Some delta
       ∧ (∀ fa, backstep self false fa
                = Ok (stepped self st (get_time_elapse_mat c (-1)%Q)
                        (qtheta1 self - delta)))
       ∧ backstep self true c
         = Ok (stepped self st (get_time_elapse_mat c 1%Q)
                 (qtheta1 self + delta)))
  ∧ (∀ fa, 0 ≤ fa ≤ 4 →
       ∃ delta, cmd_quantum_list !! Z.to_nat fa = Some delta
         ∧ backstep self true fa
           = Ok (stepped self st (get_time_elapse_mat fa 1%Q)
                   (qtheta1 self + delta)))
  ∧ (¬ 0 ≤ c ≤ 4 → ∀ fa, backstep self false fa = Raise AssertionError)
  ∧ (∀ fa, ¬ 0 ≤ fa ≤ 4 → backstep self true fa = Raise AssertionError).
Proof.
  intros Hst Hlast.
  assert (Hidx : py_index (alpha_prev_list self) (-1) = Ok c)
    by (by rewrite py_index_last, Hlast).
  repeat split.
  - intros Hc. destruct (cmd_quantum_lookup c Hc) as [delta Hd].
    exists delta. split; [done|]. split.
    + intros fa. by apply (backstep_cmd _ false fa c).
    + by apply (backstep_cmd _ true c c).
  - intros fa Hfa. destruct (cmd_quantum_lookup fa Hfa) as [delta Hd].
    exists delta. split; [done|]. by apply (backstep_cmd _ true fa fa).
  - intros Hc fa. by apply (backstep_out_of_range _ false fa c).
  - intros fa Hfa. by apply (backstep_out_of_range _ true fa fa).
Qed.

End BackstepFacts.

(** ** The quantized range of the relative position *)

Section VectorFacts.

Lemma dot_nil_r (u : Vec) : dot u [] = 0%Q.
Proof. by destruct u. Qed.

Lemma dot_comm (u v : Vec) : (dot u v == dot v u)%Q.
Proof.
  revert v. induction u as [|x u IH]; intros [|y v]; simpl; try reflexivity.
  rewrite IH. ring.
Qed.

Lemma dot_zeros (n : nat) (p : Vec) : (dot (np_zeros n) p == 0)%Q.
Proof.
  revert p. induction n as [|n IH]; intros [|y p]; simpl; try reflexivity.
  unfold np_zeros in IH. rewrite IH. ring.
Qed.

Lemma dot_neg_r (p v : Vec) : (dot p (np_neg v) == - dot p v)%Q.
Proof.
  revert v. induction p as [|x p IH]; intros [|y v]; simpl; try reflexivity.
  unfold np_neg in IH. rewrite IH. ring.
Qed.

(** Overwriting entry [i] of [u] changes [u @ p] by the change of the
    entry times coordinate [i] of [p]. *)
Lemma dot_insert (u p : Vec) (i : nat) (x : Q) :
  (i < length u)%nat →
  (dot (<[i:=x]> u) p
   == dot u p + (x - default 0 (u !! i)) * default 0 (p !! i))%Q.
Proof.
  revert p i. induction u as [|a u IH]; intros p i Hi; simpl in Hi; [lia|].
  destruct i as [|i], p as [|y p]; simpl; try ring.
  rewrite IH by lia.
  ring.
Qed.

Lemma np_setitem_Ok (v : Vec) (i : nat) (x : Q) :
  (i < length v)%nat → np_setitem v i x = Ok (<[i:=x]> v).
Proof. intros Hi. unfold np_setitem. by rewrite bool_decide_eq_true_2. Qed.

Lemma np_zeros_lookup (n i : nat) : default 0%Q (np_zeros n !! i) = 0%Q.
Proof.
  unfold np_zeros. destruct (replicate n 0%Q !! i) eqn:E; [|done].
  by apply lookup_replicate in E as [-> _].
Qed.

Lemma Qdiv_le_mono (a b q : Q) : (0 < q → a <= b → a / q <= b / q)%Q.
Proof.
  intros Hq Hab. unfold Qdiv. apply Qmult_le_compat_r; [done|].
  apply Qinv_le_0_compat. lra.
Qed.

Lemma elem_of_py_range (a b k : Z) : k ∈ py_range a b ↔ a ≤ k < b.
Proof. unfold py_range. rewrite elem_of_seqZ. lia. Qed.

End VectorFacts.

Section RangeFacts.
Context `{P : Providers} `{!ProvidersOK P}.
Local Abbreviation State := (State Dom).

Lemma dot_dx_vec (p : Vec) : (dot p dx_vec == dx_of p)%Q.
Proof.
  rewrite dot_comm. unfold dx_vec, dx_of, coord.
  pose proof X_INT_lt. pose proof X_OWN_lt. pose proof X_INT_X_OWN.
  rewrite dot_insert by (rewrite length_insert; unfold np_zeros; by rewrite length_replicate).
  rewrite dot_insert by (unfold np_zeros; by rewrite length_replicate).
  rewrite list_lookup_insert_ne by done.
  rewrite !np_zeros_lookup, dot_zeros. ring.
Qed.

Lemma dot_dy_vec (p : Vec) : (dot p dy_vec == dy_of p)%Q.
Proof.
  rewrite dot_comm. unfold dy_vec, dy_of, coord.
  pose proof Y_OWN_lt.
  rewrite dot_insert by (unfold np_zeros; by rewrite length_replicate).
  rewrite !np_zeros_lookup, dot_zeros. ring.
Qed.

(** [get_dx_dy_qrange] in one equation. *)
Lemma get_dx_dy_qrange_eq (self : State) (st : Star Dom) :
  star self = Some st →
  get_dx_dy_qrange self
  = Ok ((Qfloor (dot (minimize_vec st dx_vec) dx_vec / pos),
         Qceiling (dot (minimize_vec st (np_neg dx_vec)) dx_vec / pos)),
        (Qfloor (dot (minimize_vec st dy_vec) dy_vec / pos),
         Qceiling (dot (minimize_vec st (np_neg dy_vec)) dy_vec / pos))).
Proof.
  intros Hst. unfold get_dx_dy_qrange.
  pose proof X_INT_lt. pose proof X_OWN_lt. pose proof Y_OWN_lt.
  rewrite np_setitem_Ok by (unfold np_zeros; by rewrite length_replicate).
  simpl.
  rewrite np_setitem_Ok
    by (rewrite length_insert; unfold np_zeros; by rewrite length_replicate).
  simpl. unfold get_star. rewrite Hst. simpl.
  rewrite np_setitem_Ok by (unfold np_zeros; by rewrite length_replicate).
  reflexivity.
Qed.

Lemma get_dx_dy_qrange_inv (self : State) r :
  get_dx_dy_qrange self = Ok r → ∃ st, star self = Some st.
Proof.
  intros H. destruct (star self) as [st|] eqn:Hst; [eauto|].
  unfold get_dx_dy_qrange in H.
  repeat (apply obind_Ok_inv in H as (? & ? & H)).
  unfold get_star in *. by rewrite Hst in *.
Qed.

Section WithOptimizer.
Context (contains : Star Dom → Vec → Prop) `{!OptimizerOK P contains}.

Lemma minimize_is_min (st : Star Dom) (v : Vec) (f : Vec → Q) p0 :
  (∀ p, dot p v == f p)%Q →
  contains st p0 →
  is_min_over contains st f (dot (minimize_vec st v) v).
Proof.
  intros Hf Hp0. split.
  - exists (minimize_vec st v). split; [by eapply minimize_vec_in|].
    symmetry. apply Hf.
  - intros p Hp. rewrite <- Hf. by apply minimize_vec_le.
Qed.

Lemma minimize_neg_is_max (st : Star Dom) (v : Vec) (f : Vec → Q) p0 :
  (∀ p, dot p v == f p)%Q →
  contains st p0 →
  is_max_over contains st f (dot (minimize_vec st (np_neg v)) v).
Proof.
  intros Hf Hp0. split.
  - exists (minimize_vec st (np_neg v)). split; [by eapply minimize_vec_in|].
    symmetry. apply Hf.
  - intros p Hp. rewrite <- Hf.
    pose proof (minimize_vec_le st (np_neg v) p Hp) as Hle.
    rewrite !dot_neg_r in Hle. lra.
Qed.

Lemma cell_between (st : Star Dom) (f : Vec → Q) (m M : Q) p :
  is_min_over contains st f m → is_max_over contains st f M →
  contains st p →
  Qfloor (m / pos) ≤ Qfloor (f p / pos) ≤ Qceiling (M / pos).
Proof.
  intros [_ Hm] [_ HM] Hp. pose proof pos_positive. split.
  - apply Qfloor_resp_le, Qdiv_le_mono; auto.
  - etrans; [|apply Qceiling_resp_le, Qdiv_le_mono; [done|by apply HM]].
    rewrite Zle_Qle. apply Qle_floor_ceiling.
Qed.

(** C8. On a state whose polytope is non-empty, [get_dx_dy_qrange]
    returns, for each axis, [floor(m/q)] and [ceil(M/q)] where [m] is the
    least and [M] the greatest value over the polytope of the displacement
    on that axis ([dx = x_int - x_own], [dy = 0 - y_own]), each being the
    value at the point a directional optimisation returns, and [q] is the
    position quantum. The range is inclusive: the cell of every point of
    the polytope lies between the two ends, and the enumeration
    [range(lo, hi + 1)] that [get_predecessors] runs over it visits
    exactly the cells from [lo] to [hi]. *)
Theorem get_dx_dy_qrange_spec (self : State) (st : Star Dom) (p0 : Vec) :
  star self = Some st →
  contains st p0 →
  ∃ mx Mx my My : Q,
    is_min_over contains st dx_of mx ∧ is_max_over contains st dx_of Mx
    ∧ is_min_over contains st dy_of my ∧ is_max_over contains st dy_of My
    ∧ mx = dot (minimize_vec st dx_vec) dx_vec
    ∧ Mx = dot (minimize_vec st (np_neg dx_vec)) dx_vec
    ∧ my = dot (minimize_vec st dy_vec) dy_vec
    ∧ My = dot (minimize_vec st (np_neg dy_vec)) dy_vec
    ∧ get_dx_dy_qrange self
      = Ok ((Qfloor (mx / pos), Qceiling (Mx / pos)),
            (Qfloor (my / pos), Qceiling (My / pos)))
    ∧ (∀ p, contains st p →
         Qfloor (mx / pos) ≤ Qfloor (dx_of p / pos) ≤ Qceiling (Mx / pos)
         ∧ Qfloor (my / pos) ≤ Qfloor (dy_of p / pos) ≤ Qceiling (My / pos))
    ∧ (∀ k, k ∈ py_range (Qfloor (mx / pos)) (Qceiling (Mx / pos) + 1)
            ↔ Qfloor (mx / pos) ≤ k ≤ Qceiling (Mx / pos))
    ∧ (∀ k, k ∈ py_range (Qfloor (my / pos)) (Qceiling (My / pos) + 1)
            ↔ Qfloor (my / pos) ≤ k ≤ Qceiling (My / pos)).
Proof.
  intros Hst Hp0.
  pose proof (minimize_is_min st dx_vec dx_of p0 dot_dx_vec Hp0) as Hmx.
  pose proof (minimize_neg_is_max st dx_vec dx_of p0 dot_dx_vec Hp0) as HMx.
  pose proof (minimize_is_min st dy_vec dy_of p0 dot_dy_vec Hp0) as Hmy.
  pose proof (minimize_neg_is_max st dy_vec dy_of p0 dot_dy_vec Hp0) as HMy.
  eexists _, _, _, _.
  split; [exact Hmx|]. split; [exact HMx|].
  split; [exact Hmy|]. split; [exact HMy|].
  do 4 (split; [reflexivity|]).
  split; [by apply get_dx_dy_qrange_eq|].
  split.
  - intros p Hp. split; by eapply cell_between.
  - split; intros k; rewrite elem_of_py_range; lia.
Qed.

End WithOptimizer.
End RangeFacts.

(** ** Predecessors *)

Section LoopFacts.

Lemma for_each_fmap {A B S} (g : A → B) (xs : list A) (body : S → B → M S)
    acc n :
  for_each (g <$> xs) body acc n = for_each xs (λ t x, body t (g x)) acc n.
Proof.
  revert acc n. induction xs as [|x xs IH]; intros acc n; [done|].
  simpl. unfold bind. destruct (body acc (g x) n) as [[a n']| |]; [|done..].
  apply IH.
Qed.

(** Two nested loops are one loop over the pairs. *)
Lemma for_each_nested {A B S} (xs : list A) (ys : list B)
    (body : S → A * B → M S) acc n :
  for_each xs (λ t x, for_each ys (λ t y, body t (x, y)) t) acc n
  = for_each (concat ((λ x, (λ y, (x, y)) <$> ys) <$> xs)) body acc n.
Proof.
  revert acc n. induction xs as [|x xs IH]; intros acc n; [done|].
  simpl. rewrite for_each_app. unfold bind.
  rewrite for_each_fmap.
  destruct (for_each ys _ acc n) as [[a n']| |]; [|done..].
  apply IH.
Qed.

(** A loop whose body neither raises nor touches the counter. *)
Lemma for_each_pure {A S} (xs : list A) (body : S → A → outcome S)
    (f : S → A → S) acc n :
  (∀ t x, body t x = Ok (f t x)) →
  for_each xs (λ t x, lift (body t x)) acc n = Ok (fold_left f xs acc, n).
Proof.
  intros Hbody. revert acc. induction xs as [|x xs IH]; intros acc; [done|].
  simpl. unfold bind, lift. rewrite Hbody. simpl. apply IH.
Qed.

End LoopFacts.

Section PredecessorFacts.
Context `{P : Providers}.
Local Abbreviation State := (State Dom).

Lemma classify_cell_eq (self : State) constants cur prev_cmd acc c :
  py_index (alpha_prev_list self) (-1) = Ok cur →
  classify_cell self constants prev_cmd acc c
  = Ok (tally_cell constants cur prev_cmd acc c).
Proof.
  intros Hcur. unfold classify_cell, tally_cell, cell_matches.
  destruct acc as [[[good bad] ar] aw], c as [qdx qdy],
    constants as [[c1 c2] c3]. simpl.
  destruct (is_init_qx_qy qdx qdy); [done|].
  rewrite Hcur. simpl. by destruct (_ =? _).
Qed.

Lemma tally_fold constants cur prev_cmd grid good bad ar aw :
  fold_left (tally_cell constants cur prev_cmd) grid (good, bad, ar, aw)
  = (good ++ match_cells constants cur prev_cmd grid,
     bad ++ mismatch_cells constants cur prev_cmd grid,
     ar && bool_decide (mismatch_cells constants cur prev_cmd grid = []),
     aw && bool_decide (match_cells constants cur prev_cmd grid = [])).
Proof.
  unfold match_cells, mismatch_cells, sampled_cells.
  revert good bad ar aw. induction grid as [|c grid IH]; intros good bad ar aw.
  - simpl. by rewrite !app_nil_r, !andb_true_r.
  - cbn [fold_left List.filter].
    remember (tally_cell constants cur prev_cmd (good, bad, ar, aw) c) as t
      eqn:Ht.
    unfold tally_cell in Ht.
    destruct (is_init_qx_qy c.1 c.2); simpl; [subst t; apply IH|].
    destruct (cell_matches constants cur prev_cmd c); subst t; simpl;
      rewrite IH, <- app_assoc; simpl; by rewrite andb_false_r.
Qed.

Lemma all_incorrect_infeasible_forallb (st : Star Dom) cells :
  all_incorrect_infeasible st cells
  = forallb (λ c, negb (restriction_feasible st c)) cells.
Proof.
  induction cells as [|c cells IH]; [done|]. simpl.
  unfold restriction_feasible at 1.
  destruct (is_feasible (make_qstar st c)); simpl; [done|]. apply IH.
Qed.

Lemma set_star_restore (self : State) :
  set_star (set_star self None) (star self) = self.
Proof. by destruct self. Qed.

(** [copy] without a replacement: the new state is [self] but for its
    identifier. *)
Lemma copy_None (self : State) w n :
  copy self None w n = Ok ((self, set_state_id self n), n + 1).
Proof. reflexivity. Qed.

(** [copy] with a replacement polytope and its witness. *)
Lemma copy_Some (self : State) (st' : Star Dom) (w : Vec) n :
  copy self (Some st') (Some w) n
  = Ok ((self, mkState (qtheta1 self) (qv_own self) (qv_int self)
                 (alpha_prev_list self) (Some st') (Some w) n), n + 1).
Proof.
  unfold copy. simpl. unfold bind, lift, assign_state_id, ret. simpl.
  by rewrite set_star_restore.
Qed.

Lemma copy_Some_None (self : State) (st' : Star Dom) n :
  copy self (Some st') None n = Raise AssertionError.
Proof. reflexivity. Qed.

Lemma emit_Whole (self : State) (st : Star Dom) rv prev_cmd n :
  star self = Some st →
  emit prev_cmd None None (self, rv) n
  = Ok ((self, rv ++ [predecessor self st prev_cmd Whole n]), n + 1).
Proof.
  intros Hst. unfold emit. rewrite (bind_Ok _ _ _ _ _ (copy_None _ _ _)).
  unfold ret, predecessor, set_alpha_prev_list, set_state_id. simpl.
  by rewrite Hst.
Qed.

Lemma emit_Restricted (self : State) (st : Star Dom) rv prev_cmd c w n :
  emit prev_cmd (Some (make_qstar st c)) (Some w) (self, rv) n
  = Ok ((self, rv ++ [predecessor self st prev_cmd (Restricted c w) n]), n + 1).
Proof.
  unfold emit. by rewrite (bind_Ok _ _ _ _ _ (copy_Some _ _ _ _)).
Qed.

Lemma numbered_app (self : State) st prev_cmd rs1 rs2 n :
  numbered self st prev_cmd (rs1 ++ rs2) n
  = numbered self st prev_cmd rs1 n
    ++ numbered self st prev_cmd rs2 (n + Z.of_nat (length rs1)).
Proof.
  revert n. induction rs1 as [|r rs1 IH]; intros n; simpl.
  - by rewrite Z.add_0_r.
  - rewrite IH. do 3 f_equal. lia.
Qed.

Lemma split_cell_eq (self : State) (st : Star Dom) prev_cmd c rv n :
  star self = Some st →
  split_cell prev_cmd (self, rv) c n
  = match is_feasible (make_qstar st c) with
    | Some w =>
        Ok ((self, rv ++ [predecessor self st prev_cmd (Restricted c w) n]),
            n + 1)
    | None => Ok ((self, rv), n)
    end.
Proof.
  intros Hst. unfold split_cell, bind, lift. cbn [fst]. unfold get_star.
  rewrite Hst. cbn [obind].
  destruct (is_feasible (make_qstar st c)) as [w|] eqn:Hw; [|done].
  apply emit_Restricted.
Qed.

Lemma split_loop (self : State) (st : Star Dom) prev_cmd cells rv n :
  star self = Some st →
  for_each cells (split_cell prev_cmd) (self, rv) n
  = Ok ((self, rv ++ numbered self st prev_cmd
                       (feasible_restrictions st cells) n),
        n + Z.of_nat (length (feasible_restrictions st cells))).
Proof.
  intros Hst. revert rv n.
  induction cells as [|c cells IH]; intros rv n.
  - simpl. unfold ret. by rewrite app_nil_r, Z.add_0_r.
  - cbn [for_each feasible_restrictions]. unfold bind at 1.
    rewrite (split_cell_eq self st) by done.
    destruct (is_feasible (make_qstar st c)) as [w|] eqn:Hw.
    + rewrite IH. cbn [numbered length].
      rewrite <- app_assoc. simpl. do 2 f_equal. lia.
    + apply IH.
Qed.

Lemma try_prev_cmd_eq (self : State) (st : Star Dom) cur dxr dyr rv prev_cmd n :
  star self = Some st →
  py_index (alpha_prev_list self) (-1) = Ok cur →
  let constants := (qtheta1 self, qv_own self, qv_int self) in
  let rs := policy st constants cur prev_cmd (cell_grid dxr dyr) in
  try_prev_cmd dxr dyr constants (self, rv) prev_cmd n
  = Ok ((self, rv ++ numbered self st prev_cmd rs n),
        n + Z.of_nat (length rs)).
Proof.
  intros Hst Hcur constants rs. unfold try_prev_cmd.
  unfold bind at 1.
  rewrite (for_each_nested _ _
    (λ t c, lift (classify_cell (self, rv).1 constants prev_cmd t c))).
  fold (cell_grid dxr dyr).
  rewrite (for_each_pure _ _ (tally_cell constants cur prev_cmd))
    by (intros; by apply classify_cell_eq).
  rewrite tally_fold. cbn [app andb fst snd].
  subst rs. unfold policy. fold constants.
  destruct (bool_decide (match_cells constants cur prev_cmd _ = [])).
  { unfold ret. simpl. by rewrite app_nil_r, Z.add_0_r. }
  destruct (bool_decide (mismatch_cells constants cur prev_cmd _ = [])).
  { by rewrite (emit_Whole _ st). }
  unfold bind, lift, get_star. cbn [fst]. rewrite Hst. cbn [obind].
  rewrite all_incorrect_infeasible_forallb.
  destruct (forallb _ _).
  { by rewrite (emit_Whole _ st). }
  by apply split_loop.
Qed.

Lemma candidates_loop (self : State) (st : Star Dom) cur dxr dyr cmds rv n :
  star self = Some st →
  py_index (alpha_prev_list self) (-1) = Ok cur →
  ∃ n',
    for_each cmds
      (try_prev_cmd dxr dyr (qtheta1 self, qv_own self, qv_int self))
      (self, rv) n
    = Ok ((self, rv ++ all_predecessors self st cur (cell_grid dxr dyr) cmds n),
          n')
    ∧ n' = n + Z.of_nat (length (all_predecessors self st cur
                                   (cell_grid dxr dyr) cmds n)).
Proof.
  intros Hst Hcur. revert rv n.
  induction cmds as [|prev_cmd cmds IH]; intros rv n.
  - exists n. simpl. unfold ret. by rewrite app_nil_r, Z.add_0_r.
  - simpl. unfold bind at 1.
    rewrite (try_prev_cmd_eq self st cur) by done.
    destruct (IH (rv ++ numbered self st prev_cmd
                    (policy st (qtheta1 self, qv_own self, qv_int self)
                       cur prev_cmd (cell_grid dxr dyr)) n)
                 (n + Z.of_nat (length (policy st
                    (qtheta1 self, qv_own self, qv_int self)
                    cur prev_cmd (cell_grid dxr dyr))))) as (n' & -> & ->).
    eexists. split; [by rewrite <- app_assoc|].
    rewrite length_app.
    assert (Hlen : ∀ rs m, length (numbered self st prev_cmd rs m) = length rs).
    { induction rs as [|r rs IHrs]; intros m; simpl; [done|]. by rewrite IHrs. }
    rewrite Hlen. lia.
Qed.

End PredecessorFacts.

Section PredecessorSpec.
Context `{P : Providers}.
Local Abbreviation State := (State Dom).

(** Whatever [get_predecessors] returns is the stepped state and the
    output of the policy for the five candidates, numbered from the
    counter. *)
Lemma get_predecessors_inv (self self' : State) preds n n' :
  get_predecessors self n = Ok ((self', preds), n') →
  ∃ st' cur dxr dyr,
    backstep self false (-1) = Ok self'
    ∧ star self' = Some st'
    ∧ py_index (alpha_prev_list self') (-1) = Ok cur
    ∧ 0 ≤ cur ≤ 4
    ∧ alpha_prev_list self' = alpha_prev_list self
    ∧ get_dx_dy_qrange self' = Ok (dxr, dyr)
    ∧ preds = all_predecessors self' st' cur (cell_grid dxr dyr)
                (py_range 0 5) n
    ∧ n' = n + Z.of_nat (length preds).
Proof.
  intros H. unfold get_predecessors in H.
  apply bind_Ok_inv in H as (r0 & n0 & H0 & H).
  apply lift_Ok_inv in H0 as [_ ->].
  apply bind_Ok_inv in H as (s1 & n1 & H1 & H).
  apply lift_Ok_inv in H1 as [Hback ->].
  apply bind_Ok_inv in H as ([dxr dyr] & n2 & H2 & H).
  apply lift_Ok_inv in H2 as [Hrange ->].
  destruct (backstep_inv _ _ _ _ Hback) as (cmd & st & delta & Hcmd & Hc & Hst & _ & ->).
  set (st' := mkStar (dom_constraints st)
                (matmul (get_time_elapse_mat cmd (-1)%Q) (a_mat st))
                (matvec (get_time_elapse_mat cmd (-1)%Q) (b_vec st))) in *.
  set (self1 := stepped self st _ _) in *.
  assert (Hst' : star self1 = Some st') by done.
  assert (Hhist : alpha_prev_list self1 = alpha_prev_list self) by done.
  assert (Hcur : py_index (alpha_prev_list self1) (-1) = Ok cmd)
    by (by rewrite Hhist).
  destruct (candidates_loop self1 st' cmd dxr dyr (py_range 0 5) [] n Hst' Hcur)
    as (m & Hloop & Hm).
  simpl in Hloop, H. rewrite Hloop in H. injection H as <- <- <-.
  exists st', cmd, dxr, dyr. repeat split; try done; try lia.
Qed.

(** [get_predecessors] returns on every state that has a polytope and a
    most recent command in 0..4. *)
Lemma get_predecessors_total `{!ProvidersOK P} (self : State) st c n :
  star self = Some st →
  last (alpha_prev_list self) = Some c →
  0 ≤ c ≤ 4 →
  ∃ self' preds n', get_predecessors self n = Ok ((self', preds), n').
Proof.
  intros Hst Hlast Hc.
  assert (Hidx : py_index (alpha_prev_list self) (-1) = Ok c)
    by (by rewrite py_index_last, Hlast).
  destruct (cmd_quantum_lookup c Hc) as [delta Hd].
  pose proof (backstep_cmd self false (-1) c st delta Hidx Hc Hst Hd) as Hb.
  simpl in Hb.
  set (self1 := stepped self st (get_time_elapse_mat c (-1)%Q)
                  (qtheta1 self - delta)) in *.
  pose proof (get_dx_dy_qrange_eq self st Hst) as Hr0.
  pose proof (get_dx_dy_qrange_eq self1 _ eq_refl) as Hr1.
  destruct (get_dx_dy_qrange self1) as [[dxr dyr]| |] eqn:Hr; [|done..].
  assert (Hcur : py_index (alpha_prev_list self1) (-1) = Ok c) by done.
  destruct (candidates_loop self1 _ c dxr dyr (py_range 0 5) [] n eq_refl Hcur)
    as (m & Hloop & Hm).
  eexists self1, _, m. unfold get_predecessors.
  rewrite (bind_Ok _ _ _ _ _ (lift_Ok _ _ n Hr0)).
  rewrite (bind_Ok _ _ _ _ _ (lift_Ok _ _ n Hb)).
  rewrite (bind_Ok _ _ _ _ _ (lift_Ok _ _ n Hr)).
  exact Hloop.
Qed.

(** *** What the policy puts out *)

Lemma elem_of_sampled_cells (grid : list (Z * Z)) q :
  q ∈ sampled_cells grid ↔ q ∈ grid ∧ is_init_qx_qy q.1 q.2 = false.
Proof.
  unfold sampled_cells. rewrite !list_elem_of_In, filter_In.
  by rewrite negb_true_iff.
Qed.

Lemma elem_of_match_cells constants cur prev_cmd (grid : list (Z * Z)) q :
  q ∈ match_cells constants cur prev_cmd grid
  ↔ q ∈ grid ∧ is_init_qx_qy q.1 q.2 = false
    ∧ get_cmd prev_cmd q.1 q.2 constants.1.1 constants.1.2 constants.2 = cur.
Proof.
  unfold match_cells. rewrite list_elem_of_In, filter_In, <- list_elem_of_In.
  rewrite elem_of_sampled_cells. unfold cell_matches. rewrite Z.eqb_eq.
  tauto.
Qed.

Lemma elem_of_mismatch_cells constants cur prev_cmd (grid : list (Z * Z)) q :
  q ∈ mismatch_cells constants cur prev_cmd grid
  ↔ q ∈ grid ∧ is_init_qx_qy q.1 q.2 = false
    ∧ get_cmd prev_cmd q.1 q.2 constants.1.1 constants.1.2 constants.2 ≠ cur.
Proof.
  unfold mismatch_cells. rewrite list_elem_of_In, filter_In, <- list_elem_of_In.
  rewrite elem_of_sampled_cells. unfold cell_matches.
  rewrite negb_true_iff, Z.eqb_neq. tauto.
Qed.

Lemma elem_of_cell_grid dxr dyr (q : Z * Z) :
  q ∈ cell_grid dxr dyr
  ↔ dxr.1 ≤ q.1 ≤ dxr.2 ∧ dyr.1 ≤ q.2 ≤ dyr.2.
Proof.
  unfold cell_grid. rewrite list_elem_of_In, in_concat.
  setoid_rewrite <- list_elem_of_In. split.
  - intros (l & Hl & Hq). apply list_elem_of_fmap in Hl as (qdx & -> & Hdx).
    apply list_elem_of_fmap in Hq as (qdy & -> & Hdy).
    apply elem_of_py_range in Hdx, Hdy. simpl. lia.
  - intros [Hdx Hdy]. exists ((λ qdy, (q.1, qdy)) <$> py_range dyr.1 (dyr.2 + 1)).
    split.
    + apply list_elem_of_fmap. exists q.1. split; [done|].
      apply elem_of_py_range. lia.
    + apply list_elem_of_fmap. exists q.2. split; [by destruct q|].
      apply elem_of_py_range. lia.
Qed.

Lemma feasible_restrictions_Forall2 (st : Star Dom) cells :
  Forall2 (λ q r, ∃ w, is_feasible (make_qstar st q) = Some w
                       ∧ r = Restricted q w)
    (List.filter (restriction_feasible st) cells)
    (feasible_restrictions st cells).
Proof.
  induction cells as [|q cells IH]; simpl; [constructor|].
  unfold restriction_feasible at 1.
  destruct (is_feasible (make_qstar st q)) as [w|] eqn:Hw.
  - rewrite bool_decide_eq_true_2 by eauto. constructor; eauto.
  - rewrite bool_decide_eq_false_2 by (by intros [? ?]). exact IH.
Qed.

Lemma elem_of_feasible_restrictions (st : Star Dom) cells r :
  r ∈ feasible_restrictions st cells →
  ∃ q w, r = Restricted q w ∧ q ∈ cells
         ∧ is_feasible (make_qstar st q) = Some w.
Proof.
  induction cells as [|q cells IH]; simpl; [by intros ?%elem_of_nil|].
  destruct (is_feasible (make_qstar st q)) as [w|] eqn:Hw.
  - intros [->|Hr]%elem_of_cons.
    + exists q, w. repeat split; [left|done].
    + destruct (IH Hr) as (q' & w' & -> & Hq' & Hw'). exists q', w'.
      repeat split; [by right|done].
  - intros Hr. destruct (IH Hr) as (q' & w' & -> & Hq' & Hw'). exists q', w'.
    repeat split; [by right|done].
Qed.

Lemma elem_of_policy (st : Star Dom) constants cur prev_cmd grid r :
  r ∈ policy st constants cur prev_cmd grid →
  r = Whole
  ∨ ∃ q w, r = Restricted q w
           ∧ q ∈ match_cells constants cur prev_cmd grid
           ∧ is_feasible (make_qstar st q) = Some w.
Proof.
  unfold policy. repeat case_match.
  - by intros ?%elem_of_nil.
  - intros ->%list_elem_of_singleton. by left.
  - intros ->%list_elem_of_singleton. by left.
  - intros Hr. right. by apply elem_of_feasible_restrictions.
Qed.

Lemma numbered_Forall2 (self : State) st prev_cmd rs n :
  Forall2 (λ r p, ∃ id, p = predecessor self st prev_cmd r id)
    rs (numbered self st prev_cmd rs n).
Proof.
  revert n. induction rs as [|r rs IH]; intros n; simpl; constructor; eauto.
Qed.

Lemma elem_of_numbered (self : State) st prev_cmd rs n p :
  p ∈ numbered self st prev_cmd rs n →
  ∃ r id, r ∈ rs ∧ p = predecessor self st prev_cmd r id.
Proof.
  revert n. induction rs as [|r rs IH]; intros n; simpl.
  - by intros ?%elem_of_nil.
  - intros [->|Hp]%elem_of_cons.
    + exists r, n. split; [left|done].
    + destruct (IH _ Hp) as (r' & id & Hr' & ->). exists r', id.
      split; [by right|done].
Qed.

Lemma elem_of_all_predecessors (self : State) st cur grid cmds n p :
  p ∈ all_predecessors self st cur grid cmds n →
  ∃ prev_cmd r id,
    prev_cmd ∈ cmds
    ∧ r ∈ policy st (qtheta1 self, qv_own self, qv_int self) cur prev_cmd grid
    ∧ p = predecessor self st prev_cmd r id.
Proof.
  revert n. induction cmds as [|c cmds IH]; intros n; simpl.
  - by intros ?%elem_of_nil.
  - intros [Hp|Hp]%elem_of_app.
    + destruct (elem_of_numbered _ _ _ _ _ _ Hp) as (r & id & Hr & ->).
      exists c, r, id. split; [left|done].
    + destruct (IH _ Hp) as (c' & r & id & Hc' & Hr & ->).
      exists c', r, id. split; [by right|done].
Qed.

(** The output as one group of predecessors per candidate command. *)
Lemma all_predecessors_groups (self : State) st cur grid cmds n :
  ∃ groups,
    all_predecessors self st cur grid cmds n = concat groups
    ∧ Forall2 (λ prev_cmd group, ∃ m,
                 group = numbered self st prev_cmd
                           (policy st (qtheta1 self, qv_own self, qv_int self)
                                   cur prev_cmd grid) m)
        cmds groups.
Proof.
  revert n. induction cmds as [|c cmds IH]; intros n; simpl.
  - exists []. split; [done|constructor].
  - destruct (IH (n + Z.of_nat (length (policy st
        (qtheta1 self, qv_own self, qv_int self) cur c grid))))
      as (groups & -> & HF).
    eexists (_ :: groups). split; [done|]. constructor; eauto.
Qed.

End PredecessorSpec.

Lemma Forall2_compose {A B C} (R1 : A → B → Prop) (R2 : B → C → Prop)
    (R : A → C → Prop) (xs : list A) (ys : list B) (zs : list C) :
  (∀ x y z, R1 x y → R2 y z → R x z) →
  Forall2 R1 xs ys → Forall2 R2 ys zs → Forall2 R xs zs.
Proof.
  intros HR H1. revert zs. induction H1 as [|x y xs ys Hxy _ IH]; intros zs H2.
  - inversion H2. constructor.
  - inversion H2 as [|? z ? zs' Hyz Hrest]; subst. constructor; eauto.
Qed.

Section PredecessorClaims.
Context `{P : Providers}.
Local Abbreviation State := (State Dom).

(** C1. On a state with a polytope and a most recent command [c] in
    0..4, [get_predecessors] steps the state back once and returns one
    group of predecessors per candidate previous command 0..4, in that
    order. With [good] the sampled cells whose decision equals [c] and
    [bad] the other sampled cells (sampled: in the range of the stepped
    polytope and not initial), the group of a candidate is, in priority
    order: empty when [good] is empty; else the single unrestricted
    predecessor when [bad] is empty; else the single unrestricted
    predecessor when no cell of [bad] has a feasible restriction; else one
    predecessor per cell of [good] whose restriction is feasible, over that
    restriction and with its witness, the infeasible ones being skipped.
    Every predecessor carries the history of the state with the candidate
    appended. *)
Theorem get_predecessors_four_cases `{!ProvidersOK P} (self : State)
    (st : Star Dom) (c n : Z) :
  star self = Some st →
  last (alpha_prev_list self) = Some c →
  0 ≤ c ≤ 4 →
  ∃ self' st' dxr dyr groups n',
    get_predecessors self n = Ok ((self', concat groups), n')
    ∧ backstep self false (-1) = Ok self'
    ∧ star self' = Some st'
    ∧ get_dx_dy_qrange self' = Ok (dxr, dyr)
    ∧ Forall2 (λ prev_cmd group,
        let constants := (qtheta1 self', qv_own self', qv_int self') in
        let good := match_cells constants c prev_cmd (cell_grid dxr dyr) in
        let bad := mismatch_cells constants c prev_cmd (cell_grid dxr dyr) in
        (∀ q, q ∈ good ↔
           q ∈ cell_grid dxr dyr ∧ is_init_qx_qy q.1 q.2 = false
           ∧ get_cmd prev_cmd q.1 q.2 (qtheta1 self') (qv_own self')
               (qv_int self') = c)
        ∧ (∀ q, q ∈ bad ↔
           q ∈ cell_grid dxr dyr ∧ is_init_qx_qy q.1 q.2 = false
           ∧ get_cmd prev_cmd q.1 q.2 (qtheta1 self') (qv_own self')
               (qv_int self') ≠ c)
        ∧ ((good = [] ∧ group = [])
           ∨ (good ≠ [] ∧ bad = []
              ∧ ∃ id, group = [predecessor self' st' prev_cmd Whole id])
           ∨ (good ≠ [] ∧ bad ≠ []
              ∧ (∀ q, q ∈ bad → is_feasible (make_qstar st' q) = None)
              ∧ ∃ id, group = [predecessor self' st' prev_cmd Whole id])
           ∨ (good ≠ [] ∧ bad ≠ []
              ∧ (∃ q, q ∈ bad ∧ is_Some (is_feasible (make_qstar st' q)))
              ∧ Forall2 (λ q p, ∃ w id,
                           is_feasible (make_qstar st' q) = Some w
                           ∧ p = predecessor self' st' prev_cmd
                                   (Restricted q w) id)
                  (List.filter (restriction_feasible st') good) group)))
      [0; 1; 2; 3; 4] groups.
Proof.
  intros Hst Hlast Hc.
  destruct (get_predecessors_total self st c n Hst Hlast Hc)
    as (self' & preds & n' & Hget).
  destruct (get_predecessors_inv _ _ _ _ _ Hget)
    as (st' & cur & dxr & dyr & Hback & Hst' & Hcur & _ & Hhist & Hr & -> & _).
  assert (cur = c) as ->.
  { rewrite Hhist, py_index_last, Hlast in Hcur. by injection Hcur. }
  destruct (all_predecessors_groups self' st' c (cell_grid dxr dyr)
              (py_range 0 5) n) as (groups & Hgroups & HF).
  rewrite Hgroups in Hget.
  exists self', st', dxr, dyr, groups, n'.
  do 4 (split; [done|]).
  change (py_range 0 5) with [0; 1; 2; 3; 4] in HF.
  eapply Forall2_impl; [exact HF|].
  intros prev_cmd group (m & ->). cbv zeta.
  split; [intros q; by rewrite elem_of_match_cells|].
  split; [intros q; by rewrite elem_of_mismatch_cells|].
  unfold policy.
  set (good := match_cells _ c prev_cmd _).
  set (bad := mismatch_cells _ c prev_cmd _).
  destruct (bool_decide (good = [])) eqn:Hgood.
  { apply bool_decide_eq_true in Hgood. by left. }
  apply bool_decide_eq_false in Hgood. right.
  destruct (bool_decide (bad = [])) eqn:Hbad.
  { apply bool_decide_eq_true in Hbad. left. simpl. eauto. }
  apply bool_decide_eq_false in Hbad. right.
  destruct (forallb _ bad) eqn:Hinf.
  - left. do 2 (split; [done|]). split; [|simpl; eauto].
    intros q Hq. rewrite forallb_forall in Hinf.
    apply list_elem_of_In, Hinf, negb_true_iff in Hq.
    unfold restriction_feasible in Hq. apply bool_decide_eq_false in Hq.
    destruct (is_feasible (make_qstar st' q)); [|done]. by destruct Hq.
  - right. do 2 (split; [done|]). split.
    + apply (f_equal negb) in Hinf. simpl in Hinf.
      assert (Hex : existsb (restriction_feasible st') bad = true).
      { clear -Hinf. induction bad as [|q bad IH]; simpl in *; [done|].
        destruct (restriction_feasible st' q); simpl in *; [done|]. by apply IH. }
      apply existsb_exists in Hex as (q & Hq & Hf).
      exists q. split; [by apply list_elem_of_In|].
      by apply bool_decide_eq_true in Hf.
    + eapply Forall2_compose;
        [|apply feasible_restrictions_Forall2|apply numbered_Forall2].
      intros q r p (w & Hw & ->) (id & ->). eauto.
Qed.

(** C10. Every predecessor [get_predecessors] returns has a history one
    longer than that of the state it was called on, hence of length at
    least 2, and [alpha_prev_list[-2]] on it is in bounds. *)
Theorem predecessor_history_length (self self' : State) preds n n' :
  get_predecessors self n = Ok ((self', preds), n') →
  ∀ p, p ∈ preds →
    length (alpha_prev_list p) = S (length (alpha_prev_list self))
    ∧ (2 ≤ length (alpha_prev_list p))%nat
    ∧ ∃ x, py_index (alpha_prev_list p) (-2) = Ok x.
Proof.
  intros Hget p Hp.
  destruct (get_predecessors_inv _ _ _ _ _ Hget)
    as (st' & cur & dxr & dyr & _ & _ & Hcur & _ & Hhist & _ & -> & _).
  apply elem_of_all_predecessors in Hp as (prev_cmd & r & id & _ & _ & ->).
  assert (Hlen : length (alpha_prev_list (predecessor self' st' prev_cmd r id))
                 = S (length (alpha_prev_list self))).
  { destruct r; simpl; rewrite length_app, Hhist; simpl; lia. }
  assert (Hne : (1 ≤ length (alpha_prev_list self))%nat).
  { rewrite <- Hhist. rewrite py_index_last in Hcur.
    destruct (alpha_prev_list self'); simpl in *; [done|lia]. }
  split; [done|]. split; [lia|].
  apply (py_index_in_bounds _ 2). lia.
Qed.

End PredecessorClaims.

(** ** The scan of the predecessors and the command histories *)

Section HistoryFacts.
Context `{P : Providers}.
Local Abbreviation State := (State Dom).

(** The two ways out of the loop over the predecessors. *)
Lemma scan_predecessors_none (preds work : list State) :
  (∀ p, p ∈ preds → is_counterexample p = Ok false) →
  scan_predecessors preds work = Ok (work ++ preds, None).
Proof.
  revert work. induction preds as [|p preds IH]; intros work Hall; simpl.
  - by rewrite app_nil_r.
  - rewrite (Hall p) by left. simpl. rewrite IH.
    + by rewrite <- app_assoc.
    + intros q Hq. apply Hall. by right.
Qed.

Lemma scan_predecessors_hit (l1 l2 work : list State) (p : State) :
  (∀ x, x ∈ l1 → is_counterexample x = Ok false) →
  is_counterexample p = Ok true →
  scan_predecessors (l1 ++ p :: l2) work = Ok (work ++ l1 ++ [p], Some p).
Proof.
  revert work. induction l1 as [|x l1 IH]; intros work Hall Hp; simpl.
  - by rewrite Hp.
  - rewrite (Hall x) by left. simpl. rewrite IH.
    + by rewrite <- app_assoc.
    + intros q Hq. apply Hall. by right.
    + done.
Qed.

Lemma scan_predecessors_inv (preds work work' : list State) found :
  scan_predecessors preds work = Ok (work', found) →
  (found = None ∧ work' = work ++ preds
   ∧ ∀ p, p ∈ preds → is_counterexample p = Ok false)
  ∨ (∃ l1 p l2, preds = l1 ++ p :: l2 ∧ found = Some p
       ∧ work' = work ++ l1 ++ [p]
       ∧ (∀ x, x ∈ l1 → is_counterexample x = Ok false)
       ∧ is_counterexample p = Ok true).
Proof.
  revert work. induction preds as [|p preds IH]; intros work; simpl.
  - intros [= <- <-]. left. rewrite app_nil_r.
    split_and!; try done. by intros p ?%elem_of_nil.
  - destruct (is_counterexample p) as [[|]| |] eqn:Hp; simpl; [| |done..].
    + intros [= <- <-]. right. exists [], p, preds.
      split_and!; try done. by intros x ?%elem_of_nil.
    + intros H. destruct (IH _ H) as [(-> & -> & Hall)|
        (l1 & q & l2 & -> & -> & -> & Hall & Hq)].
      * left. rewrite <- app_assoc. split_and!; try done.
        intros x [->|Hx]%elem_of_cons; auto.
      * right. exists (p :: l1), q, l2. rewrite <- !app_assoc.
        split_and!; try done.
        intros x [->|Hx]%elem_of_cons; auto.
Qed.

Lemma copy_history (self self1 rv : State) ns nw n n' :
  copy self ns nw n = Ok ((self1, rv), n') →
  alpha_prev_list self1 = alpha_prev_list self
  ∧ alpha_prev_list rv = alpha_prev_list self.
Proof.
  destruct ns as [st'|], nw as [w|].
  - rewrite copy_Some. by intros [= <- <- <-].
  - by rewrite copy_Some_None.
  - rewrite copy_None. by intros [= <- <- <-].
  - rewrite copy_None. by intros [= <- <- <-].
Qed.

Lemma backstep_history (self self' : State) forward fa :
  backstep self forward fa = Ok self' →
  alpha_prev_list self' = alpha_prev_list self.
Proof.
  intros H. by destruct (backstep_inv _ _ _ _ H) as (? & ? & ? & _ & _ & _ & _ & ->).
Qed.

Lemma get_predecessors_history (self self' : State) preds n n' :
  get_predecessors self n = Ok ((self', preds), n') →
  alpha_prev_list self' = alpha_prev_list self
  ∧ ∀ p, p ∈ preds →
      ∃ c, is_cmd c ∧ alpha_prev_list p = alpha_prev_list self ++ [c].
Proof.
  intros Hget.
  destruct (get_predecessors_inv _ _ _ _ _ Hget)
    as (st' & cur & dxr & dyr & _ & _ & _ & _ & Hhist & _ & -> & _).
  split; [done|]. intros p Hp.
  apply elem_of_all_predecessors in Hp as (prev_cmd & r & id & Hc & _ & ->).
  exists prev_cmd. split.
  - apply elem_of_py_range in Hc. unfold is_cmd. lia.
  - rewrite <- Hhist. by destruct r.
Qed.

Lemma history_from_snoc a (s p : State) c :
  history_from a s → is_cmd c →
  alpha_prev_list p = alpha_prev_list s ++ [c] →
  history_from a p.
Proof.
  intros (cs & Hs & Hcs) Hc Hp. exists (cs ++ [c]). split.
  - by rewrite Hp, Hs.
  - apply Forall_app. split; [done|]. by constructor.
Qed.

Lemma search_step_history a (s : State) work popped deadends st n n' :
  history_from a s →
  (∀ x, x ∈ work → history_from a x) →
  search_step s work popped deadends n = Ok (st, n') →
  search_history_from a st.
Proof.
  intros Hs Hwork H. unfold search_step in H.
  apply bind_Ok_inv in H as ([s' preds] & n1 & Hget & H).
  apply bind_Ok_inv in H as ([work' found] & n2 & Hscan & H).
  apply lift_Ok_inv in Hscan as [Hscan ->].
  injection H as <- <-.
  destruct (get_predecessors_history _ _ _ _ _ Hget) as [_ Hpreds].
  assert (Hp : ∀ p, p ∈ preds → history_from a p).
  { intros p Hp. destruct (Hpreds p Hp) as (c & Hc & Hhist).
    by eapply history_from_snoc. }
  destruct (scan_predecessors_inv _ _ _ _ Hscan) as [(-> & -> & _)|
    (l1 & q & l2 & -> & -> & -> & _ & _)]; split; simpl.
  - intros x [Hx|Hx]%elem_of_app; auto.
  - done.
  - intros x [Hx|Hx]%elem_of_app; [auto|]. apply Hp.
    apply elem_of_app in Hx as [Hx|Hx%list_elem_of_singleton].
    + apply elem_of_app. by left.
    + subst x. apply elem_of_app. right. left.
  - intros x [= <-]. apply Hp. apply elem_of_app. right. left.
Qed.

Lemma search_loop_history a fuel st st' n n' :
  search_history_from a st →
  search_loop fuel st n = Ok (st', n') →
  search_history_from a st'.
Proof.
  revert st n. induction fuel as [|fuel IH]; intros st n Hinv; simpl.
  - destruct (py_pop (work st)) as [[s w]|]; [destruct (found st)|];
      [by intros [= <- <-]|done|by intros [= <- <-]].
  - destruct (py_pop (work st)) as [[s w]|] eqn:Hpop;
      [destruct (found st) eqn:Hfound|];
      [by intros [= <- <-]| |by intros [= <- <-]].
    intros H. apply bind_Ok_inv in H as (st1 & n1 & Hstep & H).
    apply py_pop_Some in Hpop. destruct Hinv as [Hwork _].
    eapply IH; [|exact H].
    eapply search_step_history; [| |exact Hstep].
    + apply Hwork. rewrite Hpop. apply elem_of_app. right. left.
    + intros x Hx. apply Hwork. rewrite Hpop. apply elem_of_app. by left.
Qed.

(** C5, as amended. Construction stores the one-element history made of
    its command argument, whatever that integer is; [copy], [backstep]
    in either direction and [get_predecessors] leave the history of the
    state they are called on as it was, the copy has an equal history, and
    each predecessor has that history with one code in 0..4 appended. So
    every state the search holds, and the counterexample it returns, has
    the history [a :: cs] with [a] the command of the scenario and every
    code of [cs] in 0..4: histories are never empty, and all their codes
    lie in 0..4 as soon as the command of the scenario does. *)
Theorem command_history_invariant :
  (∀ a qt qo qi (st : Star Dom) n s n',
     State_init a qt qo qi st n = Ok (s, n') → alpha_prev_list s = [a])
  ∧ (∀ (self self1 rv : State) ns nw n n',
       copy self ns nw n = Ok ((self1, rv), n') →
       alpha_prev_list self1 = alpha_prev_list self
       ∧ alpha_prev_list rv = alpha_prev_list self)
  ∧ (∀ (self self' : State) forward fa,
       backstep self forward fa = Ok self' →
       alpha_prev_list self' = alpha_prev_list self)
  ∧ (∀ (self self' : State) preds n n',
       get_predecessors self n = Ok ((self', preds), n') →
       alpha_prev_list self' = alpha_prev_list self
       ∧ ∀ p, p ∈ preds →
           ∃ c, 0 ≤ c ≤ 4 ∧ alpha_prev_list p = alpha_prev_list self ++ [c])
  ∧ (∀ a fuel st st' n n',
       search_history_from a st →
       search_loop fuel st n = Ok (st', n') →
       search_history_from a st')
  ∧ (∀ fuel task t0 t1 a x_own y_own qt qo qi n res n',
       backreach_single fuel task t0 t1 (Some (a, x_own, y_own, qt, qo, qi))
         false n = Ok (res, n') →
       ∀ s, counterexample res = Some s →
         ∃ cs, alpha_prev_list s = a :: cs ∧ Forall (λ c, 0 ≤ c ≤ 4) cs).
Proof.
  split; [|split; [|split; [|split; [|split]]]].
  - intros a qt qo qi st n s n' H.
    by destruct (State_init_inv _ _ _ _ _ _ _ _ H) as (w & _ & -> & _).
  - intros *. apply copy_history.
  - intros *. apply backstep_history.
  - intros *. apply get_predecessors_history.
  - intros *. apply search_loop_history.
  - intros fuel task t0 t1 a x_own y_own qt qo qi n res n' H s Hs.
    unfold backreach_single in H. simpl in H.
    apply bind_Ok_inv in H as (r & n0 & Hr & H). injection Hr as <- <-.
    destruct (init_to_constraints x_own y_own qo qi qt) as [[box am] bv].
    apply bind_Ok_inv in H as (init_s & n1 & Hinit & H).
    apply bind_Ok_inv in H as (st & n2 & Hloop & H).
    injection H as <- <-. simpl in Hs.
    destruct (State_init_inv _ _ _ _ _ _ _ _ Hinit) as (w & _ & -> & _).
    eapply (search_loop_history a) in Hloop as [_ Hfound].
    + by apply Hfound.
    + split; simpl; [|done]. intros x ->%list_elem_of_singleton.
      exists []. split; [done|constructor].
Qed.

End HistoryFacts.

(** ** Initial cells *)

Section InitialCells.
Context `{P : Providers}.
Local Abbreviation State := (State Dom).

Lemma for_each_ext {A S} (xs : list A) (body1 body2 : S → A → M S) acc n :
  (∀ t x m, body1 t x m = body2 t x m) →
  for_each xs body1 acc n = for_each xs body2 acc n.
Proof.
  intros Hbody. revert acc n. induction xs as [|x xs IH]; intros acc n; [done|].
  simpl. unfold bind. rewrite Hbody.
  destruct (body2 acc x n) as [[a n']| |]; [apply IH|done..].
Qed.

Lemma bind_ext {A B} (m1 m2 : M A) (k1 k2 : A → M B) n :
  m1 n = m2 n → (∀ a n', k1 a n' = k2 a n') → bind m1 k1 n = bind m2 k2 n.
Proof.
  intros Hm Hk. unfold bind. rewrite Hm.
  destruct (m2 n) as [[a n']| |]; [apply Hk|done..].
Qed.

Section OtherNet.
Context (net : Z → Z → Z → Z → Z → Z → Z).
Hypothesis net_agrees : ∀ prev_cmd qdx qdy a b c,
  is_init_qx_qy qdx qdy = false →
  net prev_cmd qdx qdy a b c = get_cmd prev_cmd qdx qdy a b c.

Lemma classify_cell_other_net (self : State) constants prev_cmd acc q :
  @classify_cell (with_get_cmd net) self constants prev_cmd acc q
  = classify_cell self constants prev_cmd acc q.
Proof.
  unfold classify_cell. destruct acc as [[[good bad] ar] aw], q as [qdx qdy],
    constants as [[c1 c2] c3]. simpl.
  destruct (is_init_qx_qy qdx qdy) eqn:Hinit; [reflexivity|].
  rewrite net_agrees by done. reflexivity.
Qed.

Lemma try_prev_cmd_other_net dxr dyr constants (acc : State * list State)
    prev_cmd n :
  @try_prev_cmd (with_get_cmd net) dxr dyr constants acc prev_cmd n
  = try_prev_cmd dxr dyr constants acc prev_cmd n.
Proof.
  unfold try_prev_cmd, bind.
  rewrite (for_each_ext _ _
    (λ t qdx, for_each (py_range dyr.1 (dyr.2 + 1))
       (λ t qdy, lift (classify_cell acc.1 constants prev_cmd t (qdx, qdy))) t)).
  - reflexivity.
  - intros t qdx m. apply for_each_ext. intros t' qdy m'.
    unfold lift. by rewrite classify_cell_other_net.
Qed.

(** The decision function is consulted at no initial cell: replacing it
    by one that differs only there changes nothing. *)
Lemma get_predecessors_other_net (self : State) n :
  @get_predecessors (with_get_cmd net) self n = get_predecessors self n.
Proof.
  unfold get_predecessors.
  apply bind_ext; [reflexivity|]. intros _ n0.
  apply bind_ext; [reflexivity|]. intros s1 n1.
  apply bind_ext; [reflexivity|]. intros [dxr dyr] n2.
  apply for_each_ext. intros t x m. apply try_prev_cmd_other_net.
Qed.

End OtherNet.

(** C3, as amended. The cells flagged initial are left out of the
    enumeration and the decision function is not consulted there: with a
    decision function that differs only on initial cells
    [get_predecessors] returns the same. Every predecessor is either the
    whole stepped polytope, with the witness of the state, or the
    restriction of the stepped polytope to one cell that is in range and
    not initial, with the witness of that restriction. Nothing removes the
    initial cells from the whole stepped polytope. *)
Theorem initial_cells_not_sampled (self self' : State) preds n n' :
  get_predecessors self n = Ok ((self', preds), n') →
  (∀ net,
     (∀ prev_cmd qdx qdy a b c,
        is_init_qx_qy qdx qdy = false →
        net prev_cmd qdx qdy a b c = get_cmd prev_cmd qdx qdy a b c) →
     @get_predecessors (with_get_cmd net) self n = Ok ((self', preds), n'))
  ∧ ∃ st' dxr dyr,
      star self' = Some st'
      ∧ get_dx_dy_qrange self' = Ok (dxr, dyr)
      ∧ ∀ p, p ∈ preds →
          (star p = Some st' ∧ domain_witness p = domain_witness self')
          ∨ (∃ q w,
               is_init_qx_qy q.1 q.2 = false
               ∧ dxr.1 ≤ q.1 ≤ dxr.2 ∧ dyr.1 ≤ q.2 ≤ dyr.2
               ∧ star p = Some (make_qstar st' q)
               ∧ is_feasible (make_qstar st' q) = Some w
               ∧ domain_witness p = Some w).
Proof.
  intros Hget. split.
  - intros net Hnet. by rewrite get_predecessors_other_net.
  - destruct (get_predecessors_inv _ _ _ _ _ Hget)
      as (st' & cur & dxr & dyr & _ & Hst' & _ & _ & _ & Hr & -> & _).
    exists st', dxr, dyr. do 2 (split; [done|]). intros p Hp.
    apply elem_of_all_predecessors in Hp as (prev_cmd & r & id & _ & Hr' & ->).
    apply elem_of_policy in Hr' as [->|(q & w & -> & Hq & Hw)].
    + by left.
    + right. exists q, w.
      apply elem_of_match_cells in Hq as (Hgrid & Hinit & _).
      apply elem_of_cell_grid in Hgrid as [Hdx Hdy].
      split_and!; try done; lia.
Qed.

End InitialCells.

(** ** [deepcopy] and [copy] on the store *)

Module HeapFacts.

Section StoreFacts.
Context `{P : Providers}.
Local Abbreviation State := (State Dom).
Implicit Types h : gmap Heap.loc Heap.obj.

Lemma alloc_spec h o : ∃ l, Heap.alloc h o = (l, <[l:=o]> h) ∧ l ∉ dom h.
Proof. exists (fresh (dom h)). split; [done|apply is_fresh]. Qed.

Lemma insert_fresh_subseteq h l o : l ∉ dom h → h ⊆ <[l:=o]> h.
Proof. intros Hl. by apply insert_subseteq, not_elem_of_dom. Qed.

Lemma deepcopy_attr_Ok h l o :
  h !! l = Some o → Heap.is_attr o → Heap.deepcopy_attr h l = Ok (Heap.alloc h o).
Proof. intros Hl Ho. unfold Heap.deepcopy_attr. rewrite Hl. by destruct o. Qed.

Lemma read_list_weaken h h' l xs :
  h ⊆ h' → Heap.read_list h l = Some xs → Heap.read_list h' l = Some xs.
Proof.
  intros Hsub. unfold Heap.read_list.
  destruct (h !! l) as [o|] eqn:Hl; [|done].
  eapply lookup_weaken in Hl; [|exact Hsub]. by rewrite Hl.
Qed.

Lemma read_star_weaken h h' l st :
  h ⊆ h' → Heap.read_star h l = Some st → Heap.read_star h' l = Some st.
Proof.
  intros Hsub. unfold Heap.read_star.
  destruct (h !! l) as [o|] eqn:Hl; [|done].
  eapply lookup_weaken in Hl; [|exact Hsub]. by rewrite Hl.
Qed.

Lemma read_array_weaken h h' l v :
  h ⊆ h' → Heap.read_array h l = Some v → Heap.read_array h' l = Some v.
Proof.
  intros Hsub. unfold Heap.read_array.
  destruct (h !! l) as [o|] eqn:Hl; [|done].
  eapply lookup_weaken in Hl; [|exact Hsub]. by rewrite Hl.
Qed.

Lemma read_opt_weaken {A} (rd : gmap Heap.loc Heap.obj → Heap.loc → option A) h h' l a :
  (∀ l x, rd h l = Some x → rd h' l = Some x) →
  Heap.read_opt rd h l = Some a → Heap.read_opt rd h' l = Some a.
Proof.
  intros Hrd. destruct l as [l|]; simpl; [|done].
  destruct (rd h l) as [x|] eqn:Hx; [|done]. by rewrite (Hrd _ _ Hx).
Qed.

(** Copying an attribute: a new location holding the same object,
    nothing else touched. *)
Lemma deepcopy_attr_spec h l o :
  h !! l = Some o → Heap.is_attr o →
  ∃ l', Heap.deepcopy_attr h l = Ok (l', <[l':=o]> h) ∧ (l' ∉ dom h).
Proof.
  intros Hl Ho. rewrite (deepcopy_attr_Ok h l o) by done.
  destruct (alloc_spec h o) as (l' & -> & Hfresh). eauto.
Qed.

Lemma deepcopy_list h l xs :
  Heap.read_list h l = Some xs →
  ∃ l' h', Heap.deepcopy_attr h l = Ok (l', h')
    ∧ (l' ∉ dom h) ∧ (l' ∈ dom h') ∧ (h ⊆ h') ∧ Heap.read_list h' l' = Some xs.
Proof.
  unfold Heap.read_list. destruct (h !! l) as [[ys| | |]|] eqn:Hl; try done.
  intros [= ->].
  destruct (deepcopy_attr_spec h l (Heap.OList xs) Hl I) as (l' & -> & Hfresh).
  exists l', (<[l':=Heap.OList xs]> h). split_and!; try done.
  - apply elem_of_dom. rewrite lookup_insert_eq. eauto.
  - by apply insert_fresh_subseteq.
  - by rewrite lookup_insert_eq.
Qed.

Lemma deepcopy_opt_star h l st :
  Heap.read_opt Heap.read_star h l = Some st →
  ∃ l' h', Heap.deepcopy_opt h l = Ok (l', h')
    ∧ (∀ x, l' = Some x → (x ∉ dom h) ∧ (x ∈ dom h')) ∧ (h ⊆ h')
    ∧ Heap.read_opt Heap.read_star h' l' = Some st.
Proof.
  destruct l as [l|]; simpl.
  - unfold Heap.read_star. destruct (h !! l) as [[| |s|]|] eqn:Hl; try done.
    intros [= <-].
    destruct (deepcopy_attr_spec h l (Heap.OStar s) Hl I) as (l' & -> & Hfresh).
    exists (Some l'), (<[l':=Heap.OStar s]> h). simpl. split_and!; try done.
    + intros x [= <-]. split; [done|].
      apply elem_of_dom. rewrite lookup_insert_eq. eauto.
    + by apply insert_fresh_subseteq.
    + by rewrite lookup_insert_eq.
  - intros [= <-]. exists None, h. by split_and!.
Qed.

Lemma deepcopy_opt_array h l v :
  Heap.read_opt Heap.read_array h l = Some v →
  ∃ l' h', Heap.deepcopy_opt h l = Ok (l', h')
    ∧ (∀ x, l' = Some x → (x ∉ dom h) ∧ (x ∈ dom h')) ∧ (h ⊆ h')
    ∧ Heap.read_opt Heap.read_array h' l' = Some v.
Proof.
  destruct l as [l|]; simpl.
  - unfold Heap.read_array. destruct (h !! l) as [[|a| |]|] eqn:Hl; try done.
    intros [= <-].
    destruct (deepcopy_attr_spec h l (Heap.OArray a) Hl I) as (l' & -> & Hfresh).
    exists (Some l'), (<[l':=Heap.OArray a]> h). simpl. split_and!; try done.
    + intros x [= <-]. split; [done|].
      apply elem_of_dom. rewrite lookup_insert_eq. eauto.
    + by apply insert_fresh_subseteq.
    + by rewrite lookup_insert_eq.
  - intros [= <-]. exists None, h. by split_and!.
Qed.


Lemma read_state_lookup h l v :
  Heap.read_state h l = Some v →
  ∃ al st dw,
    h !! l = Some (Heap.OState (qtheta1 v) (qv_own v) (qv_int v) al st dw (state_id v))
    ∧ Heap.read_list h al = Some (alpha_prev_list v)
    ∧ Heap.read_opt Heap.read_star h st = Some (star v)
    ∧ Heap.read_opt Heap.read_array h dw = Some (domain_witness v).
Proof.
  unfold Heap.read_state.
  destruct (h !! l) as [[| | |qt qo qi al st dw sid]|] eqn:Hl; try done.
  destruct (Heap.read_list h al) as [xs|] eqn:Hal; simpl; [|done].
  destruct (Heap.read_opt Heap.read_star h st) as [stv|] eqn:Hst; simpl; [|done].
  destruct (Heap.read_opt Heap.read_array h dw) as [dwv|] eqn:Hdw; simpl; [|done].
  intros [= <-]. simpl. by exists al, st, dw.
Qed.

Lemma read_state_intro h l qt qo qi al st dw sid xs stv dwv :
  h !! l = Some (Heap.OState qt qo qi al st dw sid) →
  Heap.read_list h al = Some xs →
  Heap.read_opt Heap.read_star h st = Some stv →
  Heap.read_opt Heap.read_array h dw = Some dwv →
  Heap.read_state h l = Some (mkState qt qo qi xs stv dwv sid).
Proof.
  intros Hl Hal Hst Hdw. unfold Heap.read_state. rewrite Hl, Hal. simpl.
  rewrite Hst. simpl. by rewrite Hdw.
Qed.

Lemma read_state_weaken h h' l v :
  h ⊆ h' → Heap.read_state h l = Some v → Heap.read_state h' l = Some v.
Proof.
  intros Hsub Hv. destruct (read_state_lookup _ _ _ Hv)
    as (al & st & dw & Hl & Hal & Hst & Hdw).
  destruct v as [qt qo qi xs stv dwv sid]. simpl in *.
  eapply read_state_intro.
  - by eapply lookup_weaken.
  - by eapply read_list_weaken.
  - eapply read_opt_weaken; [|done]. intros. by eapply read_star_weaken.
  - eapply read_opt_weaken; [|done]. intros. by eapply read_array_weaken.
Qed.

(** [Heap.deepcopy] of a state: a new state object over new copies of its
    three attributes, on top of a store that extends the old one. *)
Lemma deepcopy_state h self qt qo qi al st dw sid xs stv dwv :
  h !! self = Some (Heap.OState qt qo qi al st dw sid) →
  Heap.read_list h al = Some xs →
  Heap.read_opt Heap.read_star h st = Some stv →
  Heap.read_opt Heap.read_array h dw = Some dwv →
  ∃ rv al' st' dw' h1,
    Heap.deepcopy h self = Ok (rv, <[rv:=Heap.OState qt qo qi al' st' dw' sid]> h1)
    ∧ (h ⊆ h1) ∧ (rv ∉ dom h1)
    ∧ (al' ∉ dom h) ∧ (al' ∈ dom h1)
    ∧ (∀ x, st' = Some x → (x ∉ dom h) ∧ (x ∈ dom h1))
    ∧ (∀ x, dw' = Some x → (x ∉ dom h) ∧ (x ∈ dom h1))
    ∧ Heap.read_list h1 al' = Some xs
    ∧ Heap.read_opt Heap.read_star h1 st' = Some stv
    ∧ Heap.read_opt Heap.read_array h1 dw' = Some dwv.
Proof.
  intros Hself Hal Hst Hdw. unfold Heap.deepcopy. rewrite Hself.
  destruct (deepcopy_list h al xs Hal) as (al' & ha & -> & Hal1 & Hal2 & Hsa & Hral).
  simpl.
  assert (Hst_a : Heap.read_opt Heap.read_star ha st = Some stv).
  { eapply read_opt_weaken; [|done]. intros. by eapply read_star_weaken. }
  destruct (deepcopy_opt_star ha st stv Hst_a) as (st' & hb & -> & Hst1 & Hsb & Hrst).
  simpl.
  assert (Hdw_b : Heap.read_opt Heap.read_array hb dw = Some dwv).
  { eapply read_opt_weaken; [|done]. intros.
    eapply read_array_weaken; [|done]. by etrans. }
  destruct (deepcopy_opt_array hb dw dwv Hdw_b) as (dw' & hc & -> & Hdw1 & Hsc & Hrdw).
  simpl.
  destruct (alloc_spec hc (Heap.OState qt qo qi al' st' dw' sid)) as (rv & -> & Hrv).
  pose proof (subseteq_dom _ _ Hsa) as Hda.
  pose proof (subseteq_dom _ _ Hsb) as Hdb.
  pose proof (subseteq_dom _ _ Hsc) as Hdc.
  exists rv, al', st', dw', hc. split_and!; try done.
  - by do 2 (etrans; [|done]).
  - by apply Hdc, Hdb.
  - intros x Hx. destruct (Hst1 x Hx) as [Hn Hi]. split.
    + intros Hx'. by apply Hn, Hda.
    + by apply Hdc.
  - intros x Hx. destruct (Hdw1 x Hx) as [Hn Hi]. split; [|done].
    intros Hx'. by apply Hn, Hdb, Hda.
  - eapply read_list_weaken; [|done]. by etrans.
  - eapply read_opt_weaken; [|done]. intros. by eapply read_star_weaken.
Qed.


Lemma new_state_read h1 rv qt qo qi al st dw sid xs stv dwv :
  rv ∉ dom h1 →
  Heap.read_list h1 al = Some xs →
  Heap.read_opt Heap.read_star h1 st = Some stv →
  Heap.read_opt Heap.read_array h1 dw = Some dwv →
  Heap.read_state (<[rv:=Heap.OState qt qo qi al st dw sid]> h1) rv
  = Some (mkState qt qo qi xs stv dwv sid).
Proof.
  intros Hrv Hal Hst Hdw.
  pose proof (insert_fresh_subseteq h1 rv
                (Heap.OState qt qo qi al st dw sid) Hrv) as Hsub.
  eapply read_state_intro.
  - apply lookup_insert_eq.
  - by eapply read_list_weaken.
  - eapply read_opt_weaken; [|done]. intros. by eapply read_star_weaken.
  - eapply read_opt_weaken; [|done]. intros. by eapply read_array_weaken.
Qed.

Lemma footprint_new h1 rv qt qo qi al st dw sid :
  Heap.footprint (<[rv:=Heap.OState qt qo qi al st dw sid]> h1) rv
  = rv :: al :: option_list st ++ option_list dw.
Proof. unfold Heap.footprint. by rewrite lookup_insert_eq. Qed.

(** A deep copy of a state is a state of equal value none of whose
    objects existed before, and the store it was taken from is still
    there unchanged. *)
Lemma deepcopy_detached h self v :
  Heap.read_state h self = Some v →
  ∃ rv h',
    Heap.deepcopy h self = Ok (rv, h')
    ∧ Heap.read_state h' rv = Some v
    ∧ (∀ l, l ∈ Heap.footprint h' rv → l ∉ dom h)
    ∧ (∀ l, l ∈ dom h → h' !! l = h !! l).
Proof.
  intros Hv.
  destruct (read_state_lookup _ _ _ Hv) as (al & st & dw & Hl & Hal & Hst & Hdw).
  destruct (deepcopy_state h self _ _ _ _ _ _ _ _ _ _ Hl Hal Hst Hdw)
    as (rv & al' & st' & dw' & h1 & Hcopy & Hsub & Hrv & Hal1 & Hal2
        & Hst1 & Hdw1 & Hral & Hrst & Hrdw).
  eexists rv, _. split; [exact Hcopy|]. split_and!.
  - rewrite (new_state_read _ _ _ _ _ _ _ _ _ _ _ _ Hrv Hral Hrst Hrdw).
    by destruct v.
  - intros l. rewrite footprint_new.
    pose proof (subseteq_dom _ _ Hsub) as Hd.
    intros [->|[->|Hl']%elem_of_cons]%elem_of_cons.
    + intros Hx. by apply Hrv, Hd.
    + done.
    + apply elem_of_app in Hl' as [Hl'|Hl'].
      * destruct st' as [x|]; [|by apply elem_of_nil in Hl'].
        apply list_elem_of_singleton in Hl' as ->. by apply (Hst1 x).
      * destruct dw' as [x|]; [|by apply elem_of_nil in Hl'].
        apply list_elem_of_singleton in Hl' as ->. by apply (Hdw1 x).
  - intros l [o Ho]%elem_of_dom. rewrite Ho.
    rewrite lookup_insert_ne.
    + by eapply lookup_weaken.
    + intros ->. apply Hrv. apply elem_of_dom.
      eapply lookup_weaken in Ho; [|exact Hsub]. eauto.
Qed.


(** [copy] without a replacement polytope. *)
Lemma copy_None_store h self v nw n :
  Heap.read_state h self = Some v →
  ∃ rv h',
    Heap.copy h self None nw n = Ok ((rv, h'), n + 1)
    ∧ Heap.read_state h' rv = Some (set_state_id v n)
    ∧ (∀ l, l ∈ Heap.footprint h' rv → l ∉ dom h)
    ∧ (∀ l, l ∈ dom h → h' !! l = h !! l).
Proof.
  intros Hv.
  destruct (read_state_lookup _ _ _ Hv) as (al & st & dw & Hl & Hal & Hst & Hdw).
  destruct (deepcopy_state h self _ _ _ _ _ _ _ _ _ _ Hl Hal Hst Hdw)
    as (rv & al' & st' & dw' & h1 & Hcopy & Hsub & Hrv & Hal1 & Hal2
        & Hst1 & Hdw1 & Hral & Hrst & Hrdw).
  eexists rv, _. split.
  { unfold Heap.copy, bind, lift. rewrite Hcopy. simpl.
    unfold Heap.assign_state_id. rewrite lookup_insert_eq, insert_insert_eq.
    reflexivity. }
  split_and!.
  - rewrite (new_state_read _ _ _ _ _ _ _ _ _ _ _ _ Hrv Hral Hrst Hrdw).
    by destruct v.
  - intros l. rewrite footprint_new.
    pose proof (subseteq_dom _ _ Hsub) as Hd.
    intros [->|[->|Hl']%elem_of_cons]%elem_of_cons.
    + intros Hx. by apply Hrv, Hd.
    + done.
    + apply elem_of_app in Hl' as [Hl'|Hl'].
      * destruct st' as [x|]; [|by apply elem_of_nil in Hl'].
        apply list_elem_of_singleton in Hl' as ->. by apply (Hst1 x).
      * destruct dw' as [x|]; [|by apply elem_of_nil in Hl'].
        apply list_elem_of_singleton in Hl' as ->. by apply (Hdw1 x).
  - intros l [o Ho]%elem_of_dom. rewrite Ho.
    rewrite lookup_insert_ne.
    + by eapply lookup_weaken.
    + intros ->. apply Hrv. apply elem_of_dom.
      eapply lookup_weaken in Ho; [|exact Hsub]. eauto.
Qed.

(** [copy] with a replacement polytope and a witness, both objects of
    the store. *)
Lemma copy_Some_store h self v ns nw (st' : Star Dom) (w : Vec) n :
  Heap.read_state h self = Some v →
  Heap.read_star h ns = Some st' →
  Heap.read_array h nw = Some w →
  ∃ rv al' h',
    Heap.copy h self (Some ns) (Some nw) n = Ok ((rv, h'), n + 1)
    ∧ h' !! rv = Some (Heap.OState (qtheta1 v) (qv_own v) (qv_int v) al'
                         (Some ns) (Some nw) n)
    ∧ Heap.read_list h' al' = Some (alpha_prev_list v)
    ∧ (rv ∉ dom h) ∧ (al' ∉ dom h)
    ∧ (∀ l, l ∈ dom h → h' !! l = h !! l).
Proof.
  intros Hv Hns Hnw.
  destruct (read_state_lookup _ _ _ Hv) as (al & st & dw & Hl & Hal & Hst & Hdw).
  set (o0 := Heap.OState (qtheta1 v) (qv_own v) (qv_int v) al None dw
               (state_id v)).
  set (ha := <[self:=o0]> h).
  assert (Hdom : dom ha = dom h) by (apply dom_insert_lookup_L; eauto).
  assert (Hal_ne : al ≠ self).
  { intros ->. unfold Heap.read_list in Hal. by rewrite Hl in Hal. }
  assert (Hal_a : Heap.read_list ha al = Some (alpha_prev_list v)).
  { unfold Heap.read_list, ha. by rewrite lookup_insert_ne. }
  assert (Hdw_a : Heap.read_opt Heap.read_array ha dw = Some (domain_witness v)).
  { destruct dw as [d|]; [|done]. simpl in *. unfold Heap.read_array, ha in *.
    rewrite lookup_insert_ne; [done|]. intros <-. by rewrite Hl in Hdw. }
  destruct (deepcopy_state ha self _ _ _ _ None _ _ _ None _
              (lookup_insert_eq _ _ _) Hal_a eq_refl Hdw_a)
    as (rv & al' & st1 & dw' & h1 & Hcopy & Hsub & Hrv & Hal1 & Hal2
        & Hst1 & Hdw1 & Hral & Hrst & Hrdw).
  assert (st1 = None) as ->.
  { destruct st1; [|done]. simpl in Hrst. by destruct (Heap.read_star h1 l). }
  assert (Hself1 : h1 !! self = Some o0).
  { eapply lookup_weaken; [|exact Hsub]. apply lookup_insert_eq. }
  assert (Hne : rv ≠ self).
  { intros ->. apply Hrv, elem_of_dom. eauto. }
  eexists rv, al', _. split.
  { unfold Heap.copy, bind, lift. simpl.
    unfold Heap.getattr_star, Heap.setattr_star. rewrite Hl. simpl.
    fold o0. fold ha. rewrite Hcopy. simpl.
    unfold Heap.assign_state_id. rewrite lookup_insert_eq, insert_insert_eq.
    simpl. unfold Heap.setattr_star. rewrite lookup_insert_eq, insert_insert_eq.
    simpl. unfold Heap.setattr_domain_witness.
    rewrite lookup_insert_eq, insert_insert_eq. simpl.
    rewrite lookup_insert_ne by done. rewrite Hself1. unfold o0.
    reflexivity. }
  rewrite <- Hdom.
  assert (Hrv_a : rv ∉ dom ha).
  { intros Hx. by apply Hrv, (subseteq_dom _ _ Hsub). }
  split_and!; try done.
  - rewrite lookup_insert_ne by done. apply lookup_insert_eq.
  - unfold Heap.read_list. rewrite !lookup_insert_ne.
    + exact Hral.
    + intros ->. by apply Hrv.
    + intros <-. apply Hal1. rewrite Hdom. apply elem_of_dom. eauto.
  - intros l Hl'. destruct (decide (l = self)) as [->|Hls].
    + rewrite lookup_insert_eq. rewrite Hl. by destruct v.
    + rewrite !lookup_insert_ne; [|by intros ->|done].
      rewrite Hdom in Hl'. apply elem_of_dom in Hl' as [o Ho]. rewrite Ho.
      eapply lookup_weaken; [|exact Hsub]. unfold ha.
      by rewrite lookup_insert_ne.
Qed.


Lemma read_frame {A} (rd : gmap Heap.loc Heap.obj → Heap.loc → option A)
    h h' :
  (∀ h1 h2 l, h2 !! l = h1 !! l → rd h2 l = rd h1 l) →
  (∀ h1 l a, rd h1 l = Some a → l ∈ dom h1) →
  (∀ l, l ∈ dom h → h' !! l = h !! l) →
  ∀ l a, Heap.read_opt rd h l = Some a → Heap.read_opt rd h' l = Some a.
Proof.
  intros Hlocal Hdom Hframe [l|] a; simpl; [|done].
  destruct (rd h l) as [x|] eqn:Hx; [|done].
  by rewrite (Hlocal h h' l (Hframe l (Hdom _ _ _ Hx))), Hx.
Qed.

Lemma read_list_dom h l xs : Heap.read_list h l = Some xs → l ∈ dom h.
Proof.
  unfold Heap.read_list. destruct (h !! l) eqn:Hl; [|done].
  intros _. apply elem_of_dom. eauto.
Qed.
Lemma read_star_dom h l st : Heap.read_star h l = Some st → l ∈ dom h.
Proof.
  unfold Heap.read_star. destruct (h !! l) eqn:Hl; [|done].
  intros _. apply elem_of_dom. eauto.
Qed.
Lemma read_array_dom h l v : Heap.read_array h l = Some v → l ∈ dom h.
Proof.
  unfold Heap.read_array. destruct (h !! l) eqn:Hl; [|done].
  intros _. apply elem_of_dom. eauto.
Qed.

(** A state all of whose objects are left as they were reads back the
    same. *)
Lemma read_state_frame h h' l v :
  (∀ l, l ∈ dom h → h' !! l = h !! l) →
  Heap.read_state h l = Some v → Heap.read_state h' l = Some v.
Proof.
  intros Hframe Hv.
  destruct (read_state_lookup _ _ _ Hv) as (al & st & dw & Hl & Hal & Hst & Hdw).
  destruct v as [qt qo qi xs stv dwv sid]. simpl in *.
  eapply read_state_intro.
  - rewrite Hframe; [done|]. apply elem_of_dom. eauto.
  - unfold Heap.read_list. rewrite Hframe; [done|]. by eapply read_list_dom.
  - eapply (read_frame Heap.read_star h h'); try done.
    + intros h1 h2 l' Heq. unfold Heap.read_star. by rewrite Heq.
    + intros. by eapply read_star_dom.
  - eapply (read_frame Heap.read_array h h'); try done.
    + intros h1 h2 l' Heq. unfold Heap.read_array. by rewrite Heq.
    + intros. by eapply read_array_dom.
Qed.

(** C9. [copy] takes a replacement polytope together with its witness,
    or neither. On a state [self] of the store, whose value is [v], with
    the class counter at [n]:
    - without a replacement polytope (a witness argument is then
      ignored) it returns a new state with identifier [n], equal to [v]
      in everything else; the state object and the objects holding its
      command history, its polytope and its witness are all new, none of
      them existed in the store before;
    - with a replacement polytope and a witness it returns a new state
      with identifier [n], whose command history is a new list equal to
      that of [v], whose quantization levels are those of [v], and whose
      polytope and witness attributes are the two objects supplied.
    In both cases the counter moves to [n + 1], and every object that
    existed before the call, the source state and its attributes among
    them, holds what it held. The value-level [copy] used by the search
    returns the values these states read back as. *)
Theorem copy_spec h self (v : State) n :
  Heap.read_state h self = Some v →
  (∀ nw, ∃ rv h',
     Heap.copy h self None nw n = Ok ((rv, h'), n + 1)
     ∧ Heap.read_state h' rv = Some (set_state_id v n)
     ∧ (∀ l, l ∈ Heap.footprint h' rv → l ∉ dom h)
     ∧ (∀ l, l ∈ dom h → h' !! l = h !! l)
     ∧ Heap.read_state h' self = Some v
     ∧ ∀ w, copy v None w n = Ok ((v, set_state_id v n), n + 1))
  ∧ (∀ ns nw (st' : Star Dom) (w : Vec),
       Heap.read_star h ns = Some st' →
       Heap.read_array h nw = Some w →
       ∃ rv al' h',
         Heap.copy h self (Some ns) (Some nw) n = Ok ((rv, h'), n + 1)
         ∧ h' !! rv = Some (Heap.OState (qtheta1 v) (qv_own v) (qv_int v) al'
                              (Some ns) (Some nw) n)
         ∧ Heap.read_list h' al' = Some (alpha_prev_list v)
         ∧ (rv ∉ dom h) ∧ (al' ∉ dom h)
         ∧ (∀ l, l ∈ dom h → h' !! l = h !! l)
         ∧ Heap.read_state h' self = Some v
         ∧ Heap.read_state h' rv
           = Some (mkState (qtheta1 v) (qv_own v) (qv_int v)
                     (alpha_prev_list v) (Some st') (Some w) n)
         ∧ copy v (Some st') (Some w) n
           = Ok ((v, mkState (qtheta1 v) (qv_own v) (qv_int v)
                       (alpha_prev_list v) (Some st') (Some w) n), n + 1)).
Proof.
  intros Hv. split.
  - intros nw.
    destruct (copy_None_store h self v nw n Hv) as (rv & h' & Hc & Hr & Hf & Hfr).
    exists rv, h'. split_and!; try done.
    by eapply read_state_frame.
  - intros ns nw st' w Hns Hnw.
    destruct (copy_Some_store h self v ns nw st' w n Hv Hns Hnw)
      as (rv & al' & h' & Hc & Hrv & Hal & Hn1 & Hn2 & Hfr).
    exists rv, al', h'. split_and!; try done.
    + by eapply read_state_frame.
    + eapply read_state_intro; [done..| |]; simpl.
      * unfold Heap.read_star in *.
        rewrite Hfr by (by eapply read_star_dom). by rewrite Hns.
      * unfold Heap.read_array in *.
        rewrite Hfr by (by eapply read_array_dom). by rewrite Hnw.
    + apply copy_Some.
Qed.

End StoreFacts.
End HeapFacts.

(** ** The search *)

Section SeparationFacts.

Lemma Qlt_bool_iff (a b : Q) : Qlt_bool a b = true ↔ (a < b)%Q.
Proof.
  unfold Qlt_bool. rewrite negb_true_iff. split.
  - intros H. apply Qnot_le_lt. intros Hle. apply Qle_bool_iff in Hle. congruence.
  - intros H. destruct (Qle_bool b a) eqn:E; [|done].
    apply Qle_bool_iff in E. lra.
Qed.

(** The driver compares squares; that is the comparison of the distance
    itself. *)
Lemma squares_test (d : Q) :
  (0 <= d)%Q → Qlt_bool (10000 ^ 2) d = true ↔ (10000 < sqrt (Q2R d))%R.
Proof.
  intros Hd. rewrite Qlt_bool_iff.
  assert (H0 : (0 <= Q2R d)%R).
  { replace 0%R with (Q2R 0) by Lra.lra. by apply Qle_Rle. }
  assert (Hsq : Q2R (10000 ^ 2) = (10000 * 10000)%R).
  { change (10000 ^ 2)%Q with (100000000 # 1)%Q. unfold Q2R. simpl.
    rewrite Rinv_1. Lra.lra. }
  assert (Hroot : sqrt (10000 * 10000) = 10000%R).
  { apply sqrt_square. Lra.lra. }
  split.
  - intros H. apply Qlt_Rlt in H. rewrite Hsq in H.
    rewrite <- Hroot. apply sqrt_lt_1; [Lra.lra|done|done].
  - intros H. apply Rlt_Qlt. rewrite Hsq.
    rewrite <- Hroot in H. apply sqrt_lt_0 in H; [done|Lra.lra|done].
Qed.

Lemma sum_squares_nonneg (a b : Q) : (0 <= a ^ 2 + b ^ 2)%Q.
Proof.
  assert (H : ∀ x : Q, (0 <= x ^ 2)%Q).
  { intros x. change (x ^ 2)%Q with (x * x)%Q. nra. }
  pose proof (H a). pose proof (H b). lra.
Qed.

End SeparationFacts.

Section SearchFacts.
Context `{P : Providers}.
Local Abbreviation State := (State Dom).

Lemma two_clear_index (p : State) :
  two_clear p
  ↔ py_index (alpha_prev_list p) (-2) = Ok 0
    ∧ py_index (alpha_prev_list p) (-1) = Ok 0.
Proof.
  unfold two_clear. split.
  - intros (l & ->). split; [apply py_index_snoc2|].
    change [0; 0] with ([0] ++ [0]). rewrite app_assoc. apply py_index_snoc_last.
  - intros [H2 H1].
    destruct (alpha_prev_list p) as [|x l _] using rev_ind; [done|].
    destruct l as [|y l _] using rev_ind.
    { change (-2) with (Z.opp 2) in H2.
      rewrite py_index_neg_out in H2; [done|simpl; lia|lia]. }
    rewrite <- app_assoc in H2, H1. simpl in H2, H1.
    rewrite py_index_snoc2 in H2. injection H2 as ->.
    change [0; x] with ([0] ++ [x]) in H1. rewrite app_assoc in H1.
    rewrite py_index_snoc_last in H1. injection H1 as ->.
    exists l. by rewrite <- app_assoc.
Qed.

Lemma np_getitem_Ok (v : Vec) (i : nat) x :
  np_getitem v i = Ok x ↔ v !! i = Some x.
Proof. unfold np_getitem. destruct (v !! i); split; congruence. Qed.

(** The test of the driver, spelled out. *)
Lemma is_counterexample_true (p : State) :
  is_counterexample p = Ok true ↔ two_clear p ∧ far_apart p.
Proof.
  rewrite two_clear_index. unfold far_apart, separation. split.
  - intros H. unfold is_counterexample in H.
    apply obind_Ok_inv in H as (a2 & Ha2 & H).
    apply obind_Ok_inv in H as (both & Hboth & H).
    destruct both; [|done].
    destruct (Z.eqb_spec a2 0) as [->|]; [|done].
    apply obind_Ok_inv in Hboth as (a1 & Ha1 & Hboth).
    injection Hboth as Hboth. apply Z.eqb_eq in Hboth as ->.
    split; [done|].
    apply obind_Ok_inv in H as (w & Hw & H).
    apply obind_Ok_inv in H as (st & Hst & H).
    apply obind_Ok_inv in H as (xi & Hxi & H).
    apply obind_Ok_inv in H as (xo & Hxo & H).
    apply obind_Ok_inv in H as (yo & Hyo & H).
    injection H as H.
    destruct (domain_witness p) as [w'|]; [injection Hw as ->|done].
    unfold get_star in Hst. destruct (star p) as [st'|]; [injection Hst as ->|done].
    apply np_getitem_Ok in Hxi, Hxo, Hyo.
    exists w, st. split_and!; try done; try by eapply lookup_lt_Some.
    apply squares_test; [apply sum_squares_nonneg|].
    unfold dx_of, dy_of, coord. by rewrite Hxi, Hxo, Hyo.
  - intros [[H2 H1] (w & st & Hw & Hst & Hi & Ho & Hy & Hsep)].
    apply lookup_lt_is_Some in Hi as [xi Hxi], Ho as [xo Hxo], Hy as [yo Hyo].
    apply squares_test in Hsep; [|apply sum_squares_nonneg].
    unfold dx_of, dy_of, coord in Hsep. rewrite Hxi, Hxo, Hyo in Hsep.
    simpl in Hsep.
    unfold is_counterexample. rewrite H2. simpl. rewrite H1. simpl.
    rewrite Hw. simpl. unfold get_star. rewrite Hst. simpl.
    apply np_getitem_Ok in Hxi, Hxo, Hyo. rewrite Hxi, Hxo, Hyo. simpl.
    by rewrite Hsep.
Qed.

(** Once a counterexample is recorded the loop is over, whatever is left
    on the frontier. *)
Lemma search_loop_found fuel (st : Search) (c : State) n :
  found st = Some c → search_loop fuel st n = Ok (st, n).
Proof.
  intros Hc. destruct fuel; simpl; rewrite Hc; by destruct (py_pop (work st)) as [[? ?]|].
Qed.

Lemma search_loop_step fuel (st : Search) s w n :
  py_pop (work st) = Some (s, w) → found st = None →
  search_loop (S fuel) st n
  = (st' <- search_step s w (popped st) (deadends st) ;; search_loop fuel st') n.
Proof. intros Hp Hf. simpl. by rewrite Hp, Hf. Qed.

Lemma search_step_inv (s : State) w k d st n n' :
  search_step s w k d n = Ok (st, n') →
  ∃ s' preds w' f,
    get_predecessors s n = Ok ((s', preds), n')
    ∧ scan_predecessors preds w = Ok (w', f)
    ∧ st = mkSearch w' (k + 1)
             (match preds with
              | [] => {[ alpha_prev_list s' ]} ∪ d
              | _ => d
              end) f.
Proof.
  intros H. unfold search_step in H.
  apply bind_Ok_inv in H as ([s' preds] & n1 & Hget & H).
  apply bind_Ok_inv in H as ([w' f] & n2 & Hscan & H).
  apply lift_Ok_inv in Hscan as [Hscan ->].
  injection H as <- <-. by exists s', preds, w', f.
Qed.

Lemma search_step_Ok (s s' : State) preds w w' f k d n n' :
  get_predecessors s n = Ok ((s', preds), n') →
  scan_predecessors preds w = Ok (w', f) →
  search_step s w k d n
  = Ok (mkSearch w' (k + 1)
          (match preds with
           | [] => {[ alpha_prev_list s' ]} ∪ d
           | _ => d
           end) f, n').
Proof.
  intros Hget Hscan. unfold search_step.
  rewrite (bind_Ok _ _ _ _ _ Hget). cbv beta iota.
  by rewrite (bind_Ok _ _ _ _ _ (lift_Ok _ _ n' Hscan)).
Qed.

(** What is recorded passed the test. *)
Lemma search_loop_nopop fuel (st : Search) n :
  py_pop (work st) = None → search_loop fuel st n = Ok (st, n).
Proof. intros Hp. destruct fuel; simpl; by rewrite Hp. Qed.

Lemma search_loop_out_of_fuel (st : Search) s w n :
  py_pop (work st) = Some (s, w) → found st = None →
  search_loop 0 st n = OutOfFuel.
Proof. intros Hp Hf. simpl. by rewrite Hp, Hf. Qed.

(** What is recorded passed the test. *)
Lemma search_loop_found_tested fuel (st st' : Search) n n' :
  (∀ c, found st = Some c → is_counterexample c = Ok true) →
  search_loop fuel st n = Ok (st', n') →
  ∀ c, found st' = Some c → is_counterexample c = Ok true.
Proof.
  revert st n. induction fuel as [|fuel IH]; intros st n Hinv.
  - destruct (found st) as [c0|] eqn:Hf.
    { rewrite (search_loop_found _ _ c0) by done. intros [= <- <-].
      by rewrite Hf. }
    destruct (py_pop (work st)) as [[s w]|] eqn:Hpop.
    + by rewrite (search_loop_out_of_fuel _ s w).
    + rewrite search_loop_nopop by done. intros [= <- <-]. by rewrite Hf.
  - destruct (found st) as [c0|] eqn:Hf.
    { rewrite (search_loop_found _ _ c0) by done. intros [= <- <-].
      by rewrite Hf. }
    destruct (py_pop (work st)) as [[s w]|] eqn:Hpop.
    + rewrite (search_loop_step _ _ s w) by done.
      intros H. apply bind_Ok_inv in H as (st1 & n1 & Hstep & H).
      eapply IH; [|exact H].
      apply search_step_inv in Hstep as (s' & preds & w' & f & _ & Hscan & ->).
      simpl. intros c ->.
      by destruct (scan_predecessors_inv _ _ _ _ Hscan) as [(? & _)|
        (l1 & q & l2 & _ & [= <-] & _ & _ & Hq)].
    + rewrite search_loop_nopop by done. intros [= <- <-]. by rewrite Hf.
Qed.


(** C2. A predecessor passes the test of the driver exactly when its two
    most recent commands are both 0 and the Euclidean distance between
    the two aircraft at its witness point, in range coordinates, exceeds
    10000. The loop over the predecessors records the first predecessor
    that passes, having pushed it and the ones before it, and none of the
    ones after it, on the frontier; it records nothing exactly when none
    passes. Once something is recorded the search loop returns at once,
    with whatever frontier is left, so the result of the driver carries a
    state only if that state passed the test. What is recorded is a deep
    copy: an equal state, none of whose objects existed in the store
    before, taken without changing the store. *)
Theorem counterexample_detection :
  (∀ p : State, is_counterexample p = Ok true ↔ two_clear p ∧ far_apart p)
  ∧ (∀ (preds work work' : list State) c,
       scan_predecessors preds work = Ok (work', Some c)
       ↔ ∃ l1 l2, preds = l1 ++ c :: l2
           ∧ (∀ x, x ∈ l1 → is_counterexample x = Ok false)
           ∧ is_counterexample c = Ok true
           ∧ work' = work ++ l1 ++ [c])
  ∧ (∀ (preds work work' : list State),
       scan_predecessors preds work = Ok (work', None)
       ↔ (∀ p, p ∈ preds → is_counterexample p = Ok false)
         ∧ work' = work ++ preds)
  ∧ (∀ fuel (st : Search) c n,
       found st = Some c → search_loop fuel st n = Ok (st, n))
  ∧ (∀ fuel (st : Search) s w s' l1 c l2 n n',
       py_pop (work st) = Some (s, w) → found st = None →
       get_predecessors s n = Ok ((s', l1 ++ c :: l2), n') →
       (∀ x, x ∈ l1 → is_counterexample x = Ok false) →
       is_counterexample c = Ok true →
       search_loop (S fuel) st n
       = Ok (mkSearch (w ++ l1 ++ [c]) (popped st + 1) (deadends st) (Some c),
             n'))
  ∧ (∀ fuel task t0 t1 arg parallel n res n',
       backreach_single fuel task t0 t1 arg parallel n = Ok (res, n') →
       ∀ c, counterexample res = Some c → is_counterexample c = Ok true)
  ∧ (∀ (p : State), deepcopy p = p)
  ∧ (∀ h l (p : State),
       Heap.read_state h l = Some p →
       ∃ l' h', Heap.deepcopy h l = Ok (l', h')
         ∧ Heap.read_state h' l' = Some p
         ∧ (∀ x, x ∈ Heap.footprint h' l' → x ∉ dom h)
         ∧ (∀ x, x ∈ dom h → h' !! x = h !! x)).
Proof.
  split_and!.
  - apply is_counterexample_true.
  - intros preds work work' c. split.
    + intros H. destruct (scan_predecessors_inv _ _ _ _ H) as [(? & _)|
        (l1 & q & l2 & -> & [= <-] & -> & Hall & Hq)]; [done|].
      by exists l1, l2.
    + intros (l1 & l2 & -> & Hall & Hc & ->). by apply scan_predecessors_hit.
  - intros preds work work'. split.
    + intros H. by destruct (scan_predecessors_inv _ _ _ _ H) as [(_ & -> & Hall)|
        (l1 & q & l2 & _ & ? & _)].
    + intros [Hall ->]. by apply scan_predecessors_none.
  - apply search_loop_found.
  - intros fuel st s w s' l1 c l2 n n' Hpop Hf Hget Hall Hc.
    rewrite (search_loop_step _ _ s w) by done.
    rewrite (bind_Ok _ _ _ _ _
      (search_step_Ok _ _ _ _ _ _ _ _ _ _ Hget
         (scan_predecessors_hit l1 l2 w c Hall Hc))).
    rewrite (search_loop_found _ _ c) by done.
    by destruct l1.
  - intros fuel task t0 t1 arg parallel n res n' H c Hc.
    unfold backreach_single in H.
    apply bind_Ok_inv in H as ([idx prm] & n0 & _ & H).
    destruct prm as [[[[[a x_own] y_own] qt] qo] qi].
    destruct (init_to_constraints x_own y_own qo qi qt) as [[box am] bv].
    apply bind_Ok_inv in H as (init_s & n1 & _ & H).
    apply bind_Ok_inv in H as (st & n2 & Hloop & H).
    injection H as <- <-. simpl in Hc.
    eapply search_loop_found_tested; [|exact Hloop|exact Hc].
    by intros c0 [=].
  - done.
  - intros h l p. apply HeapFacts.deepcopy_detached.
Qed.

End SearchFacts.

(** ** Two runs of the search *)

Section OutcomeRel.

Lemma outcome_rel_impl {A B} (R R' : A → B → Prop) o1 o2 :
  (∀ a b, R a b → R' a b) → outcome_rel R o1 o2 → outcome_rel R' o1 o2.
Proof. intros HR. destruct o1, o2; simpl; auto. Qed.

Lemma obind_rel {A1 A2 B1 B2} (R : A1 → A2 → Prop) (R' : B1 → B2 → Prop)
    (m1 : outcome A1) (m2 : outcome A2) k1 k2 :
  outcome_rel R m1 m2 →
  (∀ a b, R a b → outcome_rel R' (k1 a) (k2 b)) →
  outcome_rel R' (obind m1 k1) (obind m2 k2).
Proof. intros Hm Hk. destruct m1, m2; simpl in *; try done. by apply Hk. Qed.

Lemma bind_rel {A1 A2 B1 B2} (R : A1 → A2 → Prop) (R' : B1 * Z → B2 * Z → Prop)
    (m1 : M A1) (m2 : M A2) k1 k2 n1 n2 :
  outcome_rel (λ x y, R x.1 y.1) (m1 n1) (m2 n2) →
  (∀ a b n1' n2', R a b → outcome_rel R' (k1 a n1') (k2 b n2')) →
  outcome_rel R' (bind m1 k1 n1) (bind m2 k2 n2).
Proof.
  intros Hm Hk. unfold bind.
  destruct (m1 n1) as [[a n1']| |], (m2 n2) as [[b n2']| |]; simpl in *;
    try done. by apply Hk.
Qed.

Lemma lift_rel {A1 A2} (R : A1 → A2 → Prop) (o1 : outcome A1)
    (o2 : outcome A2) n1 n2 :
  outcome_rel R o1 o2 →
  outcome_rel (λ x y, R x.1 y.1) (lift o1 n1) (lift o2 n2).
Proof. intros H. by destruct o1, o2. Qed.

Lemma outcome_rel_eq {A} (o : outcome A) : outcome_rel eq o o.
Proof. by destruct o. Qed.

End OutcomeRel.

Section Determinism.
Context `{P : Providers}.
Local Abbreviation State := (State Dom).

(** [get_predecessors] in one equation. *)
Lemma get_predecessors_eq (self : State) n :
  get_predecessors self n
  = (_ <~ get_dx_dy_qrange self ;;
     s' <~ backstep self false (-1) ;;
     r <~ get_dx_dy_qrange s' ;;
     st' <~ get_star s' ;;
     cur <~ py_index (alpha_prev_list s') (-1) ;;
     let ps := all_predecessors s' st' cur (cell_grid r.1 r.2) (py_range 0 5) n in
     Ok ((s', ps), n + Z.of_nat (length ps))).
Proof.
  unfold get_predecessors, bind, lift.
  destruct (get_dx_dy_qrange self) as [r0| |]; simpl; [|done..].
  destruct (backstep self false (-1)) as [s'| |] eqn:Hb; simpl; [|done..].
  destruct (get_dx_dy_qrange s') as [[dxr dyr]| |]; simpl; [|done..].
  destruct (backstep_inv _ _ _ _ Hb) as (cmd & st & delta & Hcmd & _ & _ & _ & Hs').
  assert (Hst' : ∃ st', star s' = Some st') by (subst s'; simpl; eauto).
  destruct Hst' as [st' Hst'].
  assert (Hcur : py_index (alpha_prev_list s') (-1) = Ok cmd) by (by subst s').
  unfold get_star. rewrite Hst', Hcur. simpl.
  destruct (candidates_loop s' st' cmd dxr dyr (py_range 0 5) [] n Hst' Hcur)
    as (n' & Hloop & ->).
  exact Hloop.
Qed.

Lemma erase_id_fields (s1 s2 : State) :
  erase_id s1 = erase_id s2 ↔
  qtheta1 s1 = qtheta1 s2 ∧ qv_own s1 = qv_own s2 ∧ qv_int s1 = qv_int s2
  ∧ alpha_prev_list s1 = alpha_prev_list s2 ∧ star s1 = star s2
  ∧ domain_witness s1 = domain_witness s2.
Proof.
  destruct s1, s2. unfold erase_id, set_state_id. simpl. split.
  - by intros [= -> -> -> -> -> ->].
  - by intros (-> & -> & -> & -> & -> & ->).
Qed.

Lemma get_dx_dy_qrange_erase (s1 s2 : State) :
  erase_id s1 = erase_id s2 → get_dx_dy_qrange s1 = get_dx_dy_qrange s2.
Proof.
  intros (_ & _ & _ & _ & Hst & _)%erase_id_fields.
  unfold get_dx_dy_qrange, get_star. by rewrite Hst.
Qed.

Lemma backstep_erase (s1 s2 : State) forward fa :
  erase_id s1 = erase_id s2 →
  outcome_rel (λ a b, erase_id a = erase_id b)
    (backstep s1 forward fa) (backstep s2 forward fa).
Proof.
  intros (Hqt & Hqo & Hqi & Hal & Hst & Hdw)%erase_id_fields.
  unfold backstep. rewrite Hal.
  eapply obind_rel; [apply outcome_rel_eq|]. intros cmd _ <-.
  eapply obind_rel; [apply outcome_rel_eq|]. intros u _ <-.
  unfold get_star. rewrite Hst.
  eapply obind_rel; [apply outcome_rel_eq|]. intros st _ <-.
  eapply obind_rel; [apply outcome_rel_eq|]. intros delta _ <-.
  simpl. apply erase_id_fields.
  destruct forward; simpl; split_and!; congruence.
Qed.

Lemma is_counterexample_erase (s1 s2 : State) :
  erase_id s1 = erase_id s2 → is_counterexample s1 = is_counterexample s2.
Proof.
  intros (_ & _ & _ & Hal & Hst & Hdw)%erase_id_fields.
  unfold is_counterexample, get_star. by rewrite Hal, Hst, Hdw.
Qed.

Lemma predecessor_erase (s1 s2 : State) st prev_cmd r id1 id2 :
  erase_id s1 = erase_id s2 →
  erase_id (predecessor s1 st prev_cmd r id1)
  = erase_id (predecessor s2 st prev_cmd r id2).
Proof.
  intros (Hqt & Hqo & Hqi & Hal & Hst & Hdw)%erase_id_fields.
  apply erase_id_fields. destruct r; simpl; split_and!; congruence.
Qed.

Lemma numbered_erase (s1 s2 : State) st prev_cmd rs n1 n2 :
  erase_id s1 = erase_id s2 →
  erase_id <$> numbered s1 st prev_cmd rs n1
  = erase_id <$> numbered s2 st prev_cmd rs n2.
Proof.
  intros He. revert n1 n2. induction rs as [|r rs IH]; intros n1 n2; [done|].
  simpl. f_equal; [by apply predecessor_erase|apply IH].
Qed.

Lemma all_predecessors_erase (s1 s2 : State) st cur grid cmds n1 n2 :
  erase_id s1 = erase_id s2 →
  erase_id <$> all_predecessors s1 st cur grid cmds n1
  = erase_id <$> all_predecessors s2 st cur grid cmds n2.
Proof.
  intros He. pose proof He as (Hqt & Hqo & Hqi & _)%erase_id_fields.
  revert n1 n2. induction cmds as [|c cmds IH]; intros n1 n2; [done|].
  simpl. rewrite !fmap_app, Hqt, Hqo, Hqi. f_equal.
  - by apply numbered_erase.
  - apply IH.
Qed.

(** Two calls of [get_predecessors] on states that differ in their
    identifier only, with any two values of the counter, end the same way
    and return the same up to identifiers. *)
Lemma get_predecessors_erase (s1 s2 : State) n1 n2 :
  erase_id s1 = erase_id s2 →
  outcome_rel (λ x y, erase_id x.1.1 = erase_id y.1.1
                      ∧ erase_id <$> x.1.2 = erase_id <$> y.1.2)
    (get_predecessors s1 n1) (get_predecessors s2 n2).
Proof.
  intros He. rewrite !get_predecessors_eq.
  rewrite (get_dx_dy_qrange_erase s1 s2 He).
  eapply obind_rel; [apply outcome_rel_eq|]. intros r0 _ <-.
  eapply obind_rel; [by apply backstep_erase|]. intros a b Hab.
  rewrite (get_dx_dy_qrange_erase a b Hab).
  eapply obind_rel; [apply outcome_rel_eq|]. intros r _ <-.
  pose proof Hab as (_ & _ & _ & Hal & Hst & _)%erase_id_fields.
  unfold get_star. rewrite Hst, Hal.
  eapply obind_rel; [apply outcome_rel_eq|]. intros st' _ <-.
  eapply obind_rel; [apply outcome_rel_eq|]. intros cur _ <-.
  cbv zeta. unfold outcome_rel. cbn [fst snd].
  split; [done|]. by apply all_predecessors_erase.
Qed.


Lemma scan_predecessors_erase (preds1 preds2 w1 w2 : list State) :
  erase_id <$> preds1 = erase_id <$> preds2 →
  erase_id <$> w1 = erase_id <$> w2 →
  outcome_rel (λ x y, erase_id <$> x.1 = erase_id <$> y.1
                      ∧ erase_id <$> x.2 = erase_id <$> y.2)
    (scan_predecessors preds1 w1) (scan_predecessors preds2 w2).
Proof.
  revert preds2 w1 w2.
  induction preds1 as [|p1 preds1 IH]; intros [|p2 preds2] w1 w2 Hp Hw;
    try done.
  rewrite !fmap_cons in Hp.
  assert (Hp1 : erase_id p1 = erase_id p2) by congruence.
  assert (Hp' : erase_id <$> preds1 = erase_id <$> preds2) by congruence.
  cbn [scan_predecessors]. rewrite (is_counterexample_erase p1 p2 Hp1).
  assert (Hw' : erase_id <$> w1 ++ [p1] = erase_id <$> w2 ++ [p2])
    by (rewrite !fmap_app; simpl; congruence).
  destruct (is_counterexample p2) as [[|]| |]; simpl; try done.
  - split; [done|]. unfold deepcopy. by rewrite Hp1.
  - by apply IH.
Qed.

Lemma py_pop_erase (l1 l2 : list State) :
  erase_id <$> l1 = erase_id <$> l2 →
  match py_pop l1, py_pop l2 with
  | Some (s1, r1), Some (s2, r2) =>
      erase_id s1 = erase_id s2 ∧ erase_id <$> r1 = erase_id <$> r2
  | None, None => True
  | _, _ => False
  end.
Proof.
  intros H.
  destruct l1 as [|s1 l1 _] using rev_ind; destruct l2 as [|s2 l2 _] using rev_ind.
  - done.
  - rewrite fmap_app in H. simpl in H. by destruct (erase_id <$> l2).
  - rewrite fmap_app in H. simpl in H. by destruct (erase_id <$> l1).
  - rewrite !py_pop_snoc. rewrite !fmap_app in H. simpl in H.
    apply app_inj_tail in H as [H1 H2]. split; [congruence|done].
Qed.

Lemma search_step_erase (s1 s2 : State) w1 w2 k d n1 n2 :
  erase_id s1 = erase_id s2 →
  erase_id <$> w1 = erase_id <$> w2 →
  outcome_rel (λ x y, same_search x.1 y.1)
    (search_step s1 w1 k d n1) (search_step s2 w2 k d n2).
Proof.
  intros Hs Hw. unfold search_step.
  eapply (bind_rel (λ x y : State * list State,
                      erase_id x.1 = erase_id y.1
                      ∧ erase_id <$> x.2 = erase_id <$> y.2));
    [apply (get_predecessors_erase s1 s2 n1 n2 Hs)|].
  intros [a ps] [b qs] m1 m2 [Hab Hps]. simpl in Hab, Hps.
  eapply (bind_rel (λ x y : list State * option State,
                      erase_id <$> x.1 = erase_id <$> y.1
                      ∧ erase_id <$> x.2 = erase_id <$> y.2)).
  { apply (lift_rel (λ x y : list State * option State,
                      erase_id <$> x.1 = erase_id <$> y.1
                      ∧ erase_id <$> x.2 = erase_id <$> y.2)).
    by apply scan_predecessors_erase. }
  intros [wa fa] [wb fb] m1' m2' [Hwab Hfab]. simpl in Hwab, Hfab.
  unfold ret, outcome_rel, same_search. simpl. split_and!; try done.
  apply erase_id_fields in Hab as (_ & _ & _ & Hal & _).
  destruct ps, qs; try done. by rewrite Hal.
Qed.

Lemma search_loop_erase fuel (st1 st2 : Search) n1 n2 :
  same_search st1 st2 →
  outcome_rel (λ x y, same_search x.1 y.1)
    (search_loop fuel st1 n1) (search_loop fuel st2 n2).
Proof.
  revert st1 st2 n1 n2. induction fuel as [|fuel IH];
    intros st1 st2 n1 n2 Hsame; pose proof Hsame as (Hw & Hk & Hd & Hf);
    pose proof (py_pop_erase _ _ Hw) as Hpop; cbn [search_loop];
    destruct (py_pop (work st1)) as [[s1 r1]|], (py_pop (work st2)) as [[s2 r2]|];
    try done;
    destruct (found st1), (found st2); try done.
  destruct Hpop as [Hs Hr]. rewrite Hk, Hd.
  eapply (bind_rel same_search); [by apply search_step_erase|].
  intros a b m1 m2 Hab. by apply IH.
Qed.

Lemma State_init_erase a qt qo qi (st : Star Dom) n1 n2 :
  outcome_rel (λ x y, erase_id x.1 = erase_id y.1)
    (State_init a qt qo qi st n1) (State_init a qt qo qi st n2).
Proof.
  destruct (is_feasible st) as [w|] eqn:Hw.
  - by rewrite !(State_init_Ok _ _ _ _ _ w).
  - by rewrite !State_init_Raise.
Qed.

(** Two runs on the same scenario end the same way and, when they
    return, with the same counts. *)
Lemma backreach_single_erase fuel task1 task2 ta tb tc td prm n1 n2 :
  outcome_rel (λ x y, counts x.1 = counts y.1)
    (backreach_single fuel task1 ta tb (Some prm) false n1)
    (backreach_single fuel task2 tc td (Some prm) false n2).
Proof.
  unfold backreach_single.
  eapply (bind_rel eq); [done|]. intros r _ m1 m2 <-.
  destruct r as [idx [[[[[a x_own] y_own] qt] qo] qi]].
  destruct (init_to_constraints x_own y_own qo qi qt) as [[box am] bv].
  eapply (bind_rel (λ x y : State, erase_id x = erase_id y));
    [apply State_init_erase|]. intros s1 s2 m1' m2' Hs.
  eapply (bind_rel same_search).
  - apply (search_loop_erase fuel). unfold same_search. simpl.
    by rewrite Hs.
  - intros st1 st2 k1 k2 (_ & Hk & Hd & _). unfold ret, outcome_rel, counts.
    simpl. by rewrite Hk, Hd.
Qed.

(** More fuel does not change a run that returned. *)
Lemma search_loop_more_fuel fuel fuel' (st : Search) n r :
  (fuel ≤ fuel')%nat →
  search_loop fuel st n = Ok r → search_loop fuel' st n = Ok r.
Proof.
  revert fuel' st n. induction fuel as [|fuel IH]; intros fuel' st n Hle.
  - destruct (found st) as [c0|] eqn:Hf.
    { by rewrite !(search_loop_found _ _ c0). }
    destruct (py_pop (work st)) as [[s w]|] eqn:Hpop.
    + by rewrite (search_loop_out_of_fuel _ s w).
    + by rewrite !search_loop_nopop.
  - destruct (found st) as [c0|] eqn:Hf.
    { by rewrite !(search_loop_found _ _ c0). }
    destruct (py_pop (work st)) as [[s w]|] eqn:Hpop.
    + destruct fuel' as [|fuel']; [lia|].
      rewrite !(search_loop_step _ _ s w) by done. unfold bind.
      destruct (search_step s w (popped st) (deadends st) n) as [[st1 n1]| |];
        [|done..].
      apply IH. lia.
    + by rewrite !search_loop_nopop.
Qed.

Lemma backreach_single_more_fuel fuel fuel' task ta tb arg parallel n r :
  (fuel ≤ fuel')%nat →
  backreach_single fuel task ta tb arg parallel n = Ok r →
  backreach_single fuel' task ta tb arg parallel n = Ok r.
Proof.
  intros Hle. unfold backreach_single, bind.
  destruct (if parallel then _ else _) as [[[idx prm] m]| |]; [|done..].
  destruct prm as [[[[[a x_own] y_own] qt] qo] qi].
  destruct (init_to_constraints x_own y_own qo qi qt) as [[box am] bv].
  destruct (State_init _ _ _ _ _ m) as [[s m']| |]; [|done..].
  destruct (search_loop fuel _ m') as [[st k]| |] eqn:Hloop; [|done..].
  by rewrite (search_loop_more_fuel fuel fuel' _ _ _ Hle Hloop).
Qed.

(** C4. Two sequential runs of [backreach_single] on the same scenario,
    with the same providers, agree on [num_popped] and [unique_paths]:
    whatever the class counter of state identifiers and the clock are at
    the start of each run, the two runs end the same way (both return,
    both raise the same exception, or both are still running when the
    fuel is spent), and when both return the two counts are equal, also
    when the runs are given different amounts of fuel. In particular, if
    a first run returns, the second run, started from the counter the
    first one left, returns too and with the same counts. *)
Theorem sequential_runs_agree prm :
  (∀ fuel task1 task2 ta tb tc td n1 n2,
     outcome_rel (λ x y, num_popped x.1 = num_popped y.1
                         ∧ unique_paths x.1 = unique_paths y.1)
       (backreach_single fuel task1 ta tb (Some prm) false n1)
       (backreach_single fuel task2 tc td (Some prm) false n2))
  ∧ (∀ fuel1 fuel2 task1 task2 ta tb tc td n1 n2 r1 m1 r2 m2,
       backreach_single fuel1 task1 ta tb (Some prm) false n1 = Ok (r1, m1) →
       backreach_single fuel2 task2 tc td (Some prm) false n2 = Ok (r2, m2) →
       num_popped r1 = num_popped r2 ∧ unique_paths r1 = unique_paths r2)
  ∧ (∀ fuel task1 task2 ta tb tc td n1 r1 m1,
       backreach_single fuel task1 ta tb (Some prm) false n1 = Ok (r1, m1) →
       ∃ r2 m2,
         backreach_single fuel task2 tc td (Some prm) false m1 = Ok (r2, m2)
         ∧ num_popped r1 = num_popped r2 ∧ unique_paths r1 = unique_paths r2).
Proof.
  assert (H1 : ∀ fuel task1 task2 ta tb tc td n1 n2,
     outcome_rel (λ x y, num_popped x.1 = num_popped y.1
                         ∧ unique_paths x.1 = unique_paths y.1)
       (backreach_single fuel task1 ta tb (Some prm) false n1)
       (backreach_single fuel task2 tc td (Some prm) false n2)).
  { intros. eapply outcome_rel_impl; [|apply backreach_single_erase].
    intros x y. unfold counts. by intros [= -> ->]. }
  split_and!.
  - exact H1.
  - intros fuel1 fuel2 task1 task2 ta tb tc td n1 n2 r1 m1 r2 m2 Hr1 Hr2.
    apply (backreach_single_more_fuel _ (max fuel1 fuel2)) in Hr1; [|lia].
    apply (backreach_single_more_fuel _ (max fuel1 fuel2)) in Hr2; [|lia].
    specialize (H1 (max fuel1 fuel2) task1 task2 ta tb tc td n1 n2).
    by rewrite Hr1, Hr2 in H1.
  - intros fuel task1 task2 ta tb tc td n1 r1 m1 Hr1.
    specialize (H1 fuel task1 task2 ta tb tc td n1 m1).
    rewrite Hr1 in H1.
    destruct (backreach_single fuel task2 tc td (Some prm) false m1)
      as [[r2 m2]| |]; [|done..].
    by exists r2, m2.
Qed.

End Determinism.

(** * Further properties *)

(** ** The search loop, in general *)

Section SearchInduction.
Context `{P : Providers}.
Local Abbreviation State := (State Dom).

(** An invariant of the loop body holds when the loop returns, and the
    loop returns only with a counterexample or an empty frontier. *)
Lemma search_loop_ind (I : Search → Z → Prop) :
  (∀ st s w m st' m',
     I st m → py_pop (work st) = Some (s, w) → found st = None →
     search_step s w (popped st) (deadends st) m = Ok (st', m') →
     I st' m') →
  ∀ fuel st m st' m',
    I st m → search_loop fuel st m = Ok (st', m') →
    I st' m' ∧ (found st' = None → work st' = []).
Proof.
  intros Hstep fuel. induction fuel as [|fuel IH]; intros st m st' m' Hinv.
  - destruct (found st) as [c0|] eqn:Hf.
    { rewrite (search_loop_found _ _ c0) by done. intros [= <- <-].
      split; [done|]. by rewrite Hf. }
    destruct (py_pop (work st)) as [[s w]|] eqn:Hpop.
    + by rewrite (search_loop_out_of_fuel _ s w).
    + rewrite search_loop_nopop by done. intros [= <- <-].
      split; [done|]. intros _. unfold py_pop in Hpop.
      destruct (work st) as [|x l _] using rev_ind; [done|].
      by rewrite last_snoc in Hpop.
  - destruct (found st) as [c0|] eqn:Hf.
    { rewrite (search_loop_found _ _ c0) by done. intros [= <- <-].
      split; [done|]. by rewrite Hf. }
    destruct (py_pop (work st)) as [[s w]|] eqn:Hpop.
    + rewrite (search_loop_step _ _ s w) by done.
      intros H. apply bind_Ok_inv in H as (st1 & n1 & Hs & H).
      eapply IH; [|exact H]. by eapply Hstep.
    + rewrite search_loop_nopop by done. intros [= <- <-].
      split; [done|]. intros _. unfold py_pop in Hpop.
      destruct (work st) as [|x l _] using rev_ind; [done|].
      by rewrite last_snoc in Hpop.
Qed.

(** A run that returns built its first state from a feasible polytope,
    ran the loop from it, and reports the loop state. *)
Lemma backreach_single_inv fuel task t0 t1 arg parallel n res n' :
  backreach_single fuel task t0 t1 arg parallel n = Ok (res, n') →
  ∃ idx a x_own y_own theta1 v_own v_int st0 w st,
    (if parallel then task else (0, default task.2 arg))
      = (idx, (a, x_own, y_own, theta1, v_own, v_int))
    ∧ (parallel = false → arg = Some (a, x_own, y_own, theta1, v_own, v_int))
    ∧ st0 = mkStar (init_to_constraints x_own y_own v_own v_int theta1).1.1
                   (init_to_constraints x_own y_own v_own v_int theta1).1.2
                   (init_to_constraints x_own y_own v_own v_int theta1).2
    ∧ is_feasible st0 = Some w
    ∧ search_loop fuel
        (mkSearch [mkState theta1 v_own v_int [a] (Some st0) (Some w) n]
                  0 ∅ None) (n + 1)
      = Ok (st, n')
    ∧ res = mkResult (found st) (t1 - t0)%Q (popped st) (size (deadends st))
              idx (a, x_own, y_own, theta1, v_own, v_int).
Proof.
  intros H. unfold backreach_single in H.
  apply bind_Ok_inv in H as ([idx prm] & n0 & H0 & H).
  destruct prm as [[[[[a x_own] y_own] theta1] v_own] v_int].
  destruct (init_to_constraints x_own y_own v_own v_int theta1)
    as [[box am] bv] eqn:Hinit.
  apply bind_Ok_inv in H as (init_s & n1 & Hs & H).
  apply bind_Ok_inv in H as (st & n2 & Hloop & H).
  injection H as <- <-.
  assert (Harg : n0 = n
    ∧ (if parallel then task else (0, default task.2 arg))
      = (idx, (a, x_own, y_own, theta1, v_own, v_int))
    ∧ (parallel = false → arg = Some (a, x_own, y_own, theta1, v_own, v_int))).
  { destruct parallel; [|destruct arg as [prm|]]; unfold ret, raise in H0;
      simpl; [| |done]; inversion H0; subst; done. }
  destruct Harg as (-> & Htask & Harg).
  apply State_init_inv in Hs as (w & Hw & -> & ->).
  exists idx, a, x_own, y_own, theta1, v_own, v_int, (mkStar box am bv), w, st.
  by rewrite Hinit.
Qed.

End SearchInduction.

(** ** Identifiers and counts *)

Section Counting.
Context `{P : Providers}.
Local Abbreviation State := (State Dom).

Lemma numbered_length (self : State) st prev_cmd rs n :
  length (numbered self st prev_cmd rs n) = length rs.
Proof. revert n. induction rs as [|r rs IH]; intros n; simpl; [done|]. by rewrite IH. Qed.

Lemma numbered_ids (self : State) st prev_cmd rs n :
  state_id <$> numbered self st prev_cmd rs n = seqZ n (Z.of_nat (length rs)).
Proof.
  revert n. induction rs as [|r rs IH]; intros n; [done|].
  cbn [numbered length fmap list_fmap]. rewrite seqZ_cons by lia.
  f_equal; [by destruct r|].
  change (list_fmap _ _ state_id ?l) with (state_id <$> l). rewrite IH.
  f_equal; lia.
Qed.

Lemma all_predecessors_ids (self : State) st cur grid cmds n :
  state_id <$> all_predecessors self st cur grid cmds n
  = seqZ n (Z.of_nat (length (all_predecessors self st cur grid cmds n))).
Proof.
  revert n. induction cmds as [|c cmds IH]; intros n; [done|].
  cbn [all_predecessors]. rewrite fmap_app, length_app, Nat2Z.inj_add.
  rewrite seqZ_app by lia. rewrite numbered_ids, numbered_length, IH.
  done.
Qed.

(** The identifiers of what [get_predecessors] returns. *)
Lemma get_predecessors_ids (self self' : State) preds n n' :
  get_predecessors self n = Ok ((self', preds), n') →
  state_id <$> preds = seqZ n (Z.of_nat (length preds))
  ∧ n' = n + Z.of_nat (length preds)
  ∧ state_id self' = state_id self.
Proof.
  intros Hget.
  destruct (get_predecessors_inv _ _ _ _ _ Hget)
    as (st' & cur & dxr & dyr & Hback & _ & _ & _ & _ & _ & Hp & Hn).
  split; [|split; [done|]].
  - rewrite Hp at 1. rewrite all_predecessors_ids. by rewrite <- Hp.
  - by destruct (backstep_inv _ _ _ _ Hback) as (? & ? & ? & _ & _ & _ & _ & ->).
Qed.

Lemma size_add_le (x : list Z) (d : gset (list Z)) :
  (1 ≤ size ({[ x ]} ∪ d) ≤ 1 + size d)%nat.
Proof.
  rewrite size_union_alt, size_singleton. split; [lia|].
  assert (size (d ∖ {[ x ]}) ≤ size d)%nat; [|lia].
  apply subseteq_size. intros y Hy. by apply elem_of_difference in Hy as [? _].
Qed.

(** One iteration keeps the books. *)
Lemma search_step_accounted n0 (st : Search) s w m st' m' :
  accounted n0 st m →
  py_pop (work st) = Some (s, w) → found st = None →
  search_step s w (popped st) (deadends st) m = Ok (st', m') →
  accounted n0 st' m'.
Proof.
  intros (Hpop0 & Hdead & Hle & Heq & _ & _ & Hids & Hnd) Hpop Hf Hstep.
  specialize (Heq Hf).
  apply py_pop_Some in Hpop. rewrite Hpop in *.
  rewrite length_app in *. simpl in *.
  apply search_step_inv in Hstep as (s' & preds & w' & f & Hget & Hscan & ->).
  destruct (get_predecessors_ids _ _ _ _ _ Hget) as (Hpids & -> & _).
  assert (Hw : ∀ x, x ∈ w → n0 ≤ state_id x < m).
  { intros x Hx. apply Hids. apply elem_of_app. by left. }
  assert (Hp : ∀ x, x ∈ preds → m ≤ state_id x < m + Z.of_nat (length preds)).
  { intros x Hx. apply (list_elem_of_fmap_2 state_id) in Hx.
    rewrite Hpids in Hx. apply elem_of_seqZ in Hx. lia. }
  assert (Hndw : NoDup (state_id <$> w)).
  { rewrite fmap_app in Hnd. by apply NoDup_app in Hnd as (? & _). }
  assert (Hndp : NoDup (state_id <$> preds)).
  { rewrite Hpids. apply NoDup_seqZ. }
  assert (Hdisj : ∀ i, i ∈ state_id <$> w → i ∉ state_id <$> preds).
  { intros i (x & -> & Hx)%list_elem_of_fmap (y & Hy & Hy')%list_elem_of_fmap.
    specialize (Hw x Hx). specialize (Hp y Hy'). lia. }
  assert (Hm : n0 < m) by lia.
  pose proof (size_add_le (alpha_prev_list s') (deadends st)) as Hsz.
  destruct (scan_predecessors_inv _ _ _ _ Hscan) as [(-> & -> & _)|
    (l1 & c & l2 & -> & -> & -> & _ & _)]; unfold accounted; simpl.
  - rewrite length_app. split_and!.
    + lia.
    + destruct preds; lia.
    + lia.
    + intros _. lia.
    + intros _ Hnil. apply app_eq_nil in Hnil as [_ ->]. lia.
    + done.
    + intros x [Hx|Hx]%elem_of_app; [specialize (Hw x Hx)|specialize (Hp x Hx)]; lia.
    + rewrite fmap_app. apply NoDup_app. done.
  - rewrite !length_app in *. simpl in *.
    assert (Hc : m ≤ state_id c < m + Z.of_nat (length l1 + S (length l2))).
    { apply Hp. apply elem_of_app. right. left. }
    split_and!.
    + lia.
    + destruct l1; simpl; lia.
    + lia.
    + done.
    + done.
    + intros c' [= <-]. split; [lia|]. split; [lia|].
      exists (w ++ l1). by rewrite <- app_assoc.
    + intros x [Hx|Hx]%elem_of_app; [specialize (Hw x Hx); lia|].
      assert (Hx' : x ∈ l1 ++ c :: l2).
      { apply elem_of_app in Hx as [Hx|Hx%list_elem_of_singleton].
        - apply elem_of_app. by left.
        - subst. apply elem_of_app. right. left. }
      specialize (Hp x Hx'). lia.
    + rewrite fmap_app. apply NoDup_app. split; [done|]. split.
      * intros i Hi Hi'. apply (Hdisj i Hi).
        rewrite fmap_app. apply elem_of_app.
        rewrite fmap_app in Hi'.
        apply elem_of_app in Hi' as [Hi'|Hi']; [by left|right].
        simpl in Hi'. apply list_elem_of_singleton in Hi' as ->. left.
      * rewrite fmap_app, fmap_cons in Hndp.
        apply NoDup_app in Hndp as (Hl1 & Hx & Hl2).
        rewrite fmap_app. apply NoDup_app. split; [done|]. split.
        -- intros i Hi Hi'. apply (Hx i Hi).
           simpl in Hi'. apply list_elem_of_singleton in Hi' as ->. left.
        -- simpl. apply NoDup_singleton.
Qed.

(** A run that returns has kept the books from its first state on. *)
Lemma backreach_single_accounted fuel task t0 t1 arg parallel n res n' :
  backreach_single fuel task t0 t1 arg parallel n = Ok (res, n') →
  ∃ st, accounted n st n'
        ∧ (found st = None → work st = [])
        ∧ counterexample res = found st
        ∧ num_popped res = popped st
        ∧ unique_paths res = size (deadends st).
Proof.
  intros H.
  destruct (backreach_single_inv _ _ _ _ _ _ _ _ _ H)
    as (idx & a & x_own & y_own & theta1 & v_own & v_int & st0 & w & st
        & _ & _ & _ & _ & Hloop & ->).
  exists st.
  assert (H0 : accounted n
    (mkSearch [mkState theta1 v_own v_int [a] (Some st0) (Some w) n] 0 ∅ None)
    (n + 1)).
  { unfold accounted. cbn [work popped deadends found]. rewrite size_empty.
    split_and!; try done; try (simpl; lia).
    - intros s ->%list_elem_of_singleton. simpl. lia.
    - apply NoDup_singleton. }
  by destruct (search_loop_ind (accounted n) (search_step_accounted n)
                 _ _ _ _ _ H0 Hloop) as [Hacc Hend].
Qed.

(** X1. A run that returns has popped at least one state; the number of
    distinct dead-end histories never exceeds the number of states
    popped; and a run that found no counterexample met at least one dead
    end. *)
Theorem popped_and_paths fuel task t0 t1 arg parallel n res n' :
  backreach_single fuel task t0 t1 arg parallel n = Ok (res, n') →
  1 ≤ num_popped res
  ∧ Z.of_nat (unique_paths res) ≤ num_popped res
  ∧ (counterexample res = None → (1 ≤ unique_paths res)%nat).
Proof.
  intros H.
  destruct (backreach_single_accounted _ _ _ _ _ _ _ _ _ H)
    as (st & (Hpop & Hdead & _ & _ & Hend & Hfound & _) & Hwork & -> & -> & ->).
  destruct (found st) as [c|] eqn:Hf.
  - destruct (Hfound c eq_refl) as (? & _). split_and!; [lia|lia|done].
  - specialize (Hend eq_refl (Hwork eq_refl)). split_and!; [lia|lia|done].
Qed.

(** X2. The class counter [State.next_state_id] counts the states a run
    creates. A run that finds no counterexample pops every state it
    created: the counter has advanced by exactly [num_popped]. A run that
    finds one created more states than it popped, and the counterexample
    carries an identifier handed out during the run, after that of the
    first state. *)
Theorem states_created fuel task t0 t1 arg parallel n res n' :
  backreach_single fuel task t0 t1 arg parallel n = Ok (res, n') →
  n + num_popped res ≤ n'
  ∧ (counterexample res = None → n' = n + num_popped res)
  ∧ (∀ c, counterexample res = Some c →
       n + num_popped res < n' ∧ n < state_id c < n').
Proof.
  intros H.
  destruct (backreach_single_accounted _ _ _ _ _ _ _ _ _ H)
    as (st & (Hpop & _ & Hle & Heq & _ & Hfound & _) & Hwork & -> & -> & _).
  split_and!.
  - lia.
  - intros Hf. specialize (Heq Hf). rewrite (Hwork Hf) in Heq. simpl in Heq. lia.
  - intros c Hc. destruct (Hfound c Hc) as (_ & Hid & w & Hw).
    rewrite Hw, length_app in Hle. simpl in Hle. lia.
Qed.

(** X3. [get_predecessors] numbers the predecessors it returns
    consecutively from the class counter, in the order of the list, and
    leaves the counter just past the last one; the receiver keeps its
    identifier. So the predecessors have pairwise distinct identifiers,
    none of which was in use before the call. *)
Theorem predecessor_identifiers (self self' : State) preds n n' :
  get_predecessors self n = Ok ((self', preds), n') →
  state_id <$> preds = seqZ n (Z.of_nat (length preds))
  ∧ n' = n + Z.of_nat (length preds)
  ∧ state_id self' = state_id self
  ∧ NoDup (state_id <$> preds)
  ∧ ∀ p, p ∈ preds → n ≤ state_id p < n'.
Proof.
  intros Hget.
  destruct (get_predecessors_ids _ _ _ _ _ Hget) as (Hids & Hn & Hself).
  split_and!; try done.
  - rewrite Hids. apply NoDup_seqZ.
  - intros p Hp. apply (list_elem_of_fmap_2 state_id) in Hp.
    rewrite Hids in Hp. apply elem_of_seqZ in Hp. lia.
Qed.

End Counting.

(** ** What every state of a search satisfies *)

Section SearchStates.
Context `{P : Providers}.
Local Abbreviation State := (State Dom).

(** A property of states that [get_predecessors] hands down from a state
    to its predecessors holds of every state the loop leaves on the
    frontier and of the counterexample. *)
Lemma search_states_ind (I : State → Prop) :
  (∀ s s' preds n n',
     I s → get_predecessors s n = Ok ((s', preds), n') →
     ∀ p, p ∈ preds → I p) →
  ∀ fuel st m st' m',
    (∀ s, s ∈ work st → I s) → (∀ c, found st = Some c → I c) →
    search_loop fuel st m = Ok (st', m') →
    (∀ s, s ∈ work st' → I s) ∧ (∀ c, found st' = Some c → I c).
Proof.
  intros Hpred fuel st m st' m' Hwork Hfound Hloop.
  refine (proj1 (search_loop_ind
    (λ st _, (∀ s, s ∈ work st → I s) ∧ (∀ c, found st = Some c → I c))
    _ fuel st m st' m' (conj Hwork Hfound) Hloop)).
  clear -Hpred. intros st s w m st' m' [Hwork _] Hpop Hf Hstep.
  apply py_pop_Some in Hpop.
  apply search_step_inv in Hstep as (s' & preds & w' & f & Hget & Hscan & ->).
  assert (Hs : I s) by (apply Hwork; rewrite Hpop; apply elem_of_app; right; left).
  assert (Hw : ∀ x, x ∈ w → I x)
    by (intros x Hx; apply Hwork; rewrite Hpop; apply elem_of_app; by left).
  pose proof (Hpred _ _ _ _ _ Hs Hget) as Hp.
  destruct (scan_predecessors_inv _ _ _ _ Hscan) as [(-> & -> & _)|
    (l1 & q & l2 & -> & -> & -> & _ & _)]; simpl; split.
  - intros x [Hx|Hx]%elem_of_app; auto.
  - done.
  - intros x [Hx|Hx]%elem_of_app; [auto|]. apply Hp.
    apply elem_of_app in Hx as [Hx|Hx%list_elem_of_singleton].
    + apply elem_of_app. by left.
    + subst x. apply elem_of_app. right. left.
  - intros x [= <-]. apply Hp. apply elem_of_app. right. left.
Qed.

(** The same, for a sequential run on the scenario [prm]: what holds of
    the first state and is handed down holds of the counterexample. *)
Lemma backreach_single_states (I : State → Prop) fuel task t0 t1
    a x_own y_own theta1 v_own v_int n res n' :
  (∀ s s' preds n n',
     I s → get_predecessors s n = Ok ((s', preds), n') →
     ∀ p, p ∈ preds → I p) →
  (∀ st w, I (mkState theta1 v_own v_int [a] (Some st) (Some w) n)) →
  backreach_single fuel task t0 t1
    (Some (a, x_own, y_own, theta1, v_own, v_int)) false n = Ok (res, n') →
  ∀ c, counterexample res = Some c → I c.
Proof.
  intros Hpred Hinit H c Hc.
  destruct (backreach_single_inv _ _ _ _ _ _ _ _ _ H)
    as (idx & a' & x_own' & y_own' & theta1' & v_own' & v_int' & st0 & w & st
        & Htask & _ & _ & _ & Hloop & ->).
  simpl in Htask. injection Htask as <- <- <- <- <- <- <-.
  simpl in Hc.
  refine (proj2 (search_states_ind I Hpred _ _ _ _ _ _ _ Hloop) c Hc).
  - intros s ->%list_elem_of_singleton. apply Hinit.
  - by intros c0 [=].
Qed.

Lemma sumZ_snoc (l : list Z) (x : Z) : sumZ (l ++ [x]) = sumZ l + x.
Proof. unfold sumZ. induction l as [|y l IH]; simpl; [lia|]. rewrite IH. lia. Qed.

Lemma get_predecessors_on_course theta1 v_own v_int (s s' : State) preds n n' :
  on_course theta1 v_own v_int s →
  get_predecessors s n = Ok ((s', preds), n') →
  ∀ p, p ∈ preds → on_course theta1 v_own v_int p.
Proof.
  intros (Hq & Ho & Hi) Hget p Hp.
  destruct (get_predecessors_inv _ _ _ _ _ Hget)
    as (st' & cur & dxr & dyr & Hback & _ & _ & _ & Hhist & _ & -> & _).
  destruct (backstep_inv _ _ _ _ Hback)
    as (cmd & st & delta & Hcmd & Hc & _ & Hd & ->).
  apply elem_of_all_predecessors in Hp as (prev_cmd & r & id & _ & _ & ->).
  rewrite py_index_last in Hcmd.
  destruct (alpha_prev_list s) as [|x l _] eqn:Hl using rev_ind; [done|].
  rewrite last_snoc in Hcmd. injection Hcmd as ->.
  assert (Hquantum : quantum cmd = delta) by (unfold quantum; by rewrite Hd).
  unfold on_course, heading_of in *.
  rewrite removelast_last in Hq.
  set (s1 := stepped s st _ _).
  assert (Hp : alpha_prev_list (predecessor s1 st' prev_cmd r id)
               = (l ++ [cmd]) ++ [prev_cmd]
             ∧ qtheta1 (predecessor s1 st' prev_cmd r id) = qtheta1 s - delta
             ∧ qv_own (predecessor s1 st' prev_cmd r id) = qv_own s
             ∧ qv_int (predecessor s1 st' prev_cmd r id) = qv_int s).
  { destruct r; simpl; by rewrite Hl. }
  destruct Hp as (-> & -> & -> & ->).
  rewrite removelast_last, fmap_app.
  change (quantum <$> [cmd]) with [quantum cmd].
  rewrite sumZ_snoc, Hquantum.
  split_and!; [lia|done..].
Qed.

(** X4. The heading level of the counterexample is the heading level of
    the scenario less one heading quantum for every command of its
    history but the last, each taken from the table at the index of the
    command; its two speed levels are those of the scenario. *)
Theorem heading_follows_history fuel task t0 t1
    a x_own y_own theta1 v_own v_int n res n' :
  backreach_single fuel task t0 t1
    (Some (a, x_own, y_own, theta1, v_own, v_int)) false n = Ok (res, n') →
  ∀ c, counterexample res = Some c →
    qtheta1 c = theta1 - sumZ (quantum <$> removelast (alpha_prev_list c))
    ∧ qv_own c = v_own ∧ qv_int c = v_int.
Proof.
  intros H c Hc.
  apply (backreach_single_states (on_course theta1 v_own v_int)
           fuel task t0 t1 a x_own y_own theta1 v_own v_int n res n'); try done.
  - apply get_predecessors_on_course.
  - intros st w. unfold on_course, heading_of. simpl. split_and!; [lia|done..].
Qed.

(** X5. The history of the counterexample has at least two commands
    and at most one more than the number of states the run has popped:
    every pop lengthens the histories by one command at most. *)
Theorem counterexample_depth fuel task t0 t1 arg parallel n res n' :
  backreach_single fuel task t0 t1 arg parallel n = Ok (res, n') →
  ∀ c, counterexample res = Some c →
    (2 ≤ length (alpha_prev_list c))%nat
    ∧ Z.of_nat (length (alpha_prev_list c)) ≤ num_popped res + 1.
Proof.
  intros H c Hc.
  destruct (backreach_single_inv _ _ _ _ _ _ _ _ _ H)
    as (idx & a & x_own & y_own & theta1 & v_own & v_int & st0 & w & st
        & _ & _ & _ & _ & Hloop & ->).
  simpl in Hc |- *.
  pose (I := λ (st : Search) (_ : Z),
    (∀ s, s ∈ work st →
       1 ≤ Z.of_nat (length (alpha_prev_list s)) ≤ popped st + 1)
    ∧ (∀ c, found st = Some c →
         2 ≤ Z.of_nat (length (alpha_prev_list c)) ≤ popped st + 1)).
  assert (Hstep : ∀ st s w m st' m',
     I st m → py_pop (work st) = Some (s, w) → found st = None →
     search_step s w (popped st) (deadends st) m = Ok (st', m') →
     I st' m').
  { clear. intros st s w m st' m' [Hwork _] Hpop Hf Hstep.
    apply py_pop_Some in Hpop.
    apply search_step_inv in Hstep as (s' & preds & w' & f & Hget & Hscan & ->).
    assert (Hs : 1 ≤ Z.of_nat (length (alpha_prev_list s)) ≤ popped st + 1)
      by (apply Hwork; rewrite Hpop; apply elem_of_app; right; left).
    assert (Hw : ∀ x, x ∈ w →
              1 ≤ Z.of_nat (length (alpha_prev_list x)) ≤ popped st + 1 + 1).
    { intros x Hx. specialize (Hwork x). rewrite Hpop in Hwork.
      specialize (Hwork ltac:(apply elem_of_app; by left)). lia. }
    destruct (get_predecessors_history _ _ _ _ _ Hget) as [_ Hpreds].
    assert (Hp : ∀ p, p ∈ preds →
              2 ≤ Z.of_nat (length (alpha_prev_list p)) ≤ popped st + 1 + 1).
    { intros p Hp. destruct (Hpreds p Hp) as (c & _ & ->).
      rewrite length_app. simpl. lia. }
    destruct (scan_predecessors_inv _ _ _ _ Hscan) as [(-> & -> & _)|
      (l1 & q & l2 & -> & -> & -> & _ & _)]; split; simpl.
    - intros x [Hx|Hx]%elem_of_app; [auto|]. specialize (Hp x Hx). lia.
    - done.
    - intros x [Hx|Hx]%elem_of_app; [auto|].
      assert (Hx' : x ∈ l1 ++ q :: l2).
      { apply elem_of_app in Hx as [Hx|Hx%list_elem_of_singleton].
        - apply elem_of_app. by left.
        - subst x. apply elem_of_app. right. left. }
      specialize (Hp x Hx'). lia.
    - intros x [= <-]. apply Hp. apply elem_of_app. right. left. }
  assert (H0 : I (mkSearch [mkState theta1 v_own v_int [a] (Some st0) (Some w) n]
                    0 ∅ None) (n + 1)).
  { split; simpl; [|done]. intros s ->%list_elem_of_singleton. simpl. lia. }
  destruct (search_loop_ind I Hstep _ _ _ _ _ H0 Hloop) as [[_ Hfound] _].
  specialize (Hfound c Hc). lia.
Qed.

End SearchStates.

(** ** The search leaves nothing out *)

Section Exhaustive.
Context `{P : Providers}.
Local Abbreviation State := (State Dom).

Lemma elem_of_erased (p : State) (l1 l2 : list State) :
  erase_id <$> l1 = erase_id <$> l2 → p ∈ l1 →
  ∃ q, q ∈ l2 ∧ erase_id q = erase_id p.
Proof.
  intros Heq Hp. apply (list_elem_of_fmap_2 erase_id) in Hp.
  rewrite Heq in Hp. apply list_elem_of_fmap in Hp as (q & Hq & Hin).
  by exists q.
Qed.

(** What [get_predecessors] returns for a state it returns, up to
    identifiers, for every state that differs from it in the identifier
    only, at every value of the counter. *)
Lemma get_predecessors_same (x s x' : State) preds m m' k :
  erase_id s = erase_id x →
  get_predecessors x m = Ok ((x', preds), m') →
  ∃ s' preds' k',
    get_predecessors s k = Ok ((s', preds'), k')
    ∧ erase_id <$> preds' = erase_id <$> preds.
Proof.
  intros He Hx. pose proof (get_predecessors_erase s x k m He) as Hrel.
  rewrite Hx in Hrel.
  destruct (get_predecessors s k) as [[[s' preds'] k']| |]; [|done..].
  destruct Hrel as [_ Hp]. by exists s', preds', k'.
Qed.

Lemma descends_split (x s x' : State) preds m m' :
  descends x s →
  get_predecessors x m = Ok ((x', preds), m') →
  erase_id s = erase_id x ∨ ∃ p, p ∈ preds ∧ descends p s.
Proof.
  intros Hd Hx. induction Hd as [s He|s0 k s0' preds0 k' p0 Hd IH Hget Hp0].
  - by left.
  - right. destruct IH as [He|(p & Hp & Hdp)].
    + destruct (get_predecessors_same x s0 x' preds m m' k He Hx)
        as (s1 & preds1 & k1 & Hget1 & Heq).
      rewrite Hget in Hget1. injection Hget1 as <- <- <-.
      destruct (elem_of_erased p0 preds0 preds Heq Hp0) as (q & Hq & Hqe).
      exists q. split; [done|]. by apply descends_here.
    + exists p. split; [done|]. by eapply descends_pred.
Qed.

Lemma cleared_same (x s x' : State) preds m m' :
  erase_id s = erase_id x →
  get_predecessors x m = Ok ((x', preds), m') →
  (∀ p, p ∈ preds → is_counterexample p = Ok false) →
  cleared s.
Proof.
  intros He Hx Hall k.
  destruct (get_predecessors_same x s x' preds m m' k He Hx)
    as (s' & preds' & k' & Hget & Heq).
  exists s', preds', k'. split; [done|]. intros p Hp.
  destruct (elem_of_erased p preds' preds Heq Hp) as (q & Hq & Hqe).
  rewrite <- (is_counterexample_erase q p Hqe). by apply Hall.
Qed.

(** X6. The search leaves nothing out. When a sequential run returns
    without a counterexample, every state that descends from its first
    state (the first state itself, the predecessors [get_predecessors]
    returns for it, their predecessors, and so on, whatever their
    identifiers) has predecessors to give, and none of them passes the
    test of the driver. *)
Theorem search_is_exhaustive fuel task t0 t1
    a x_own y_own theta1 v_own v_int n res n' :
  backreach_single fuel task t0 t1
    (Some (a, x_own, y_own, theta1, v_own, v_int)) false n = Ok (res, n') →
  counterexample res = None →
  ∃ init_s,
    State_init a theta1 v_own v_int
      (mkStar (init_to_constraints x_own y_own v_own v_int theta1).1.1
              (init_to_constraints x_own y_own v_own v_int theta1).1.2
              (init_to_constraints x_own y_own v_own v_int theta1).2) n
    = Ok (init_s, n + 1)
    ∧ ∀ s, descends init_s s →
        ∀ k, ∃ s' preds k',
          get_predecessors s k = Ok ((s', preds), k')
          ∧ ∀ p, p ∈ preds → is_counterexample p = Ok false.
Proof.
  intros H Hnone.
  destruct (backreach_single_inv _ _ _ _ _ _ _ _ _ H)
    as (idx & a' & x_own' & y_own' & theta1' & v_own' & v_int' & st0 & w0 & st
        & Htask & _ & Hst0 & Hw & Hloop & ->).
  simpl in Htask. injection Htask as <- <- <- <- <- <- <-.
  simpl in Hnone. rewrite <- Hst0.
  set (init_s := mkState theta1 v_own v_int [a] (Some st0) (Some w0) n) in *.
  exists init_s. split; [by apply State_init_Ok|].
  pose (I := λ (st : Search) (_ : Z),
    found st = None →
    ∀ s, descends init_s s → cleared s ∨ ∃ y, y ∈ work st ∧ descends y s).
  assert (Hstep : ∀ st s w m st' m',
     I st m → py_pop (work st) = Some (s, w) → found st = None →
     search_step s w (popped st) (deadends st) m = Ok (st', m') →
     I st' m').
  { clear. intros st1 x w m st' m' Hinv Hpop Hf Hstep Hf' s Hs.
    apply py_pop_Some in Hpop.
    apply search_step_inv in Hstep as (x' & preds & w' & f & Hget & Hscan & ->).
    simpl in Hf' |- *. subst f.
    destruct (scan_predecessors_inv _ _ _ _ Hscan) as [(_ & -> & Hall)|
      (l1 & q & l2 & _ & [=] & _)].
    destruct (Hinv Hf s Hs) as [Hc|(y & Hy & Hd)]; [by left|].
    rewrite Hpop in Hy.
    apply elem_of_app in Hy as [Hy|Hy%list_elem_of_singleton].
    { right. exists y. split; [|done]. apply elem_of_app. by left. }
    subst y.
    destruct (descends_split x s x' preds m m' Hd Hget) as [He|(p & Hp & Hdp)].
    - left. by eapply cleared_same.
    - right. exists p. split; [|done]. apply elem_of_app. by right. }
  assert (H0 : I (mkSearch [init_s] 0 ∅ None) (n + 1)).
  { intros _ s Hs. right. exists init_s. split; [left|done]. }
  destruct (search_loop_ind I Hstep _ _ _ _ _ H0 Hloop) as [Hinv Hend].
  intros s Hs.
  destruct (Hinv Hnone s Hs) as [Hc|(y & Hy & _)]; [exact Hc|].
  rewrite (Hend Hnone) in Hy. by apply elem_of_nil in Hy.
Qed.

End Exhaustive.

(** ** Exceptions *)

Section Exceptions.
Context `{P : Providers} `{!ProvidersOK P}.
Local Abbreviation State := (State Dom).

Lemma length_matmul (a b : Mat) : length (matmul a b) = length a.
Proof. unfold matmul. by rewrite length_fmap. Qed.

Lemma length_matvec (m : Mat) (v : Vec) : length (matvec m v) = length m.
Proof. unfold matvec. by rewrite length_fmap. Qed.

Lemma get_predecessors_ready `{!ShapesOK P} (s : State) n :
  ready s →
  ∃ s' preds n',
    get_predecessors s n = Ok ((s', preds), n')
    ∧ ∀ p, p ∈ preds → ready p ∧ (2 ≤ length (alpha_prev_list p))%nat.
Proof.
  intros ((st & Hst & Hshape) & Hw & (c & Hlast & Hc)).
  destruct (get_predecessors_total s st c n Hst Hlast Hc)
    as (s' & preds & n' & Hget).
  exists s', preds, n'. split; [done|]. intros p Hp.
  destruct (get_predecessors_inv _ _ _ _ _ Hget)
    as (st' & cur & dxr & dyr & Hback & Hst' & Hcur & Hcur4 & Hhist & _ & -> & _).
  destruct (backstep_inv _ _ _ _ Hback)
    as (cmd & st0 & delta & _ & Hcmd & Hst0 & _ & ->).
  rewrite Hst in Hst0. injection Hst0 as <-.
  simpl in Hst'. injection Hst' as <-.
  set (st' := mkStar _ _ _) in *.
  assert (Hshape' : shaped st').
  { split; simpl; [rewrite length_matmul|rewrite length_matvec];
      by apply elapse_shape. }
  apply elem_of_all_predecessors in Hp as (prev_cmd & r & id & Hprev & Hr & ->).
  apply elem_of_py_range in Hprev.
  assert (Hlen : (1 ≤ length (alpha_prev_list s))%nat).
  { destruct (alpha_prev_list s); simpl in *; [done|lia]. }
  split.
  - split_and!.
    + destruct r; simpl; eauto using make_qstar_shape.
    + destruct r; simpl; [done|eauto].
    + exists prev_cmd. split; [|lia]. destruct r; simpl; apply last_snoc.
  - destruct r; simpl; rewrite length_app; simpl; lia.
Qed.

Lemma is_counterexample_ready `{!ShapesOK P} (p : State) :
  ready p → (2 ≤ length (alpha_prev_list p))%nat →
  ∃ b, is_counterexample p = Ok b.
Proof.
  intros ((st & Hst & Hshape) & [w Hw] & _) Hlen.
  unfold is_counterexample.
  assert (∃ a2, py_index (alpha_prev_list p) (-2) = Ok a2) as [a2 ->]
    by (apply (py_index_in_bounds _ 2); lia).
  assert (∃ a1, py_index (alpha_prev_list p) (-1) = Ok a1) as [a1 Ha1]
    by (apply (py_index_in_bounds _ 1); lia).
  cbn [obind].
  assert (Hboth : ∃ both : bool,
            (if a2 =? 0
             then a1 <~ py_index (alpha_prev_list p) (-1) ;; Ok (a1 =? 0)
             else Ok false) = Ok both).
  { destruct (a2 =? 0); [|by eexists]. rewrite Ha1. by eexists. }
  destruct Hboth as [both ->]. cbn [obind].
  destruct both; [|by eexists].
  rewrite Hw. cbn [obind]. unfold get_star. rewrite Hst. cbn [obind].
  pose proof (range_shape st w Hshape) as Hpt.
  pose proof X_INT_lt. pose proof X_OWN_lt. pose proof Y_OWN_lt.
  destruct (lookup_lt_is_Some_2 (domain_to_range st w) X_INT ltac:(lia)) as [xi Hxi].
  destruct (lookup_lt_is_Some_2 (domain_to_range st w) X_OWN ltac:(lia)) as [xo Hxo].
  destruct (lookup_lt_is_Some_2 (domain_to_range st w) Y_OWN ltac:(lia)) as [yo Hyo].
  unfold np_getitem. rewrite Hxi, Hxo, Hyo. cbn [obind]. by eexists.
Qed.

(** X7. What a call of [get_predecessors] comes to is decided by the
    polytope and the most recent command of the state. Without a polytope
    it raises AttributeError; with a polytope and an empty history,
    IndexError; with a polytope and a most recent command outside 0..4,
    AssertionError; in every other case it returns. *)
Theorem get_predecessors_outcomes (s : State) n :
  match star s, last (alpha_prev_list s) with
  | None, _ => get_predecessors s n = Raise AttributeError
  | Some _, None => get_predecessors s n = Raise IndexError
  | Some _, Some c =>
      if bool_decide (0 ≤ c ≤ 4)
      then ∃ s' preds n', get_predecessors s n = Ok ((s', preds), n')
      else get_predecessors s n = Raise AssertionError
  end.
Proof.
  destruct (star s) as [st|] eqn:Hst.
  - destruct (last (alpha_prev_list s)) as [c|] eqn:Hlast.
    + case_bool_decide as Hc.
      * by eapply get_predecessors_total.
      * unfold get_predecessors, bind, lift.
        rewrite (get_dx_dy_qrange_eq s st Hst).
        rewrite (backstep_out_of_range s false (-1) c); [done| |done].
        by rewrite py_index_last, Hlast.
    + unfold get_predecessors, bind, lift.
      rewrite (get_dx_dy_qrange_eq s st Hst).
      unfold backstep. by rewrite py_index_last, Hlast.
  - unfold get_predecessors, bind, lift, get_dx_dy_qrange.
    pose proof X_INT_lt. pose proof X_OWN_lt.
    rewrite np_setitem_Ok by (unfold np_zeros; by rewrite length_replicate).
    simpl.
    rewrite np_setitem_Ok
      by (rewrite length_insert; unfold np_zeros; by rewrite length_replicate).
    simpl. unfold get_star. by rewrite Hst.
Qed.

Lemma scan_predecessors_total (preds w : list State) :
  (∀ p, p ∈ preds → ∃ b, is_counterexample p = Ok b) →
  ∃ w' f, scan_predecessors preds w = Ok (w', f)
          ∧ ∀ x, x ∈ w' → x ∈ w ∨ x ∈ preds.
Proof.
  revert w. induction preds as [|p preds IH]; intros w Hall.
  - exists w, None. split; [done|]. by left.
  - destruct (Hall p ltac:(left)) as [b Hb]. cbn [scan_predecessors].
    rewrite Hb. cbn [obind]. destruct b.
    + eexists _, _. split; [done|].
      intros x [Hx|Hx%list_elem_of_singleton]%elem_of_app;
        [by left|subst; right; left].
    + destruct (IH (w ++ [p])) as (w' & f & -> & Hw').
      { intros q Hq. apply Hall. by right. }
      exists w', f. split; [done|]. intros x Hx.
      destruct (Hw' x Hx) as [[?|Hx'%list_elem_of_singleton]%elem_of_app|?];
        [by left|subst; right; left|right; by right].
Qed.

Lemma search_loop_raises_nothing `{!ShapesOK P} fuel (st : Search) m e :
  (∀ s, s ∈ work st → ready s) →
  search_loop fuel st m ≠ Raise e.
Proof.
  revert st m. induction fuel as [|fuel IH]; intros st m Hready.
  - destruct (found st) as [c0|] eqn:Hf.
    { by rewrite (search_loop_found _ _ c0). }
    destruct (py_pop (work st)) as [[s w]|] eqn:Hpop.
    + by rewrite (search_loop_out_of_fuel _ s w).
    + by rewrite search_loop_nopop.
  - destruct (found st) as [c0|] eqn:Hf.
    { by rewrite (search_loop_found _ _ c0). }
    destruct (py_pop (work st)) as [[s w]|] eqn:Hpop.
    + rewrite (search_loop_step _ _ s w) by done.
      apply py_pop_Some in Hpop.
      assert (Hs : ready s)
        by (apply Hready; rewrite Hpop; apply elem_of_app; right; left).
      destruct (get_predecessors_ready s m Hs) as (s' & preds & m' & Hget & Hp).
      destruct (scan_predecessors_total preds w) as (w' & f & Hscan & Hw').
      { intros p Hp'. destruct (Hp p Hp'). by apply is_counterexample_ready. }
      rewrite (bind_Ok _ _ _ _ _
        (search_step_Ok _ _ _ _ _ _ (popped st) (deadends st) _ _ Hget Hscan)).
      apply IH. simpl. intros x Hx.
      destruct (Hw' x Hx) as [?|?].
      * apply Hready. rewrite Hpop. apply elem_of_app. by left.
      * by apply Hp.
    + by rewrite search_loop_nopop.
Qed.

(** X8. A sequential run on a scenario whose command is in 0..4 and
    whose initial polytope is feasible raises no exception: it returns, or
    it is still running when the fuel is spent. The providers are assumed
    to return matrices and range points of [NUM_VARS] rows. *)
Theorem search_raises_nothing `{!ShapesOK P} fuel task t0 t1
    a x_own y_own theta1 v_own v_int n :
  0 ≤ a ≤ 4 →
  is_Some (is_feasible
    (mkStar (init_to_constraints x_own y_own v_own v_int theta1).1.1
            (init_to_constraints x_own y_own v_own v_int theta1).1.2
            (init_to_constraints x_own y_own v_own v_int theta1).2)) →
  ∀ e, backreach_single fuel task t0 t1
         (Some (a, x_own, y_own, theta1, v_own, v_int)) false n ≠ Raise e.
Proof.
  intros Ha [w Hw] e. unfold backreach_single.
  unfold bind at 1. cbn [ret].
  pose proof (init_shape x_own y_own v_own v_int theta1) as Hshape.
  destruct (init_to_constraints x_own y_own v_own v_int theta1)
    as [[box am] bv]. simpl in Hw, Hshape.
  rewrite (bind_Ok _ _ _ _ _ (State_init_Ok a theta1 v_own v_int _ w n Hw)).
  unfold bind.
  destruct (search_loop fuel _ (n + 1)) as [[st m]| |] eqn:Hloop; [done| |done].
  exfalso. revert Hloop. apply search_loop_raises_nothing.
  intros s ->%list_elem_of_singleton. split_and!; simpl; eauto.
Qed.

(** X9. The two fatal inputs of a sequential run, besides an infeasible
    initial polytope: without a scenario the run raises the assertion
    error at once; with a scenario whose command is outside 0..4 the
    first state is built (nothing checks the command there) and the first
    iteration of the loop raises the assertion error, from the backward
    step of [get_predecessors]. *)
Theorem fatal_scenarios :
  (∀ fuel task t0 t1 n,
     backreach_single fuel task t0 t1 None false n = Raise AssertionError)
  ∧ (∀ fuel task t0 t1 a x_own y_own theta1 v_own v_int n,
       ¬ 0 ≤ a ≤ 4 →
       is_Some (is_feasible
         (mkStar (init_to_constraints x_own y_own v_own v_int theta1).1.1
                 (init_to_constraints x_own y_own v_own v_int theta1).1.2
                 (init_to_constraints x_own y_own v_own v_int theta1).2)) →
       backreach_single (S fuel) task t0 t1
         (Some (a, x_own, y_own, theta1, v_own, v_int)) false n
       = Raise AssertionError).
Proof.
  split; [done|].
  intros fuel task t0 t1 a x_own y_own theta1 v_own v_int n Ha [w Hw].
  unfold backreach_single.
  unfold bind at 1. cbn [ret].
  destruct (init_to_constraints x_own y_own v_own v_int theta1)
    as [[box am] bv]. simpl in Hw.
  rewrite (bind_Ok _ _ _ _ _ (State_init_Ok a theta1 v_own v_int _ w n Hw)).
  apply bind_Raise.
  set (s := mkState _ _ _ _ _ _ _).
  rewrite (search_loop_step _ _ s []) by done.
  apply bind_Raise. unfold search_step. apply bind_Raise.
  unfold get_predecessors.
  rewrite (bind_Ok _ _ _ _ _
    (lift_Ok _ _ (n + 1) (get_dx_dy_qrange_eq s _ eq_refl))).
  apply bind_Raise.
  by rewrite (backstep_out_of_range s false (-1) a).
Qed.

End Exceptions.

(** ** What the predecessors cover *)

Section Coverage.
Context `{P : Providers} `{!ProvidersOK P}.
Context (contains : Star Dom → Vec → Prop).
Context `{!OptimizerOK P contains} `{!GeometryOK P contains}.
Local Abbreviation State := (State Dom).

(** The cell of every point of a polytope is in the grid of its range. *)
Lemma cell_of_in_grid (self : State) (st : Star Dom) dxr dyr pt :
  star self = Some st →
  get_dx_dy_qrange self = Ok (dxr, dyr) →
  contains st pt →
  cell_of pt ∈ cell_grid dxr dyr.
Proof.
  intros Hst Hr Hpt. rewrite (get_dx_dy_qrange_eq self st Hst) in Hr.
  injection Hr as <- <-. apply elem_of_cell_grid. unfold cell_of. simpl.
  split.
  - exact (cell_between contains st dx_of _ _ pt
             (minimize_is_min contains st dx_vec dx_of pt dot_dx_vec Hpt)
             (minimize_neg_is_max contains st dx_vec dx_of pt dot_dx_vec Hpt)
             Hpt).
  - exact (cell_between contains st dy_of _ _ pt
             (minimize_is_min contains st dy_vec dy_of pt dot_dy_vec Hpt)
             (minimize_neg_is_max contains st dy_vec dy_of pt dot_dy_vec Hpt)
             Hpt).
Qed.

Lemma feasible_restrictions_elem (st : Star Dom) cells q w :
  q ∈ cells → is_feasible (make_qstar st q) = Some w →
  Restricted q w ∈ feasible_restrictions st cells.
Proof.
  intros Hq Hw. induction cells as [|c cells IH]; [by apply elem_of_nil in Hq|].
  simpl. apply elem_of_cons in Hq as [<-|Hq].
  - rewrite Hw. left.
  - destruct (is_feasible (make_qstar st c)); [right|]; by apply IH.
Qed.

Lemma numbered_elem (self : State) st prev_cmd rs n r :
  r ∈ rs → ∃ id, predecessor self st prev_cmd r id
                 ∈ numbered self st prev_cmd rs n.
Proof.
  revert n. induction rs as [|r' rs IH]; intros n Hr;
    [by apply elem_of_nil in Hr|].
  simpl. apply elem_of_cons in Hr as [<-|Hr].
  - exists n. left.
  - destruct (IH (n + 1) Hr) as [id Hid]. exists id. by right.
Qed.

Lemma all_predecessors_elem (self : State) st cur grid cmds n prev_cmd r :
  prev_cmd ∈ cmds →
  r ∈ policy st (qtheta1 self, qv_own self, qv_int self) cur prev_cmd grid →
  ∃ id, predecessor self st prev_cmd r id
        ∈ all_predecessors self st cur grid cmds n.
Proof.
  revert n. induction cmds as [|c cmds IH]; intros n Hc Hr;
    [by apply elem_of_nil in Hc|].
  simpl. apply elem_of_cons in Hc as [<-|Hc].
  - destruct (numbered_elem self st prev_cmd _ n r Hr) as [id Hid].
    exists id. apply elem_of_app. by left.
  - destruct (IH (n + Z.of_nat (length (policy st
        (qtheta1 self, qv_own self, qv_int self) cur c grid))) Hc Hr)
      as [id Hid].
    exists id. apply elem_of_app. by right.
Qed.

Lemma feasible_of_point (st : Star Dom) pt :
  contains st pt → ∃ w, is_feasible (make_qstar st (cell_of pt)) = Some w.
Proof.
  intros Hpt. destruct (is_feasible (make_qstar st (cell_of pt))) as [w|] eqn:Hw;
    [eauto|].
  destruct (is_feasible_None _ pt Hw). by apply make_qstar_keeps.
Qed.

(** X10. No predecessor is lost. Take a point of the stepped polytope
    whose cell is not initial, and a candidate command for which the
    decision function, at that cell and at the levels of the stepped
    state, gives the most recent command of the state. Then
    [get_predecessors] returns a predecessor for that candidate whose
    polytope contains the point. The optimiser is assumed to return
    minimisers, [is_feasible] to answer [None] on empty polytopes only,
    and [make_qstar] to keep the points of the cell. *)
Theorem no_predecessor_lost (self self' : State) preds n n' st' cur :
  get_predecessors self n = Ok ((self', preds), n') →
  star self' = Some st' →
  last (alpha_prev_list self) = Some cur →
  ∀ pt prev_cmd,
    contains st' pt →
    0 ≤ prev_cmd ≤ 4 →
    is_init_qx_qy (cell_of pt).1 (cell_of pt).2 = false →
    get_cmd prev_cmd (cell_of pt).1 (cell_of pt).2
      (qtheta1 self') (qv_own self') (qv_int self') = cur →
    ∃ p stp,
      p ∈ preds
      ∧ alpha_prev_list p = alpha_prev_list self ++ [prev_cmd]
      ∧ star p = Some stp
      ∧ contains stp pt.
Proof.
  intros Hget Hst' Hlast pt prev_cmd Hpt Hprev Hinit Hcmd.
  destruct (get_predecessors_inv _ _ _ _ _ Hget)
    as (st1 & cur' & dxr & dyr & _ & Hst1 & Hcur & _ & Hhist & Hr & -> & _).
  rewrite Hst' in Hst1. injection Hst1 as <-.
  assert (cur' = cur) as ->.
  { rewrite Hhist, py_index_last, Hlast in Hcur. by injection Hcur. }
  pose proof (cell_of_in_grid self' st' dxr dyr pt Hst' Hr Hpt) as Hgrid.
  set (constants := (qtheta1 self', qv_own self', qv_int self')).
  assert (Hgood : cell_of pt ∈ match_cells constants cur prev_cmd
                                 (cell_grid dxr dyr))
    by (by apply elem_of_match_cells).
  destruct (feasible_of_point st' pt Hpt) as [w Hw].
  assert (Hregion : ∃ r, r ∈ policy st' constants cur prev_cmd (cell_grid dxr dyr)
            ∧ (r = Whole ∨ r = Restricted (cell_of pt) w)).
  { unfold policy. repeat case_match.
    - rewrite bool_decide_eq_true in *.
      match goal with H : match_cells _ _ _ _ = [] |- _ =>
        rewrite H in Hgood; by apply elem_of_nil in Hgood end.
    - exists Whole. split; [left|by left].
    - exists Whole. split; [left|by left].
    - exists (Restricted (cell_of pt) w). split; [|by right].
      by apply feasible_restrictions_elem. }
  destruct Hregion as (r & Hr' & Hcase).
  destruct (all_predecessors_elem self' st' cur (cell_grid dxr dyr)
              (py_range 0 5) n prev_cmd r) as [id Hid].
  { apply elem_of_py_range. lia. }
  { done. }
  destruct Hcase as [-> | ->].
  - exists (predecessor self' st' prev_cmd Whole id), st'.
    split_and!; [exact Hid|simpl; by rewrite Hhist|done|done].
  - exists (predecessor self' st' prev_cmd (Restricted (cell_of pt) w) id),
      (make_qstar st' (cell_of pt)).
    split_and!; [exact Hid|simpl; by rewrite Hhist|done|].
    by apply make_qstar_keeps.
Qed.

(** X11. A candidate command is passed through unrestricted only if it is
    right everywhere. If some point of the stepped polytope lies in a
    cell that is not initial and at which the decision function, for a
    candidate command, gives something else than the most recent command
    of the state, then every predecessor returned for that candidate is
    the restriction of the stepped polytope to a cell that is not
    initial and at which the decision function gives the most recent
    command, with the witness [is_feasible] found for the restriction. *)
Theorem unrestricted_only_if_right (self self' : State) preds n n' st' cur :
  get_predecessors self n = Ok ((self', preds), n') →
  star self' = Some st' →
  last (alpha_prev_list self) = Some cur →
  ∀ pt prev_cmd,
    contains st' pt →
    is_init_qx_qy (cell_of pt).1 (cell_of pt).2 = false →
    get_cmd prev_cmd (cell_of pt).1 (cell_of pt).2
      (qtheta1 self') (qv_own self') (qv_int self') ≠ cur →
    ∀ p, p ∈ preds →
      alpha_prev_list p = alpha_prev_list self ++ [prev_cmd] →
      ∃ q w,
        is_init_qx_qy q.1 q.2 = false
        ∧ get_cmd prev_cmd q.1 q.2
            (qtheta1 self') (qv_own self') (qv_int self') = cur
        ∧ star p = Some (make_qstar st' q)
        ∧ is_feasible (make_qstar st' q) = Some w
        ∧ domain_witness p = Some w.
Proof.
  intros Hget Hst' Hlast pt prev_cmd Hpt Hinit Hcmd p Hp Hhistp.
  destruct (get_predecessors_inv _ _ _ _ _ Hget)
    as (st1 & cur' & dxr & dyr & _ & Hst1 & Hcur & _ & Hhist & Hr & -> & _).
  rewrite Hst' in Hst1. injection Hst1 as <-.
  assert (cur' = cur) as ->.
  { rewrite Hhist, py_index_last, Hlast in Hcur. by injection Hcur. }
  pose proof (cell_of_in_grid self' st' dxr dyr pt Hst' Hr Hpt) as Hgrid.
  set (constants := (qtheta1 self', qv_own self', qv_int self')) in *.
  assert (Hbad : cell_of pt ∈ mismatch_cells constants cur prev_cmd
                                (cell_grid dxr dyr))
    by (by apply elem_of_mismatch_cells).
  destruct (feasible_of_point st' pt Hpt) as [w0 Hw0].
  apply elem_of_all_predecessors in Hp as (c & r & id & _ & Hr' & ->).
  assert (c = prev_cmd) as ->.
  { destruct r; simpl in Hhistp; rewrite Hhist in Hhistp;
      by apply app_inj_tail in Hhistp as [_ ?]. }
  fold constants in Hr'. unfold policy in Hr'.
  destruct (bool_decide (match_cells constants cur prev_cmd _ = []));
    [by apply elem_of_nil in Hr'|].
  destruct (bool_decide (mismatch_cells constants cur prev_cmd _ = [])) eqn:Hb.
  { apply bool_decide_eq_true in Hb. rewrite Hb in Hbad.
    by apply elem_of_nil in Hbad. }
  destruct (forallb _ _) eqn:Hall.
  { rewrite forallb_forall in Hall.
    apply list_elem_of_In, Hall, negb_true_iff in Hbad.
    unfold restriction_feasible in Hbad. apply bool_decide_eq_false in Hbad.
    destruct Hbad. by rewrite Hw0. }
  apply elem_of_feasible_restrictions in Hr' as (q & w & -> & Hq & Hw).
  apply elem_of_match_cells in Hq as (_ & Hqi & Hqc).
  exists q, w. by split_and!.
Qed.

End Coverage.

(** ** A step back and a step forward *)

Section LinearAlgebra.

Lemma vec_eq_refl (u : Vec) : vec_eq u u.
Proof. induction u; constructor; [reflexivity|done]. Qed.

Lemma vec_eq_trans (u v w : Vec) : vec_eq u v → vec_eq v w → vec_eq u w.
Proof.
  apply Forall2_compose. intros x y z Hxy Hyz. by rewrite Hxy.
Qed.

Lemma mat_eq_trans (a b c : Mat) : mat_eq a b → mat_eq b c → mat_eq a c.
Proof. apply Forall2_compose. apply vec_eq_trans. Qed.

Lemma dot_cons_r (row : Vec) (y : Q) (v : Vec) :
  (dot row (y :: v) == default 0 (head row) * y + dot (tail row) v)%Q.
Proof. destruct row; simpl; ring. Qed.

Lemma dot_fmap_zero {A} (r : Vec) (l : list A) (f : A → Q) :
  (∀ x, f x == 0)%Q → (dot r (f <$> l) == 0)%Q.
Proof.
  intros Hf. revert r. induction l as [|x l IH]; intros [|a r]; simpl;
    try reflexivity.
  rewrite Hf, IH. ring.
Qed.

Lemma dot_fmap_add {A} (r : Vec) (l : list A) (f g h : A → Q) :
  (∀ x, h x == f x + g x)%Q →
  (dot r (h <$> l) == dot r (f <$> l) + dot r (g <$> l))%Q.
Proof.
  intros Hh. revert r. induction l as [|x l IH]; intros [|a r]; simpl;
    try ring.
  rewrite Hh, IH. unfold fmap. ring.
Qed.

Lemma dot_fmap_scale {A} (r : Vec) (l : list A) (f h : A → Q) (c : Q) :
  (∀ x, h x == f x * c)%Q →
  (dot r (h <$> l) == dot r (f <$> l) * c)%Q.
Proof.
  intros Hh. revert r. induction l as [|x l IH]; intros [|a r]; simpl;
    try ring.
  rewrite Hh, IH. unfold fmap. ring.
Qed.

Lemma dot_proper_l (u u' v : Vec) : vec_eq u u' → (dot u v == dot u' v)%Q.
Proof.
  intros H. revert v. induction H as [|x x' u u' Hx _ IH]; intros [|y v];
    simpl; try reflexivity.
  rewrite Hx, IH. reflexivity.
Qed.

Lemma length_transpose (n : nat) (m : Mat) : length (transpose n m) = n.
Proof. revert m. induction n as [|n IH]; intros m; simpl; [done|]. by rewrite IH. Qed.

Lemma transpose_column_length (n : nat) (m : Mat) (c : Vec) :
  c ∈ transpose n m → length c = length m.
Proof.
  revert m. induction n as [|n IH]; intros m; simpl.
  - by intros ?%elem_of_nil.
  - intros [->|Hc]%elem_of_cons.
    + by rewrite length_fmap.
    + rewrite (IH _ Hc). by rewrite length_fmap.
Qed.

(** [r @ (B @ v)] is [(r @ B) @ v]. *)
Lemma dot_transpose (n : nat) (B : Mat) (r v : Vec) :
  (length v ≤ n)%nat →
  (dot r (matvec B v) == dot ((dot r) <$> transpose n B) v)%Q.
Proof.
  revert B v. induction n as [|n IH]; intros B v Hlen.
  - destruct v; [|simpl in Hlen; lia]. simpl.
    apply dot_fmap_zero. intros row. by rewrite dot_nil_r.
  - destruct v as [|y v].
    + rewrite dot_nil_r. apply dot_fmap_zero. intros row. by rewrite dot_nil_r.
    + simpl in Hlen. cbn [transpose fmap list_fmap dot].
      change (list_fmap _ _ (dot r) ?l) with ((dot r) <$> l).
      rewrite <- (IH (tail <$> B) v) by lia.
      unfold matvec at 1.
      rewrite (dot_fmap_add r B (λ row, default 0 (head row) * y)%Q
                 (λ row, dot (tail row) v)) by (intros; apply dot_cons_r).
      rewrite (dot_fmap_scale r B (λ row, default 0%Q (head row)) _ y)
        by (intros; reflexivity).
      unfold matvec. rewrite <- list_fmap_compose. reflexivity.
Qed.

Lemma matvec_assoc (a b : Mat) (v : Vec) :
  (length v ≤ ncols b)%nat →
  vec_eq (matvec a (matvec b v)) (matvec (matmul a b) v).
Proof.
  intros Hlen. unfold matvec at 1 3, matmul. rewrite <- list_fmap_compose.
  apply Forall2_fmap, Forall_Forall2_diag, Forall_forall. intros r _. simpl.
  by apply dot_transpose.
Qed.

Lemma matvec_proper (m m' : Mat) (v : Vec) :
  mat_eq m m' → vec_eq (matvec m v) (matvec m' v).
Proof.
  intros H. unfold matvec. apply Forall2_fmap.
  eapply Forall2_impl; [exact H|]. intros r r' Hr. by apply dot_proper_l.
Qed.

Lemma matvec_identity (n : nat) (v : Vec) :
  length v = n → vec_eq (matvec (identity n) v) v.
Proof.
  revert v. induction n as [|n IH]; intros [|x v] Hlen; simpl in Hlen;
    try lia; [constructor|].
  cbn [identity matvec fmap list_fmap]. constructor.
  - simpl. rewrite dot_zeros. ring.
  - change (list_fmap _ _ ?f ?l) with (f <$> l).
    rewrite <- list_fmap_compose.
    eapply vec_eq_trans; [|apply (IH v); lia].
    unfold matvec. apply Forall2_fmap, Forall_Forall2_diag, Forall_forall.
    intros row _. simpl. ring.
Qed.

(** Transposing a table given row by row over the same columns. *)
Lemma transpose_table {A} (m : list A) (g : A → Vec → Q) (cols : list Vec) :
  transpose (length cols) ((λ x, (g x) <$> cols) <$> m)
  = (λ c, (λ x, g x c) <$> m) <$> cols.
Proof.
  induction cols as [|c cols IH]; [done|].
  cbn [length transpose fmap list_fmap].
  change (list_fmap _ _ ?f ?l) with (f <$> l).
  rewrite <- !list_fmap_compose. f_equal.
  rewrite <- IH. f_equal.
Qed.

Lemma ncols_matmul (a b : Mat) : a ≠ [] → ncols (matmul a b) = ncols b.
Proof.
  intros Ha. destruct a as [|r a]; [done|].
  unfold ncols at 1, matmul. simpl. fold (ncols b).
  by rewrite length_fmap, length_transpose.
Qed.

Lemma matmul_eq (a b : Mat) :
  matmul a b = (λ row, (dot row) <$> transpose (ncols b) b) <$> a.
Proof. reflexivity. Qed.

Lemma matmul_assoc (a b c : Mat) :
  b ≠ [] → (length c ≤ ncols b)%nat →
  mat_eq (matmul a (matmul b c)) (matmul (matmul a b) c).
Proof.
  intros Hb Hlen.
  rewrite (matmul_eq a (matmul b c)), (ncols_matmul b c Hb).
  rewrite (matmul_eq (matmul a b) c), (matmul_eq a b).
  set (cols := transpose (ncols c) c).
  change (matmul b c) with ((λ x, (λ col, dot x col) <$> cols) <$> b).
  replace (ncols c) with (length cols)
    by (unfold cols; by rewrite length_transpose).
  rewrite (transpose_table b (λ x col, dot x col) cols).
  rewrite <- list_fmap_compose.
  apply Forall2_fmap, Forall_Forall2_diag, Forall_forall. intros r _.
  cbn [compose]. rewrite <- list_fmap_compose.
  apply Forall2_fmap, Forall_Forall2_diag, Forall_forall. intros col Hcol.
  cbn [compose]. apply (dot_transpose (ncols b) b r col).
  rewrite (transpose_column_length _ _ _ Hcol).
  exact Hlen.
Qed.

Lemma matmul_proper (m m' c : Mat) :
  mat_eq m m' → mat_eq (matmul m c) (matmul m' c).
Proof.
  intros H. unfold matmul. apply Forall2_fmap.
  eapply Forall2_impl; [exact H|]. intros r r' Hr. simpl.
  apply Forall2_fmap, Forall_Forall2_diag, Forall_forall. intros col _.
  by apply dot_proper_l.
Qed.

Lemma transpose_cons (k : nat) (a : Vec) (m : Mat) :
  length a = k →
  transpose k (a :: m) = zip_with cons a (transpose k m).
Proof.
  revert a m. induction k as [|k IH]; intros [|x a] m Hlen; simpl in Hlen;
    try lia; [done|].
  cbn [transpose fmap list_fmap zip_with head tail default].
  f_equal. apply IH. lia.
Qed.

Lemma unit_row (n : nat) (a : Vec) (t : Mat) :
  length t = length a →
  vec_eq ((dot (1%Q :: np_zeros n)) <$> zip_with cons a t) a.
Proof.
  revert t. induction a as [|x a IH]; intros [|c t] Hlen; simpl in Hlen;
    try lia; [constructor|].
  cbn [zip_with fmap list_fmap]. constructor.
  - simpl. rewrite dot_zeros. ring.
  - apply IH. lia.
Qed.

Lemma shifted_row (e a : Vec) (t : Mat) :
  length t = length a →
  vec_eq ((dot (0%Q :: e)) <$> zip_with cons a t) ((dot e) <$> t).
Proof.
  revert t. induction a as [|x a IH]; intros [|c t] Hlen; simpl in Hlen;
    try lia; [constructor|].
  cbn [zip_with fmap list_fmap]. constructor.
  - simpl. ring.
  - apply IH. lia.
Qed.

Lemma identity_rows (n k : nat) (a : Mat) :
  length a = n → Forall (λ row, length row = k) a →
  mat_eq ((λ e, (dot e) <$> transpose k a) <$> identity n) a.
Proof.
  revert a. induction n as [|n IH]; intros [|row a] Hlen Hrows;
    simpl in Hlen; try lia; [constructor|].
  apply Forall_cons in Hrows as [Hrow Hrows].
  rewrite (transpose_cons k row a Hrow).
  cbn [identity fmap list_fmap]. constructor.
  - apply unit_row. by rewrite length_transpose.
  - change (list_fmap _ _ ?f ?l) with (f <$> l).
    rewrite <- list_fmap_compose.
    eapply mat_eq_trans; [|apply (IH a); [lia|done]].
    apply Forall2_fmap, Forall_Forall2_diag, Forall_forall. intros e _. simpl.
    apply shifted_row. by rewrite length_transpose.
Qed.

Lemma matmul_identity (n k : nat) (a : Mat) :
  length a = n → Forall (λ row, length row = k) a →
  mat_eq (matmul (identity n) a) a.
Proof.
  intros Hlen Hrows. unfold matmul.
  assert (Hk : a ≠ [] → length (default [] (head a)) = k).
  { destruct a as [|row a]; [done|]. intros _. simpl.
    by apply Forall_cons in Hrows as [? _]. }
  destruct a as [|row a].
  - simpl in Hlen. subst n. constructor.
  - rewrite Hk by done. by apply identity_rows.
Qed.

(** When [m1 @ m2] is the identity of size [n], [m2] has [n] columns if
    [n] is not 0. *)
Lemma inverse_ncols (m1 m2 : Mat) (n : nat) :
  mat_eq (matmul m1 m2) (identity n) → n ≠ O → ncols m2 = n ∧ m2 ≠ [].
Proof.
  intros H Hn. destruct n as [|n]; [done|].
  simpl in H. destruct m1 as [|r m1]; [inversion H|].
  unfold matmul in H. cbn [fmap list_fmap] in H. fold (ncols m2) in H.
  apply Forall2_cons in H as [Hr _].
  apply Forall2_length in Hr.
  rewrite length_fmap, length_transpose in Hr. simpl in Hr.
  unfold np_zeros in Hr. rewrite length_replicate in Hr.
  split; [done|]. intros ->. unfold ncols in Hr. simpl in Hr. lia.
Qed.

(** A matrix followed by its inverse, on a vector and on a matrix. *)
Lemma inverse_matvec (m1 m2 : Mat) (n : nat) (v : Vec) :
  mat_eq (matmul m1 m2) (identity n) → length v = n →
  vec_eq (matvec m1 (matvec m2 v)) v.
Proof.
  intros H Hlen.
  eapply vec_eq_trans; [apply matvec_assoc|].
  { destruct n as [|n]; [lia|].
    destruct (inverse_ncols m1 m2 (S n) H) as [-> _]; [done|lia]. }
  eapply vec_eq_trans; [apply (matvec_proper _ _ v H)|].
  by apply matvec_identity.
Qed.

Lemma inverse_matmul (m1 m2 : Mat) (n k : nat) (a : Mat) :
  mat_eq (matmul m1 m2) (identity n) →
  length a = n → Forall (λ row, length row = k) a →
  mat_eq (matmul m1 (matmul m2 a)) a.
Proof.
  intros H Hlen Hrows. destruct n as [|n].
  - destruct a; [|done]. simpl in H.
    apply Forall2_nil_inv_r in H. unfold matmul in H.
    apply fmap_nil_inv in H as ->. constructor.
  - destruct (inverse_ncols m1 m2 (S n) H) as [Hc Hne]; [done|].
    eapply mat_eq_trans; [apply matmul_assoc; [done|lia]|].
    eapply mat_eq_trans; [apply (matmul_proper _ _ a H)|].
    by eapply matmul_identity.
Qed.

End LinearAlgebra.

Section RoundTrip.
Context `{P : Providers} `{!ProvidersOK P}.
Local Abbreviation State := (State Dom).

(** X12. A backward step followed by a forward step with the same
    command gives the state back. On a state whose polytope has [n] rows
    in [a_mat] (all of the same length) and [n] entries in [b_vec], and
    for a command in 0..4 whose forward transform times its backward
    transform is the identity of size [n], both steps return, and the
    state they leave has the heading level, the speed levels, the history,
    the witness and the identifier it had, and a polytope whose [a_mat]
    and [b_vec] are, entry by entry, equal as rationals to what they
    were. *)
Theorem backstep_round_trip (self : State) (st : Star Dom) (c : Z)
    (n k : nat) :
  star self = Some st →
  last (alpha_prev_list self) = Some c →
  0 ≤ c ≤ 4 →
  length (a_mat st) = n →
  Forall (λ row, length row = k) (a_mat st) →
  length (b_vec st) = n →
  mat_eq (matmul (get_time_elapse_mat c 1%Q) (get_time_elapse_mat c (-1)%Q))
         (identity n) →
  ∃ self1 self2 st2,
    backstep self false (-1) = Ok self1
    ∧ backstep self1 true c = Ok self2
    ∧ star self2 = Some st2
    ∧ dom_constraints st2 = dom_constraints st
    ∧ mat_eq (a_mat st2) (a_mat st)
    ∧ vec_eq (b_vec st2) (b_vec st)
    ∧ qtheta1 self2 = qtheta1 self
    ∧ qv_own self2 = qv_own self
    ∧ qv_int self2 = qv_int self
    ∧ alpha_prev_list self2 = alpha_prev_list self
    ∧ domain_witness self2 = domain_witness self
    ∧ state_id self2 = state_id self.
Proof.
  intros Hst Hlast Hc Hrows Hrect Hb Hinv.
  destruct (cmd_quantum_lookup c Hc) as [delta Hd].
  assert (Hidx : py_index (alpha_prev_list self) (-1) = Ok c)
    by (by rewrite py_index_last, Hlast).
  pose proof (backstep_cmd self false (-1) c st delta Hidx Hc Hst Hd) as H1.
  cbn [negb] in H1.
  set (self1 := stepped self st (get_time_elapse_mat c (-1)%Q)
                  (qtheta1 self - delta)) in *.
  set (st1 := mkStar (dom_constraints st)
                (matmul (get_time_elapse_mat c (-1)%Q) (a_mat st))
                (matvec (get_time_elapse_mat c (-1)%Q) (b_vec st))).
  pose proof (backstep_cmd self1 true c c st1 delta eq_refl Hc eq_refl Hd)
    as H2.
  cbn [negb] in H2.
  eexists self1, _, _. split; [exact H1|]. split; [exact H2|].
  split; [reflexivity|]. simpl.
  split_and!; try done.
  - by eapply inverse_matmul.
  - by eapply inverse_matvec.
  - lia.
Qed.

End RoundTrip.

(** ** Printing *)

Section PrintingFacts.
Context {Dom : Type}.

Lemma str_cons_app (a : ascii) (s t : string) :
  String a s +:+ t = String a (s +:+ t).
Proof. reflexivity. Qed.

Lemma str_nil_app (t : string) : "" +:+ t = t.
Proof. reflexivity. Qed.

Lemma str_app_assoc (a b c : string) : (a +:+ b) +:+ c = a +:+ b +:+ c.
Proof.
  induction a as [|x a IH]; [done|]. rewrite !str_cons_app. by f_equal.
Qed.

Lemma str_app_nil (a : string) : a +:+ "" = a.
Proof. induction a as [|x a IH]; [done|]. rewrite str_cons_app. by f_equal. Qed.

Lemma pretty_N_char_undelimited (x : N) :
  (pretty_N_char x ≠ " " ∧ pretty_N_char x ≠ "," ∧ pretty_N_char x ≠ "]")%char.
Proof. unfold pretty_N_char. repeat case_match; done. Qed.

Lemma pretty_N_go_undelimited (x : N) (s : string) :
  undelimited s → undelimited (pretty_N_go x s).
Proof.
  revert s. induction (N.lt_wf_0 x) as [x _ IH]; intros s Hs.
  assert (x = 0 ∨ 0 < x)%N as [->|Hx] by lia.
  - by rewrite pretty_N_go_0.
  - rewrite pretty_N_go_step by done. apply IH.
    + by apply N.div_lt.
    + split; [apply pretty_N_char_undelimited|done].
Qed.

Lemma pretty_N_go_length (x : N) (s : string) :
  (String.length s ≤ String.length (pretty_N_go x s))%nat.
Proof.
  revert s. induction (N.lt_wf_0 x) as [x _ IH]; intros s.
  assert (x = 0 ∨ 0 < x)%N as [->|Hx] by lia.
  - by rewrite pretty_N_go_0.
  - rewrite pretty_N_go_step by done.
    etrans; [|apply IH; by apply N.div_lt]. simpl. lia.
Qed.

Lemma pretty_N_undelimited (x : N) : undelimited (pretty x).
Proof.
  unfold pretty, pretty_N. case_decide; [by repeat split|].
  by apply pretty_N_go_undelimited.
Qed.

Lemma pretty_N_nonempty (x : N) : pretty x ≠ "".
Proof.
  unfold pretty, pretty_N. case_decide; [done|].
  assert (0 < x)%N as Hx by lia.
  rewrite pretty_N_go_step by done. intros Hnil.
  pose proof (pretty_N_go_length (x `div` 10)
                (String (pretty_N_char (x `mod` 10)) "")) as Hlen.
  rewrite Hnil in Hlen. simpl in Hlen. lia.
Qed.

Lemma pretty_Z_undelimited (x : Z) : undelimited (pretty x).
Proof.
  destruct x as [|p|p].
  - by repeat split.
  - apply (pretty_N_undelimited (N.pos p)).
  - change (undelimited (String "-" (pretty (N.pos p)))).
    split; [done|]. apply pretty_N_undelimited.
Qed.

Lemma pretty_Z_nonempty (x : Z) : pretty x ≠ "".
Proof.
  destruct x as [|p|p].
  - done.
  - apply (pretty_N_nonempty (N.pos p)).
  - change (String "-" (pretty (N.pos p)) ≠ ""). done.
Qed.

(** A number followed by a delimiter can be read back. *)
Lemma undelimited_split (s1 s2 t1 t2 : string) :
  undelimited s1 → undelimited s2 → delimited t1 → delimited t2 →
  s1 +:+ t1 = s2 +:+ t2 → s1 = s2 ∧ t1 = t2.
Proof.
  revert s2. induction s1 as [|a s1 IH]; intros [|b s2] H1 H2 Ht1 Ht2 Heq;
    rewrite ?str_cons_app, ?str_nil_app in Heq.
  - done.
  - destruct Ht1 as (c & t & -> & Hc). injection Heq as -> _.
    destruct H2 as [(? & ? & ?) _]. by destruct Hc as [?|[?|?]].
  - destruct Ht2 as (c & t & -> & Hc). injection Heq as -> _.
    destruct H1 as [(? & ? & ?) _]. by destruct Hc as [?|[?|?]].
  - injection Heq as -> Heq.
    destruct (IH s2) as [-> ->]; try done; [by destruct H1|by destruct H2].
Qed.

Lemma join_cons (x : Z) (l : list Z) (t : string) :
  join ", " (pretty <$> (x :: l)) +:+ "]" +:+ t
  = pretty x +:+ str_rest l +:+ t.
Proof.
  destruct l as [|y l]; [done|].
  cbn [fmap list_fmap join str_rest].
  change (list_fmap _ _ pretty ?l) with (pretty <$> l).
  by rewrite !str_app_assoc.
Qed.

Lemma str_rest_delimited (l : list Z) (t : string) :
  delimited (str_rest l +:+ t).
Proof.
  destruct l; cbn [str_rest]; rewrite !str_cons_app;
    eexists _, _; (split; [reflexivity|]); auto.
Qed.

(** The text of a list, up to its closing bracket, can be read back,
    whatever follows. *)
Lemma str_list_body_inj (l1 l2 : list Z) (t1 t2 : string) :
  join ", " (pretty <$> l1) +:+ "]" +:+ t1
  = join ", " (pretty <$> l2) +:+ "]" +:+ t2 →
  l1 = l2 ∧ t1 = t2.
Proof.
  revert l2. induction l1 as [|x1 l1 IH]; intros [|x2 l2].
  - intros Heq. change (String "]" t1 = String "]" t2) in Heq.
    by injection Heq as ->.
  - rewrite join_cons. intros Heq.
    pose proof (pretty_Z_undelimited x2) as Hu.
    pose proof (pretty_Z_nonempty x2) as Hne.
    destruct (pretty x2) as [|a p]; [done|].
    change (String "]" t1 = String a (p +:+ str_rest l2 +:+ t2)) in Heq.
    injection Heq as <- _. by destruct Hu as [(? & ? & ?) _].
  - rewrite join_cons. intros Heq.
    pose proof (pretty_Z_undelimited x1) as Hu.
    pose proof (pretty_Z_nonempty x1) as Hne.
    destruct (pretty x1) as [|a p]; [done|].
    change (String a (p +:+ str_rest l1 +:+ t1) = String "]" t2) in Heq.
    injection Heq as -> _. by destruct Hu as [(? & ? & ?) _].
  - rewrite !join_cons. intros Heq.
    apply undelimited_split in Heq as [Hx Hrest];
      try apply pretty_Z_undelimited; try apply str_rest_delimited.
    apply (inj pretty) in Hx as ->.
    destruct l1 as [|y1 l1], l2 as [|y2 l2]; cbn [str_rest] in Hrest.
    + change (String "]" t1 = String "]" t2) in Hrest.
      by injection Hrest as ->.
    + rewrite !str_cons_app in Hrest. discriminate.
    + rewrite !str_cons_app in Hrest. discriminate.
    + apply (inj (String.append ", ")) in Hrest.
      rewrite !str_app_assoc in Hrest.
      destruct (IH (y2 :: l2) Hrest) as [Hl ->]. by rewrite Hl.
Qed.

Lemma str_list_inj (l1 l2 : list Z) (t1 t2 : string) :
  str_list l1 +:+ t1 = str_list l2 +:+ t2 → l1 = l2 ∧ t1 = t2.
Proof.
  unfold str_list. rewrite !str_app_assoc. intros Heq.
  apply (inj (String.append "[")) in Heq. by apply str_list_body_inj.
Qed.

(** X13. The text of a state tells its identifier and its history: two
    states that print the same, by [__str__], have the same identifier
    and the same command history. *)
Theorem State_str_inj (s1 s2 : State Dom) :
  State_str s1 = State_str s2 →
  state_id s1 = state_id s2 ∧ alpha_prev_list s1 = alpha_prev_list s2.
Proof.
  unfold State_str. intros Heq.
  apply (inj (String.append "State(id=")) in Heq.
  apply undelimited_split in Heq as [Hid Hrest];
    try apply pretty_Z_undelimited;
    try (rewrite !str_cons_app; eexists _, _; split; [reflexivity|]; auto).
  apply (inj pretty) in Hid. split; [done|].
  apply (inj (String.append " with alpha_prev_list = ")) in Hrest.
  by apply str_list_inj in Hrest as [? _].
Qed.

(** X14. What [print_replay_init] prints is enough to set a replay up:
    two states for which it prints the same four lines have the same
    command history, heading level and speed levels, and conversely. *)
Theorem print_replay_init_inj (s1 s2 : State Dom) :
  print_replay_init s1 = print_replay_init s2
  ↔ alpha_prev_list s1 = alpha_prev_list s2
    ∧ qtheta1 s1 = qtheta1 s2
    ∧ qv_own s1 = qv_own s2
    ∧ qv_int s1 = qv_int s2.
Proof.
  unfold print_replay_init. split.
  - intros Heq.
    pose proof (f_equal (λ l : list string, default "" (l !! 0%nat)) Heq) as Hl.
    pose proof (f_equal (λ l : list string, default "" (l !! 1%nat)) Heq) as Hq.
    pose proof (f_equal (λ l : list string, default "" (l !! 2%nat)) Heq) as Ho.
    pose proof (f_equal (λ l : list string, default "" (l !! 3%nat)) Heq) as Hi.
    simpl in Hl, Hq, Ho, Hi.
    apply (inj (String.append "alpha_prev_list = ")) in Hl.
    apply (inj (String.append "qtheta1 = ")), (inj pretty) in Hq.
    apply (inj (String.append "qv_own = ")), (inj pretty) in Ho.
    apply (inj (String.append "qv_int = ")), (inj pretty) in Hi.
    assert (Hl' : str_list (alpha_prev_list s1) +:+ ""
                  = str_list (alpha_prev_list s2) +:+ "")
      by (by rewrite !str_app_nil).
    by apply str_list_inj in Hl' as [? _].
  - by intros (-> & -> & -> & ->).
Qed.

End PrintingFacts.

(** ** The replay *)

Section ReplayFacts.
Context `{P : Providers}.
Local Abbreviation State := (State Dom).

(** Python's [l[-(i+1)]] is entry [i] of the list read backwards. *)
Lemma py_index_reverse {A} (l : list A) (i : Z) :
  0 ≤ i →
  py_index l (- (i + 1))
  = match reverse l !! Z.to_nat i with
    | Some x => Ok x
    | None => Raise IndexError
    end.
Proof.
  intros Hi. destruct (decide (i + 1 ≤ Z.of_nat (length l))) as [Hle|Hgt].
  - rewrite py_index_neg by lia. rewrite reverse_lookup by lia.
    by replace (length l - Z.to_nat (i + 1))%nat
      with (length l - S (Z.to_nat i))%nat by lia.
  - rewrite py_index_neg_out by lia.
    rewrite (proj2 (lookup_ge_None (reverse l) (Z.to_nat i))); [done|].
    rewrite length_reverse. lia.
Qed.

(** One pass through the body of the loop. *)
Lemma replay_step_inv (s : State) (acc acc' : Replay) (i : Z) :
  0 ≤ i →
  replay_step s acc i = Ok acc' →
  ∃ net expected_cmd,
    reverse (alpha_prev_list s) !! Z.to_nat i = Some net
    ∧ reverse (alpha_prev_list s) !! S (Z.to_nat i) = Some expected_cmd
    ∧ ((advice s net (pt acc) (q_theta1 acc) ≠ expected_cmd
        ∧ mismatch acc' = true)
       ∨ (advice s net (pt acc) (q_theta1 acc) = expected_cmd
          ∧ 0 ≤ expected_cmd ≤ 4
          ∧ mismatch acc' = false
          ∧ pt acc' = matvec (get_time_elapse_mat expected_cmd 1%Q) (pt acc)
          ∧ q_theta1 acc' = q_theta1 acc + quantum expected_cmd
          ∧ backstep (s_copy acc) true expected_cmd = Ok (s_copy acc')
          ∧ qtheta1 (s_copy acc')
            = qtheta1 (s_copy acc) + quantum expected_cmd)).
Proof.
  intros Hi H. unfold replay_step in H. cbv zeta in H.
  apply obind_Ok_inv in H as (net & Hnet & H).
  apply obind_Ok_inv in H as (expected_cmd & Hexp & H).
  apply obind_Ok_inv in H as (xi & Hxi & H).
  apply obind_Ok_inv in H as (xo & Hxo & H).
  apply obind_Ok_inv in H as (yo & Hyo & H).
  rewrite py_index_reverse in Hnet by done.
  replace (i + 2) with ((i + 1) + 1) in Hexp by lia.
  rewrite py_index_reverse in Hexp by lia.
  replace (Z.to_nat (i + 1)) with (S (Z.to_nat i)) in Hexp by lia.
  destruct (reverse (alpha_prev_list s) !! Z.to_nat i) as [net'|]; [|done].
  destruct (reverse (alpha_prev_list s) !! S (Z.to_nat i)) as [exp'|]; [|done].
  injection Hnet as ->. injection Hexp as ->.
  exists net, expected_cmd. split; [done|]. split; [done|].
  apply np_getitem_Ok in Hxi, Hxo, Hyo.
  assert (Hadvice : advice s net (pt acc) (q_theta1 acc)
    = get_cmd net (Qfloor ((xi - xo) / pos)) (Qfloor ((0 - yo) / pos))
        (q_theta1 acc) (qv_own s) (qv_int s)).
  { unfold advice, cell_of, dx_of, dy_of, coord. simpl.
    by rewrite Hxi, Hxo, Hyo. }
  rewrite <- Hadvice in H.
  destruct (Z.eqb_spec (advice s net (pt acc) (q_theta1 acc)) expected_cmd)
    as [Heq|Hne]; simpl in H.
  - right. rewrite Heq in H.
    apply obind_Ok_inv in H as (sc & Hback & H).
    apply obind_Ok_inv in H as (delta & Hdelta & H).
    injection H as <-. simpl.
    destruct (backstep_inv _ _ _ _ Hback)
      as (cmd & st & delta' & [= <-] & Hcmd & _ & Hd & ->).
    rewrite py_index_nonneg in Hdelta by lia. rewrite Hd in Hdelta.
    injection Hdelta as <-.
    assert (quantum expected_cmd = delta') as ->
      by (unfold quantum; by rewrite Hd).
    split_and!; try done; lia.
  - left. by injection H as <-.
Qed.

(** The loop, from step [k] on. *)
Lemma replay_loop_inv (s : State) (rh : list Z) (k : Z) (acc r : Replay) :
  0 ≤ k →
  drop (Z.to_nat k) (reverse (alpha_prev_list s)) = rh →
  mismatch acc = false →
  replay_loop s (seqZ k (Z.of_nat (length rh) - 1)) acc = Ok r →
  (mismatch r = false ↔ explained s rh (pt acc) (q_theta1 acc))
  ∧ (mismatch r = false →
       (pt r, q_theta1 r) = fly (tail rh) (pt acc) (q_theta1 acc)
       ∧ qtheta1 (s_copy r) - qtheta1 (s_copy acc)
         = q_theta1 r - q_theta1 acc
       ∧ alpha_prev_list (s_copy r) = alpha_prev_list (s_copy acc)).
Proof.
  revert k acc. induction rh as [|net rh IH]; intros k acc Hk Hdrop Hacc.
  { simpl. intros [= <-]. split; [done|]. intros _. split_and!; [done|lia|done]. }
  destruct rh as [|c rh].
  { simpl. intros [= <-]. split; [done|]. intros _. split_and!; [done|lia|done]. }
  rewrite seqZ_cons by (simpl; lia). cbn [replay_loop].
  intros H. apply obind_Ok_inv in H as (acc1 & Hstep & H).
  destruct (replay_step_inv _ _ _ _ Hk Hstep)
    as (net' & c' & Hnet & Hc & Hcase).
  assert (net' = net ∧ c' = c) as [-> ->].
  { pose proof (lookup_drop (reverse (alpha_prev_list s)) (Z.to_nat k) 0) as H0.
    pose proof (lookup_drop (reverse (alpha_prev_list s)) (Z.to_nat k) 1) as H1.
    rewrite Hdrop in H0, H1. simpl in H0, H1.
    rewrite Nat.add_0_r in H0. rewrite Nat.add_1_r in H1.
    rewrite Hnet in H0. rewrite Hc in H1. split; congruence. }
  destruct Hcase as [(Hne & Hm)|(Heq & Hc4 & Hm & Hpt & Hq & Hback & Hcopy)].
  - rewrite Hm in H. injection H as <-. rewrite Hm. split; [|done].
    split; [done|]. intros [Hadv _]. done.
  - rewrite Hm in H.
    replace (Z.pred (Z.of_nat (length (net :: c :: rh)) - 1))
      with (Z.of_nat (length (c :: rh)) - 1) in H by (simpl; lia).
    destruct (IH (Z.succ k) acc1 ltac:(lia)) as [Hiff Hfly]; [|done|exact H|].
    { replace (Z.to_nat (Z.succ k)) with (Z.to_nat k + 1)%nat by lia.
      by rewrite <- drop_drop, Hdrop. }
    rewrite Hpt, Hq in Hiff, Hfly. split.
    + rewrite Hiff. cbn [explained]. tauto.
    + intros Hr. destruct (Hfly Hr) as (Hf & Hh & Hl). cbn [tail fly].
      split_and!; [done|lia|].
      rewrite Hl. by eapply backstep_history.
Qed.

Lemma replay_inv (s : State) (range_pt : Vec) (log : list event) (r : Replay) :
  replay s range_pt log = Ok r →
  (mismatch r = false
   ↔ explained s (reverse (alpha_prev_list s)) range_pt (qtheta1 s))
  ∧ (mismatch r = false →
       (pt r, q_theta1 r)
       = fly (tail (reverse (alpha_prev_list s))) range_pt (qtheta1 s)
       ∧ qtheta1 (s_copy r) = q_theta1 r
       ∧ alpha_prev_list (s_copy r) = alpha_prev_list s).
Proof.
  unfold replay, py_range. cbv zeta. intros H.
  rewrite Z.sub_0_r, <- (length_reverse (alpha_prev_list s)) in H.
  destruct (replay_loop_inv s (reverse (alpha_prev_list s)) 0
              (mkReplay range_pt (qtheta1 s) (deepcopy s) false
                 (log ++ [Plot_star (star s) (Some "r")])) r
              ltac:(lia) eq_refl eq_refl H)
    as [Hiff Hfly].
  split; [exact Hiff|]. intros Hr. destruct (Hfly Hr) as (Hf & Hq & Hl).
  cbn [pt q_theta1 s_copy] in Hf, Hq, Hl. unfold deepcopy in Hq, Hl.
  split_and!; [done|lia|done].
Qed.

Lemma fly_heading (cs : list Z) (p : Vec) (q : Z) :
  (fly cs p q).2 = q + sumZ (quantum <$> cs).
Proof.
  revert p q. induction cs as [|c cs IH]; intros p q; [simpl; lia|].
  cbn [fly]. rewrite IH, fmap_cons. unfold sumZ. cbn [foldr]. lia.
Qed.

Lemma sumZ_app (l1 l2 : list Z) : sumZ (l1 ++ l2) = sumZ l1 + sumZ l2.
Proof. unfold sumZ. induction l1 as [|x l1 IH]; simpl; [done|]. rewrite IH. lia. Qed.

Lemma sumZ_reverse (l : list Z) : sumZ (reverse l) = sumZ l.
Proof.
  induction l as [|x l IH]; [done|].
  rewrite reverse_cons, sumZ_app, IH. unfold sumZ. simpl. lia.
Qed.

Lemma tail_reverse {A} (l : list A) : tail (reverse l) = reverse (removelast l).
Proof.
  destruct l as [|x l _] using rev_ind; [done|].
  by rewrite removelast_last, reverse_app.
Qed.

(** One pass through the body of the loop does not raise. *)
Lemma replay_step_total `{!ProvidersOK P} `{!ShapesOK P}
    (s : State) (acc : Replay) (i net c : Z) :
  0 ≤ i →
  reverse (alpha_prev_list s) !! Z.to_nat i = Some net →
  reverse (alpha_prev_list s) !! S (Z.to_nat i) = Some c →
  0 ≤ c ≤ 4 →
  length (pt acc) = NUM_VARS →
  is_Some (star (s_copy acc)) →
  ∃ acc', replay_step s acc i = Ok acc'
          ∧ length (pt acc') = NUM_VARS
          ∧ is_Some (star (s_copy acc')).
Proof.
  intros Hi Hnet Hc Hc4 Hpt [st Hst]. unfold replay_step. cbv zeta.
  rewrite py_index_reverse, Hnet by done. cbn [obind].
  replace (i + 2) with ((i + 1) + 1) by lia.
  rewrite py_index_reverse by lia.
  replace (Z.to_nat (i + 1)) with (S (Z.to_nat i)) by lia.
  rewrite Hc. cbn [obind].
  pose proof X_INT_lt. pose proof X_OWN_lt. pose proof Y_OWN_lt.
  destruct (lookup_lt_is_Some_2 (pt acc) X_INT ltac:(lia)) as [xi Hxi].
  destruct (lookup_lt_is_Some_2 (pt acc) X_OWN ltac:(lia)) as [xo Hxo].
  destruct (lookup_lt_is_Some_2 (pt acc) Y_OWN ltac:(lia)) as [yo Hyo].
  unfold np_getitem. rewrite Hxi, Hxo, Hyo. cbn [obind].
  destruct (Z.eqb_spec
    (get_cmd net (Qfloor ((xi - xo) / pos)) (Qfloor ((0 - yo) / pos))
       (q_theta1 acc) (qv_own s) (qv_int s)) c) as [->|Hne]; cbn [negb].
  - destruct (cmd_quantum_lookup c Hc4) as [delta Hd].
    rewrite (backstep_cmd (s_copy acc) true c c st delta eq_refl Hc4 Hst Hd).
    cbn [obind]. rewrite py_index_nonneg, Hd by lia. cbn [obind].
    eexists. split; [done|]. simpl. split; [|by eexists].
    rewrite length_matvec. by apply elapse_shape.
  - eexists. split; [done|]. simpl. split; [done|by eexists].
Qed.

Lemma replay_loop_total `{!ProvidersOK P} `{!ShapesOK P}
    (s : State) (rh : list Z) (k : Z) (acc : Replay) :
  0 ≤ k →
  drop (Z.to_nat k) (reverse (alpha_prev_list s)) = rh →
  Forall (λ c, 0 ≤ c ≤ 4) rh →
  length (pt acc) = NUM_VARS →
  is_Some (star (s_copy acc)) →
  ∃ r, replay_loop s (seqZ k (Z.of_nat (length rh) - 1)) acc = Ok r.
Proof.
  revert k acc. induction rh as [|net rh IH]; intros k acc Hk Hdrop Hall Hpt Hst.
  { by eexists. }
  destruct rh as [|c rh].
  { by eexists. }
  rewrite seqZ_cons by (simpl; lia). cbn [replay_loop].
  pose proof (lookup_drop (reverse (alpha_prev_list s)) (Z.to_nat k) 0) as H0.
  pose proof (lookup_drop (reverse (alpha_prev_list s)) (Z.to_nat k) 1) as H1.
  rewrite Hdrop in H0, H1. simpl in H0, H1.
  rewrite Nat.add_0_r in H0. rewrite Nat.add_1_r in H1.
  apply Forall_cons in Hall as [_ Hall].
  pose proof (Forall_inv Hall) as Hc4.
  destruct (replay_step_total s acc k net c Hk (eq_sym H0) (eq_sym H1) Hc4 Hpt Hst)
    as (acc1 & -> & Hpt1 & Hst1).
  cbn [obind]. destruct (mismatch acc1); [by eexists|].
  replace (Z.pred (Z.of_nat (length (net :: c :: rh)) - 1))
    with (Z.of_nat (length (c :: rh)) - 1) by (simpl; lia).
  apply IH; try done; [lia|].
  replace (Z.to_nat (Z.succ k)) with (Z.to_nat k + 1)%nat by lia.
  by rewrite <- drop_drop, Hdrop.
Qed.

End ReplayFacts.

Section ReplayClaims.
Context `{P : Providers}.
Context (get_witness : Star Dom → Vec * Vec * Q).
Local Abbreviation State := (State Dom).

(** X15. The last line [print_replay_witness] prints. It is the warning
    about a tiny radius exactly when the radius of the witness is below
    1e-6, and then nothing is replayed. Otherwise it is "witness commands
    all matched expectation" exactly when the history of the state is
    explained from the range point of the witness and the heading level
    of the state: at every step the decision function, run in the mode of
    a command of the history at the cell of the current point and the
    current heading level, answers the command before it, and the point
    and the heading level are moved forward by that command; and it is
    the mismatch line exactly when it is not. *)
Theorem replay_verdict (s : State) (plot : bool) (st : Star Dom)
    (domain_pt range_pt : Vec) (rad : Q) (log : list event) :
  star s = Some st →
  get_witness st = (domain_pt, range_pt, rad) →
  print_replay_witness get_witness s plot = Ok log →
  (last log = Some Print_tiny_radius ↔ (rad < 1 # 1000000)%Q)
  ∧ (last log = Some Print_all_matched
     ↔ ¬ (rad < 1 # 1000000)%Q
       ∧ explained s (reverse (alpha_prev_list s)) range_pt (qtheta1 s))
  ∧ (last log = Some Print_mismatch
     ↔ ¬ (rad < 1 # 1000000)%Q
       ∧ ¬ explained s (reverse (alpha_prev_list s)) range_pt (qtheta1 s)).
Proof.
  intros Hst Hgw H. unfold print_replay_witness, get_star in H.
  rewrite Hst in H. cbn [obind] in H. rewrite Hgw in H.
  destruct (Qlt_bool rad (1 # 1000000)) eqn:Hrad.
  - injection H as <-. apply Qlt_bool_iff in Hrad.
    cbn [app last]. split_and!; split; try done; intros [? _]; done.
  - assert (Hnlt : ¬ (rad < 1 # 1000000)%Q).
    { intros Hlt%Qlt_bool_iff. congruence. }
    apply obind_Ok_inv in H as (r & Hr & H). injection H as <-.
    rewrite last_snoc.
    destruct (replay_inv _ _ _ _ Hr) as [Hiff _].
    destruct (mismatch r).
    + assert (Hne : ¬ explained s (reverse (alpha_prev_list s)) range_pt
                        (qtheta1 s)) by (intros He%Hiff; done).
      split_and!; split; try done; intros [? ?]; done.
    + assert (He : explained s (reverse (alpha_prev_list s)) range_pt
                     (qtheta1 s)) by (by apply Hiff).
      split_and!; split; try done; intros [? ?]; done.
Qed.

(** X16. The replay does not raise on a state that has a polytope and a
    history of codes in 0..4, when the range point of its witness has
    [NUM_VARS] coordinates: whatever the decision function answers, the
    method returns after printing its last line. *)
Theorem replay_raises_nothing `{!ProvidersOK P} `{!ShapesOK P}
    (s : State) (plot : bool) (st : Star Dom)
    (domain_pt range_pt : Vec) (rad : Q) :
  star s = Some st →
  get_witness st = (domain_pt, range_pt, rad) →
  length range_pt = NUM_VARS →
  Forall (λ c, 0 ≤ c ≤ 4) (alpha_prev_list s) →
  ∃ log l,
    print_replay_witness get_witness s plot = Ok log
    ∧ last log = Some l
    ∧ (l = Print_tiny_radius ∨ l = Print_all_matched ∨ l = Print_mismatch).
Proof.
  intros Hst Hgw Hlen Hall. unfold print_replay_witness, get_star.
  rewrite Hst. cbn [obind]. rewrite Hgw.
  destruct (Qlt_bool rad (1 # 1000000)).
  { eexists _, _. split; [done|]. cbn [app last]. eauto. }
  unfold replay, py_range. cbv zeta.
  rewrite Z.sub_0_r, <- (length_reverse (alpha_prev_list s)).
  edestruct (replay_loop_total s (reverse (alpha_prev_list s)) 0) as [r ->];
    [lia|done|by apply Forall_reverse|exact Hlen|by eexists|].
  cbn [obind]. eexists _, _. split; [done|]. rewrite last_snoc.
  split; [done|]. destruct (mismatch r); eauto.
Qed.

End ReplayClaims.

Section ReplayOfTheSearch.
Context `{P : Providers}.
Local Abbreviation State := (State Dom).

(** X17. Replaying the counterexample of a run brings the heading level
    back to that of the scenario: when the replay goes through all its
    steps without a mismatch, the heading level it has tracked, and the
    heading level of the copy it has stepped forward, are both the
    heading level [theta1] the run started from; the copy still has the
    history of the counterexample. *)
Theorem replay_returns_to_scenario fuel task t0 t1
    a x_own y_own theta1 v_own v_int n res n' :
  backreach_single fuel task t0 t1
    (Some (a, x_own, y_own, theta1, v_own, v_int)) false n = Ok (res, n') →
  ∀ c range_pt log r,
    counterexample res = Some c →
    replay c range_pt log = Ok r →
    mismatch r = false →
    q_theta1 r = theta1
    ∧ qtheta1 (s_copy r) = theta1
    ∧ alpha_prev_list (s_copy r) = alpha_prev_list c.
Proof.
  intros H c range_pt log r Hc Hr Hm.
  assert (Hcourse : on_course theta1 v_own v_int c).
  { apply (backreach_single_states (on_course theta1 v_own v_int)
             fuel task t0 t1 a x_own y_own theta1 v_own v_int n res n');
      try done.
    - apply get_predecessors_on_course.
    - intros st w. unfold on_course, heading_of. simpl.
      split_and!; [lia|done..]. }
  destruct Hcourse as (Hq & _).
  destruct (replay_inv _ _ _ _ Hr) as [_ Hfly].
  destruct (Hfly Hm) as (Hf & Hcopy & Hhist).
  apply (f_equal snd) in Hf. simpl in Hf.
  rewrite fly_heading, tail_reverse, fmap_reverse in Hf.
  assert (Hend : q_theta1 r = theta1).
  { rewrite Hf, Hq. unfold heading_of. rewrite sumZ_reverse. lia. }
  split_and!; [done|lia|done].
Qed.

End ReplayOfTheSearch.


(** ** Emitting a predecessor, on the store *)

Section EmitFacts.
Context `{P : Providers}.
Local Abbreviation State := (State Dom).
Implicit Types h : gmap Heap.loc Heap.obj.

Lemma read_list_insert_ne h l l' o xs :
  l ≠ l' → Heap.read_list h l' = Some xs →
  Heap.read_list (<[l:=o]> h) l' = Some xs.
Proof. intros Hne. unfold Heap.read_list. by rewrite lookup_insert_ne. Qed.

(** Overwriting a list object does not change what the polytopes and
    the arrays of the store read as. *)
Lemma read_opt_star_insert_list h l xs xs' x (a : option (Star Dom)) :
  h !! l = Some (Heap.OList xs) →
  Heap.read_opt Heap.read_star h x = Some a →
  Heap.read_opt Heap.read_star (<[l:=Heap.OList xs']> h) x = Some a.
Proof.
  intros Hl. destruct x as [x|]; simpl; [|done]. unfold Heap.read_star.
  destruct (decide (l = x)) as [->|Hne].
  - by rewrite Hl.
  - by rewrite lookup_insert_ne.
Qed.

Lemma read_opt_array_insert_list h l xs xs' x (a : option Vec) :
  h !! l = Some (Heap.OList xs) →
  Heap.read_opt Heap.read_array h x = Some a →
  Heap.read_opt Heap.read_array (<[l:=Heap.OList xs']> h) x = Some a.
Proof.
  intros Hl. destruct x as [x|]; simpl; [|done]. unfold Heap.read_array.
  destruct (decide (l = x)) as [->|Hne].
  - by rewrite Hl.
  - by rewrite lookup_insert_ne.
Qed.

(** Appending to the history of a state whose history list nothing else
    refers to. *)
Lemma append_to_history h p (v : State) prev_cmd :
  Heap.read_state h p = Some v →
  ∃ al h',
    HeapEmit.getattr_alpha_prev_list h p = Ok al
    ∧ HeapEmit.list_append h al prev_cmd = Ok h'
    ∧ al ∈ Heap.footprint h p
    ∧ Heap.read_state h' p
      = Some (set_alpha_prev_list v (alpha_prev_list v ++ [prev_cmd]))
    ∧ ∀ l, l ≠ al → h' !! l = h !! l.
Proof.
  intros Hv.
  destruct (HeapFacts.read_state_lookup _ _ _ Hv)
    as (al & st & dw & Hp & Hal & Hst & Hdw).
  assert (Hal' : h !! al = Some (Heap.OList (alpha_prev_list v))).
  { unfold Heap.read_list in Hal.
    destruct (h !! al) as [[xs| | |]|]; try done. by injection Hal as ->. }
  assert (Hne : al ≠ p) by (intros ->; congruence).
  exists al, (<[al:=Heap.OList (alpha_prev_list v ++ [prev_cmd])]> h).
  split_and!.
  - unfold HeapEmit.getattr_alpha_prev_list. by rewrite Hp.
  - unfold HeapEmit.list_append. by rewrite Hal'.
  - unfold Heap.footprint. rewrite Hp. right. left.
  - destruct v as [qt qo qi xs stv dwv sid]. simpl in *.
    eapply HeapFacts.read_state_intro.
    + by rewrite lookup_insert_ne.
    + unfold Heap.read_list. by rewrite lookup_insert_eq.
    + by eapply read_opt_star_insert_list.
    + by eapply read_opt_array_insert_list.
  - intros l Hl. by rewrite lookup_insert_ne.
Qed.

(** X18. Emitting a predecessor on the store. The new state is a copy of
    the receiver and the candidate command is appended to the history
    list of the copy, in place. That list is an object of its own: after
    the append the new state reads back with the history of the receiver
    followed by the candidate, while the receiver, and every other object
    that existed before, reads back as it did. This holds for the
    unrestricted predecessor and for the predecessor over a replacement
    polytope with its witness. The value-level [emit] of the model
    returns the value the new state reads back as. *)
Theorem emit_does_not_alias h self (v : State) prev_cmd n :
  Heap.read_state h self = Some v →
  (∃ p h',
     HeapEmit.emit h self None None prev_cmd n = Ok ((p, h'), n + 1)
     ∧ Heap.read_state h' p
       = Some (mkState (qtheta1 v) (qv_own v) (qv_int v)
                 (alpha_prev_list v ++ [prev_cmd]) (star v)
                 (domain_witness v) n)
     ∧ Heap.read_state h' self = Some v
     ∧ (∀ l, l ∈ dom h → h' !! l = h !! l)
     ∧ ∀ rv, emit prev_cmd None None (v, rv) n
             = Ok ((v, rv ++ [mkState (qtheta1 v) (qv_own v) (qv_int v)
                                (alpha_prev_list v ++ [prev_cmd]) (star v)
                                (domain_witness v) n]), n + 1))
  ∧ (∀ ns nw (st' : Star Dom) (w : Vec),
       Heap.read_star h ns = Some st' →
       Heap.read_array h nw = Some w →
       ∃ p h',
         HeapEmit.emit h self (Some ns) (Some nw) prev_cmd n
         = Ok ((p, h'), n + 1)
         ∧ Heap.read_state h' p
           = Some (mkState (qtheta1 v) (qv_own v) (qv_int v)
                     (alpha_prev_list v ++ [prev_cmd]) (Some st') (Some w) n)
         ∧ Heap.read_state h' self = Some v
         ∧ (∀ l, l ∈ dom h → h' !! l = h !! l)
         ∧ ∀ rv, emit prev_cmd (Some st') (Some w) (v, rv) n
                 = Ok ((v, rv ++ [mkState (qtheta1 v) (qv_own v) (qv_int v)
                                    (alpha_prev_list v ++ [prev_cmd])
                                    (Some st') (Some w) n]), n + 1)).
Proof.
  intros Hv. split.
  - destruct (HeapFacts.copy_None_store h self v None n Hv)
      as (p & h1 & Hcopy & Hp & Hfresh & Hframe).
    destruct (append_to_history h1 p _ prev_cmd Hp)
      as (al & h' & Hget & Happ & Hal & Hp' & Hframe').
    exists p, h'. split_and!.
    + unfold HeapEmit.emit. rewrite (bind_Ok _ _ _ _ _ Hcopy). cbv beta iota.
      rewrite (bind_Ok _ _ _ _ _ (lift_Ok _ _ (n + 1) Hget)).
      by rewrite (bind_Ok _ _ _ _ _ (lift_Ok _ _ (n + 1) Happ)).
    + rewrite Hp'. by destruct v.
    + eapply HeapFacts.read_state_frame; [|exact Hv].
      intros l Hl. rewrite Hframe' by (intros ->; by apply (Hfresh al)).
      by apply Hframe.
    + intros l Hl. rewrite Hframe' by (intros ->; by apply (Hfresh al)).
      by apply Hframe.
    + intros rv. unfold emit. rewrite (bind_Ok _ _ _ _ _ (copy_None _ _ _)).
      by destruct v.
  - intros ns nw st' w Hns Hnw.
    destruct (HeapFacts.copy_Some_store h self v ns nw st' w n Hv Hns Hnw)
      as (p & al & h1 & Hcopy & Hp & Hal & Hpn & Haln & Hframe).
    assert (Hp1 : Heap.read_state h1 p
                  = Some (mkState (qtheta1 v) (qv_own v) (qv_int v)
                            (alpha_prev_list v) (Some st') (Some w) n)).
    { eapply HeapFacts.read_state_intro; [done..| |]; simpl.
      - unfold Heap.read_star in *.
        rewrite Hframe by (by eapply HeapFacts.read_star_dom). by rewrite Hns.
      - unfold Heap.read_array in *.
        rewrite Hframe by (by eapply HeapFacts.read_array_dom). by rewrite Hnw. }
    destruct (append_to_history h1 p _ prev_cmd Hp1)
      as (al' & h' & Hget & Happ & _ & Hp' & Hframe').
    assert (al' = al) as ->.
    { unfold HeapEmit.getattr_alpha_prev_list in Hget. rewrite Hp in Hget.
      by injection Hget. }
    exists p, h'. split_and!.
    + unfold HeapEmit.emit. rewrite (bind_Ok _ _ _ _ _ Hcopy). cbv beta iota.
      rewrite (bind_Ok _ _ _ _ _ (lift_Ok _ _ (n + 1) Hget)).
      by rewrite (bind_Ok _ _ _ _ _ (lift_Ok _ _ (n + 1) Happ)).
    + exact Hp'.
    + eapply HeapFacts.read_state_frame; [|exact Hv].
      intros l Hl. rewrite Hframe' by (by intros ->). by apply Hframe.
    + intros l Hl. rewrite Hframe' by (by intros ->). by apply Hframe.
    + intros rv. unfold emit. by rewrite (bind_Ok _ _ _ _ _ (copy_Some _ _ _ _)).
Qed.

End EmitFacts.

(** * Concrete runs *)

Module ToyFacts.
Import Toy.

Lemma argmin_elem (f : Vec → Q) (best : Vec) (l : list Vec) :
  argmin f best l ∈ best :: l.
Proof.
  revert best. induction l as [|x l IH]; intros best; simpl; [left|].
  destruct (Qlt_bool (f x) (f best)).
  - right. apply IH.
  - pose proof (IH best) as [->|H]%elem_of_cons; [left|].
    by do 2 right.
Qed.

Lemma argmin_le (f : Vec → Q) (best : Vec) (l : list Vec) (x : Vec) :
  x ∈ best :: l → (f (argmin f best l) <= f x)%Q.
Proof.
  revert best x. induction l as [|y l IH]; intros best x Hx; simpl.
  - apply list_elem_of_singleton in Hx as ->. lra.
  - destruct (Qlt_bool (f y) (f best)) eqn:E.
    + apply Qlt_bool_iff in E.
      apply elem_of_cons in Hx as [->|Hx].
      * pose proof (IH y y (list_elem_of_here _ _)). lra.
      * by apply IH.
    + assert (Hge : (f best <= f y)%Q).
      { destruct (Qlt_le_dec (f y) (f best)) as [Hlt|]; [|done].
        apply Qlt_bool_iff in Hlt. congruence. }
      apply elem_of_cons in Hx as [->|[->|Hx]%elem_of_cons].
      * apply IH. left.
      * pose proof (IH best best (list_elem_of_here _ _)). lra.
      * apply IH. by right.
Qed.

Lemma toy_providers_ok net init : ProvidersOK (providers net init).
Proof. split; simpl; try lia; try done. Qed.

Lemma toy_optimizer_ok net init :
  OptimizerOK (providers net init) contains.
Proof.
  split; simpl; unfold contains, toy_minimize_vec; intros st v p Hp.
  - destruct (range_points st) as [|p0 ps]; [by apply elem_of_nil in Hp|].
    apply argmin_elem.
  - destruct (range_points st) as [|p0 ps]; [by apply elem_of_nil in Hp|].
    by apply (argmin_le (λ x, dot x v)).
Qed.


(** *** The policy on [four_case_providers] *)

(** The five groups for the state [state0 0]: candidate 0 gives the whole
    stepped polytope, candidate 1 nothing, candidate 2 the restriction to
    the cell (8, -1) (the cell (8, 0) matches too but its restriction is
    infeasible), candidate 3 the whole stepped polytope (its only
    mismatching cell is infeasible), candidate 4 nothing. *)
Example four_case_run :
  omap (λ r, (λ p, (alpha_prev_list p, dom_constraints <$> star p,
                    domain_witness p, state_id p)) <$> r.1.2)
       (@get_predecessors four_case_providers (state0 0) 1)
  = Ok [ ([0; 0], Some cloud0, Some [5; 5; 1; 0; 100; 0]%Q, 1);
         ([0; 2], Some [ [15; 5; 1; 0; 100; 0]%Q ],
                  Some [15; 5; 1; 0; 100; 0]%Q, 2);
         ([0; 3], Some cloud0, Some [5; 5; 1; 0; 100; 0]%Q, 3) ].
Proof. vm_compute. reflexivity. Qed.

Lemma get_predecessors_four_cases_witness :
  star (state0 0) = Some star0
  ∧ last (alpha_prev_list (state0 0)) = Some 0
  ∧ ∃ self' groups n',
      @get_predecessors four_case_providers (state0 0) 1
      = Ok ((self', concat groups), n')
      ∧ length groups = 5%nat.
Proof.
  split; [reflexivity|]. split; [reflexivity|].
  destruct (@get_predecessors_four_cases four_case_providers
              (toy_providers_ok _ _) (state0 0) star0 0 1 eq_refl eq_refl)
    as (self' & st' & dxr & dyr & groups & n' & Hget & _ & _ & _ & HF);
    [lia|].
  exists self', groups, n'. split; [exact Hget|].
  symmetry. exact (Forall2_length _ _ _ HF).
Defined.

Lemma predecessor_history_length_witness :
  ∃ self' p ps n',
    @get_predecessors four_case_providers (state0 0) 1 = Ok ((self', p :: ps), n')
    ∧ length (alpha_prev_list p) = 2%nat
    ∧ ∃ x, py_index (alpha_prev_list p) (-2) = Ok x.
Proof.
  assert (F : omap (λ r, length r.1.2)
                (@get_predecessors four_case_providers (state0 0) 1)
              = Ok 3%nat) by (vm_compute; reflexivity).
  destruct (@get_predecessors four_case_providers (state0 0) 1)
    as [[[self' preds] n']| |] eqn:H; [|discriminate..].
  destruct preds as [|p ps]; [discriminate|].
  destruct (@predecessor_history_length four_case_providers (state0 0) self'
              (p :: ps) 1 n' H p (list_elem_of_here _ _)) as (Hlen & _ & Hidx).
  exists self', p, ps, n'. split; [reflexivity|].
  split; [exact Hlen|exact Hidx].
Defined.

(** *** Construction and the steps *)

Lemma State_init_feasibility_witness :
  @State_init clear_providers 0 3 1 1 star_empty 0 = Raise AssertionError
  ∧ @State_init clear_providers 0 3 1 1 star0 0 = Ok (state0 0, 1).
Proof.
  destruct (@State_init_feasibility clear_providers 0 3 1 1 star_empty 0)
    as [Hbad _].
  destruct (@State_init_feasibility clear_providers 0 3 1 1 star0 0)
    as [_ Hgood].
  split.
  - exact (proj1 (Hbad eq_refl)).
  - destruct (Hgood _ eq_refl) as (s & Hs & _). vm_compute. reflexivity.
Defined.

(** The command 7 is stored as it comes; the first backward step is what
    rejects it. *)
Lemma command_code_counterexample :
  ∃ s, @State_init clear_providers 7 3 1 1 star0 0 = Ok (s, 1)
       ∧ alpha_prev_list s = [7]
       ∧ ¬ Forall (λ c, 0 ≤ c ≤ 4) (alpha_prev_list s)
       ∧ @backstep clear_providers s false (-1) = Raise AssertionError.
Proof.
  exists (state0 7). split_and!; try reflexivity.
  intros H. apply Forall_inv in H. lia.
Qed.

Lemma command_history_invariant_witness :
  ∃ self' p ps n',
    @get_predecessors four_case_providers (state0 0) 1
    = Ok ((self', p :: ps), n')
    ∧ alpha_prev_list self' = [0]
    ∧ ∃ c, 0 ≤ c ≤ 4 ∧ alpha_prev_list p = [0] ++ [c].
Proof.
  assert (F : omap (λ r, length r.1.2)
                (@get_predecessors four_case_providers (state0 0) 1)
              = Ok 3%nat) by (vm_compute; reflexivity).
  destruct (@get_predecessors four_case_providers (state0 0) 1)
    as [[[self' preds] n']| |] eqn:H; [|discriminate..].
  destruct preds as [|p ps]; [discriminate|].
  destruct (@command_history_invariant four_case_providers)
    as (_ & _ & _ & Hget & _).
  destruct (Hget (state0 0) self' (p :: ps) 1 n' H) as [Hself Hpreds].
  exists self', p, ps, n'. split; [reflexivity|].
  split; [exact Hself|]. exact (Hpreds p (list_elem_of_here _ _)).
Defined.

Lemma backstep_spec_witness :
  @backstep clear_providers (state0 0) false (-1)
  = Ok (@stepped clear_providers (state0 0) star0
          (toy_time_elapse_mat 0 (-1)%Q) 3)
  ∧ @backstep clear_providers (state0 3) false (-1)
    = Ok (@stepped clear_providers (state0 3) star0
            (toy_time_elapse_mat 3 (-1)%Q) 1)
  ∧ @backstep clear_providers (state0 3) true 2
    = Ok (@stepped clear_providers (state0 3) star0
            (toy_time_elapse_mat 2 1%Q) 2)
  ∧ @backstep clear_providers (state0 5) false (-1) = Raise AssertionError
  ∧ @backstep clear_providers (state0 0) true (-1) = Raise AssertionError.
Proof.
  pose proof (@backstep_spec clear_providers (toy_providers_ok _ _)
                (state0 0) star0 0 eq_refl eq_refl) as (H0 & _ & _ & Hf0).
  pose proof (@backstep_spec clear_providers (toy_providers_ok _ _)
                (state0 3) star0 3 eq_refl eq_refl) as (H3 & Hf3 & _ & _).
  pose proof (@backstep_spec clear_providers (toy_providers_ok _ _)
                (state0 5) star0 5 eq_refl eq_refl) as (_ & _ & H5 & _).
  split_and!.
  - destruct H0 as (delta & Hd & Hb & _); [lia|].
    injection Hd as <-. exact (Hb (-1)).
  - destruct H3 as (delta & Hd & Hb & _); [lia|].
    injection Hd as <-. exact (Hb (-1)).
  - destruct (Hf3 2) as (delta & Hd & Hb); [lia|].
    injection Hd as <-. exact Hb.
  - apply H5. lia.
  - apply Hf0. lia.
Defined.

(** *** The range *)

Lemma get_dx_dy_qrange_spec_witness :
  @get_dx_dy_qrange clear_providers (state0 0) = Ok ((8, 10), (-1, 0))
  ∧ ∀ p, contains star0 p →
      8 ≤ Qfloor (@dx_of clear_providers p / 10) ≤ 10
      ∧ -1 ≤ Qfloor (@dy_of clear_providers p / 10) ≤ 0.
Proof.
  destruct (@get_dx_dy_qrange_spec clear_providers (toy_providers_ok _ _)
              contains (toy_optimizer_ok _ _) (state0 0) star0
              [5; 5; 1; 0; 100; 0]%Q eq_refl (list_elem_of_here _ _))
    as (mx & Mx & my & My & _ & _ & _ & _ & -> & -> & -> & -> & Hr & Hin & _).
  split.
  - vm_compute. reflexivity.
  - exact Hin.
Defined.

(** *** Initial cells *)

(** With the cell (9, -1) flagged initial and a network that answers 0
    everywhere, every sampled cell matches, so the first predecessor is
    the whole stepped polytope; it contains the point at relative position
    (96, -5), which lies inside the initial cell (9, -1). *)
Lemma initial_cell_counterexample :
  ∃ self' p ps n' st,
    @get_predecessors init_9_providers (state0 0) 1 = Ok ((self', p :: ps), n')
    ∧ star p = Some st
    ∧ contains st [4; 5; 1; 0; 100; 0]%Q
    ∧ @dx_of init_9_providers [4; 5; 1; 0; 100; 0]%Q = 96%Q
    ∧ @dy_of init_9_providers [4; 5; 1; 0; 100; 0]%Q = (-5)%Q
    ∧ Qfloor (96 / @pos init_9_providers) = 9
    ∧ Qfloor (-5 / @pos init_9_providers) = -1
    ∧ @is_init_qx_qy init_9_providers 9 (-1) = true.
Proof.
  eexists _, _, _, _, _. split; [vm_compute; reflexivity|].
  split; [reflexivity|]. split; [|by vm_compute].
  unfold contains. vm_compute. apply list_elem_of_here.
Qed.

(** A network that answers 4 in the initial cell and 0 elsewhere. *)
Lemma initial_cells_not_sampled_witness :
  ∃ r,
    @get_predecessors init_9_providers (state0 0) 1 = Ok r
    ∧ length r.1.2 = 5%nat
    ∧ @get_predecessors
        (@with_get_cmd init_9_providers
           (λ _ qdx qdy _ _ _, if init_9 qdx qdy then 4 else 0))
        (state0 0) 1 = Ok r.
Proof.
  assert (F : omap (λ r, length r.1.2)
                (@get_predecessors init_9_providers (state0 0) 1)
              = Ok 5%nat) by (vm_compute; reflexivity).
  destruct (@get_predecessors init_9_providers (state0 0) 1)
    as [[[self' preds] n']| |] eqn:H; [|discriminate..].
  exists (self', preds, n'). split; [reflexivity|].
  split; [by injection F|].
  destruct (@initial_cells_not_sampled init_9_providers (state0 0) self' preds
              1 n' H) as [Hnet _].
  apply Hnet. intros prev_cmd qdx qdy a b c Hinit.
  change (@is_init_qx_qy init_9_providers qdx qdy) with (init_9 qdx qdy) in Hinit.
  rewrite Hinit. reflexivity.
Defined.

(** *** The counterexample test *)

(** Separation exactly 10000 is not a counterexample; 10001 is. *)
Example separation_boundary :
  @is_counterexample clear_providers (clear_state [0; 10000; 0; 0; 0; 0]%Q)
  = Ok false
  ∧ @is_counterexample clear_providers (clear_state [0; 10001; 0; 0; 0; 0]%Q)
    = Ok true
  ∧ @scan_predecessors clear_providers
      [clear_state [0; 10000; 0; 0; 0; 0]%Q] []
    = Ok ([clear_state [0; 10000; 0; 0; 0; 0]%Q], None)
  ∧ @scan_predecessors clear_providers
      [clear_state [0; 10000; 0; 0; 0; 0]%Q;
       clear_state [0; 10001; 0; 0; 0; 0]%Q;
       clear_state [0; 20000; 0; 0; 0; 0]%Q] []
    = Ok ([clear_state [0; 10000; 0; 0; 0; 0]%Q;
           clear_state [0; 10001; 0; 0; 0; 0]%Q],
          Some (clear_state [0; 10001; 0; 0; 0; 0]%Q)).
Proof. by vm_compute. Qed.

Lemma counterexample_detection_witness :
  @two_clear clear_providers (clear_state [0; 10001; 0; 0; 0; 0]%Q)
  ∧ @far_apart clear_providers (clear_state [0; 10001; 0; 0; 0; 0]%Q)
  ∧ ∃ r c n',
      @backreach_single clear_providers 5 (0, near_params) 0%Q 1%Q
        (Some far_params) false 0 = Ok (r, n')
      ∧ num_popped r = 1
      ∧ counterexample r = Some c
      ∧ alpha_prev_list c = [0; 0]
      ∧ @is_counterexample clear_providers c = Ok true.
Proof.
  destruct (@counterexample_detection clear_providers)
    as (Htest & _ & _ & _ & _ & Hrun & _).
  split_and!.
  - apply (Htest (clear_state [0; 10001; 0; 0; 0; 0]%Q)). by vm_compute.
  - apply (Htest (clear_state [0; 10001; 0; 0; 0; 0]%Q)). by vm_compute.
  - assert (F : omap (λ r, (num_popped r.1,
                            alpha_prev_list <$> counterexample r.1))
                  (@backreach_single clear_providers 5 (0, near_params)
                     0%Q 1%Q (Some far_params) false 0)
                = Ok (1, Some [0; 0])) by (vm_compute; reflexivity).
    destruct (@backreach_single clear_providers 5 (0, near_params) 0%Q 1%Q
                (Some far_params) false 0) as [[r n']| |] eqn:H;
      [|discriminate..].
    simpl in F. injection F as Hpop Hcex.
    destruct (counterexample r) as [c|] eqn:Hc; [|discriminate].
    exists r, c, n'. split; [reflexivity|]. split; [exact Hpop|].
    split; [exact Hc|]. split; [by injection Hcex|].
    exact (Hrun _ _ _ _ _ _ _ _ _ H c Hc).
Defined.

(** *** Two runs *)

Lemma sequential_runs_agree_witness :
  ∃ r1 m1 r2 m2,
    @backreach_single only_3_providers 5 (0, near_params) 0%Q 1%Q
      (Some near_params) false 0 = Ok (r1, m1)
    ∧ @backreach_single only_3_providers 5 (1, far_params) 7%Q 9%Q
        (Some near_params) false m1 = Ok (r2, m2)
    ∧ num_popped r1 = 2 ∧ unique_paths r1 = 1%nat
    ∧ num_popped r1 = num_popped r2 ∧ unique_paths r1 = unique_paths r2.
Proof.
  assert (F : omap (λ r, (num_popped r.1, unique_paths r.1))
                (@backreach_single only_3_providers 5 (0, near_params)
                   0%Q 1%Q (Some near_params) false 0)
              = Ok (2, 1%nat)) by (vm_compute; reflexivity).
  destruct (@backreach_single only_3_providers 5 (0, near_params) 0%Q 1%Q
              (Some near_params) false 0) as [[r1 m1]| |] eqn:H;
    [|discriminate..].
  simpl in F. injection F as Hpop Hpaths.
  destruct (@sequential_runs_agree only_3_providers near_params)
    as (_ & _ & Hseq).
  destruct (Hseq 5%nat (0, near_params) (1, far_params) 0%Q 1%Q 7%Q 9%Q 0
              r1 m1 H) as (r2 & m2 & Hr2 & Hp & Hu).
  exists r1, m1, r2, m2. split; [reflexivity|]. split; [exact Hr2|].
  split; [exact Hpop|]. split; [exact Hpaths|]. split; [exact Hp|exact Hu].
Defined.

(** *** [copy] on a store *)

Lemma copy_spec_witness :
  ∃ rv h' rv2 al2 h2,
    @Heap.copy clear_providers
      (store0 clear_providers star0 star1 [5; 5; 1; 0; 100; 0]%Q
         [15; 5; 1; 0; 100; 0]%Q) 1%positive None None 9
    = Ok ((rv, h'), 10)
    ∧ @Heap.read_state clear_providers h' rv
      = Some (mkState 3 1 1 [0; 4] (Some star0)
                (Some [5; 5; 1; 0; 100; 0]%Q) 9)
    ∧ @Heap.copy clear_providers
        (store0 clear_providers star0 star1 [5; 5; 1; 0; 100; 0]%Q
           [15; 5; 1; 0; 100; 0]%Q) 1%positive (Some 5%positive)
        (Some 6%positive) 9
      = Ok ((rv2, h2), 10)
    ∧ h2 !! rv2 = Some (@Heap.OState clear_providers 3 1 1 al2
                          (Some 5%positive) (Some 6%positive) 9)
    ∧ @Heap.read_list clear_providers h2 al2 = Some [0; 4]
    ∧ @Heap.read_state clear_providers h2 1%positive
      = Some (mkState 3 1 1 [0; 4] (Some star0)
                (Some [5; 5; 1; 0; 100; 0]%Q) 0).
Proof.
  assert (Hv : @Heap.read_state clear_providers
                 (store0 clear_providers star0 star1 [5; 5; 1; 0; 100; 0]%Q
                    [15; 5; 1; 0; 100; 0]%Q) 1%positive
               = Some (mkState 3 1 1 [0; 4] (Some star0)
                         (Some [5; 5; 1; 0; 100; 0]%Q) 0))
    by (vm_compute; reflexivity).
  assert (Hns : @Heap.read_star clear_providers
                  (store0 clear_providers star0 star1 [5; 5; 1; 0; 100; 0]%Q
                     [15; 5; 1; 0; 100; 0]%Q) 5%positive
                = Some star1) by (vm_compute; reflexivity).
  assert (Hnw : @Heap.read_array clear_providers
                  (store0 clear_providers star0 star1 [5; 5; 1; 0; 100; 0]%Q
                     [15; 5; 1; 0; 100; 0]%Q) 6%positive
                = Some [15; 5; 1; 0; 100; 0]%Q) by (vm_compute; reflexivity).
  destruct (@HeapFacts.copy_spec clear_providers _ 1%positive _ 9 Hv)
    as (Hnone & Hsome).
  destruct (Hnone None) as (rv & h' & Hc & Hr & _).
  destruct (Hsome 5%positive 6%positive star1 [15; 5; 1; 0; 100; 0]%Q Hns Hnw)
    as (rv2 & al2 & h2 & Hc2 & Hrv2 & Hal2 & _ & _ & _ & Hself & _).
  exists rv, h', rv2, al2, h2.
  split; [exact Hc|]. split; [exact Hr|].
  split; [exact Hc2|]. split; [exact Hrv2|]. split; [exact Hal2|exact Hself].
Defined.

End ToyFacts.

(** * Further concrete runs *)

Module ToyRuns.
Import Toy ToyMore.

Lemma toy_shapes_ok net init : ShapesOK (providers net init).
Proof.
  split; simpl.
  - done.
  - done.
  - intros st q [Ha Hb]. by split.
  - intros st w [Ha Hb]. simpl in *. unfold to_range, vadd.
    rewrite length_zip_with, length_matvec. lia.
Qed.

Lemma in_cell_of (pt : Vec) :
  in_cell (@cell_of (providers always_clear no_init) pt) pt = true.
Proof.
  change (Qle_bool (inject_Z (Qfloor (rel_dx pt / 10)) * 10) (rel_dx pt)
          && Qle_bool (rel_dx pt) (inject_Z (Qfloor (rel_dx pt / 10) + 1) * 10)
          && Qle_bool (inject_Z (Qfloor (rel_dy pt / 10)) * 10) (rel_dy pt)
          && Qle_bool (rel_dy pt) (inject_Z (Qfloor (rel_dy pt / 10) + 1) * 10)
          = true).
  assert (Hcell : ∀ x : Q,
    Qle_bool (inject_Z (Qfloor (x / 10)) * 10) x = true
    ∧ Qle_bool x (inject_Z (Qfloor (x / 10) + 1) * 10) = true).
  { intros x. rewrite !Qle_bool_iff.
    pose proof (Qfloor_le (x / 10)) as Hlo.
    pose proof (Qlt_floor (x / 10)) as Hhi.
    assert (Hx : (x == x / 10 * 10)%Q) by (field; done).
    split.
    - rewrite Hx at 2. apply Qmult_le_compat_r; [done|]. done.
    - rewrite Hx at 1. apply Qmult_le_compat_r; [|done]. by apply Qlt_le_weak. }
  destruct (Hcell (rel_dx pt)) as [-> ->].
  by destruct (Hcell (rel_dy pt)) as [-> ->].
Qed.

Lemma toy_geometry_ok net init : GeometryOK (providers net init) contains.
Proof.
  split.
  - intros [d a b] p Hnone Hp. unfold contains, range_points in Hp.
    simpl in Hnone, Hp. destruct d; [|discriminate].
    by apply elem_of_nil in Hp.
  - intros st p Hp. unfold contains, range_points in *.
    apply list_elem_of_fmap in Hp as (d & -> & Hd).
    apply list_elem_of_fmap. exists d. split; [done|].
    simpl. apply list_elem_of_In, filter_In. split; [by apply list_elem_of_In|].
    apply in_cell_of.
Qed.

(** *** Counts and identifiers *)

Lemma popped_and_paths_witness :
  ∃ r n',
    @backreach_single only_3_providers 5 (0, near_params) 0%Q 1%Q
      (Some near_params) false 0 = Ok (r, n')
    ∧ num_popped r = 2
    ∧ 1 ≤ num_popped r
    ∧ Z.of_nat (unique_paths r) ≤ num_popped r
    ∧ (counterexample r = None → (1 ≤ unique_paths r)%nat).
Proof.
  assert (F : omap (λ r, num_popped r.1)
                (@backreach_single only_3_providers 5 (0, near_params)
                   0%Q 1%Q (Some near_params) false 0)
              = Ok 2) by (vm_compute; reflexivity).
  destruct (@backreach_single only_3_providers 5 (0, near_params) 0%Q 1%Q
              (Some near_params) false 0) as [[r n']| |] eqn:H;
    [|discriminate..].
  simpl in F. injection F as Hpop.
  exists r, n'. split; [reflexivity|]. split; [exact Hpop|].
  exact (@popped_and_paths only_3_providers _ _ _ _ _ _ _ _ _ H).
Defined.

Lemma states_created_witness :
  ∃ r n',
    @backreach_single only_3_providers 5 (0, near_params) 0%Q 1%Q
      (Some near_params) false 10 = Ok (r, n')
    ∧ num_popped r = 2
    ∧ 10 + num_popped r ≤ n'
    ∧ (counterexample r = None → n' = 10 + num_popped r).
Proof.
  assert (F : omap (λ r, num_popped r.1)
                (@backreach_single only_3_providers 5 (0, near_params)
                   0%Q 1%Q (Some near_params) false 10)
              = Ok 2) by (vm_compute; reflexivity).
  destruct (@backreach_single only_3_providers 5 (0, near_params) 0%Q 1%Q
              (Some near_params) false 10) as [[r n']| |] eqn:H;
    [|discriminate..].
  simpl in F. injection F as Hpop.
  destruct (@states_created only_3_providers _ _ _ _ _ _ _ _ _ H)
    as (Hle & Hnone & _).
  exists r, n'. split; [reflexivity|]. split; [exact Hpop|].
  split; [exact Hle|exact Hnone].
Defined.

Lemma predecessor_identifiers_witness :
  ∃ self' preds n',
    @get_predecessors four_case_providers (state0 0) 1
    = Ok ((self', preds), n')
    ∧ length preds = 3%nat
    ∧ state_id <$> preds = seqZ 1 (Z.of_nat (length preds))
    ∧ n' = 1 + Z.of_nat (length preds).
Proof.
  assert (F : omap (λ r, length r.1.2)
                (@get_predecessors four_case_providers (state0 0) 1)
              = Ok 3%nat) by (vm_compute; reflexivity).
  destruct (@get_predecessors four_case_providers (state0 0) 1)
    as [[[self' preds] n']| |] eqn:H; [|discriminate..].
  simpl in F. injection F as Hlen.
  destruct (@predecessor_identifiers four_case_providers _ _ _ _ _ H)
    as (Hids & Hn & _).
  exists self', preds, n'. split; [reflexivity|]. split; [exact Hlen|].
  split; [exact Hids|exact Hn].
Defined.

(** A scenario at heading level 7 with speed levels 1 and 2, whose own
    ship starts 20000 away from the intruder. *)
Lemma heading_follows_history_witness :
  ∃ r c n',
    @backreach_single clear_providers 5 (0, near_params) 0%Q 1%Q
      (Some (0, (2000, 2000), (0, 0), 7, 1, 2)) false 0 = Ok (r, n')
    ∧ counterexample r = Some c
    ∧ qtheta1 c
      = 7 - sumZ (@quantum clear_providers <$> removelast (alpha_prev_list c))
    ∧ qv_own c = 1 ∧ qv_int c = 2.
Proof.
  assert (F : omap (λ r, alpha_prev_list <$> counterexample r.1)
                (@backreach_single clear_providers 5 (0, near_params)
                   0%Q 1%Q (Some (0, (2000, 2000), (0, 0), 7, 1, 2)) false 0)
              = Ok (Some [0; 0])) by (vm_compute; reflexivity).
  destruct (@backreach_single clear_providers 5 (0, near_params) 0%Q 1%Q
              (Some (0, (2000, 2000), (0, 0), 7, 1, 2)) false 0)
    as [[r n']| |] eqn:H; [|discriminate..].
  simpl in F. destruct (counterexample r) as [c|] eqn:Hc; [|discriminate].
  exists r, c, n'. split; [reflexivity|]. split; [exact Hc|].
  exact (@heading_follows_history clear_providers _ _ _ _ _ _ _ _ _ _ _ _ _
           H c Hc).
Defined.

Lemma counterexample_depth_witness :
  ∃ r c n',
    @backreach_single clear_providers 5 (0, near_params) 0%Q 1%Q
      (Some far_params) false 0 = Ok (r, n')
    ∧ counterexample r = Some c
    ∧ (2 ≤ length (alpha_prev_list c))%nat
    ∧ Z.of_nat (length (alpha_prev_list c)) ≤ num_popped r + 1.
Proof.
  assert (F : omap (λ r, alpha_prev_list <$> counterexample r.1)
                (@backreach_single clear_providers 5 (0, near_params)
                   0%Q 1%Q (Some far_params) false 0)
              = Ok (Some [0; 0])) by (vm_compute; reflexivity).
  destruct (@backreach_single clear_providers 5 (0, near_params) 0%Q 1%Q
              (Some far_params) false 0) as [[r n']| |] eqn:H;
    [|discriminate..].
  simpl in F. destruct (counterexample r) as [c|] eqn:Hc; [|discriminate].
  exists r, c, n'. split; [reflexivity|]. split; [exact Hc|].
  exact (@counterexample_depth clear_providers _ _ _ _ _ _ _ _ _ H c Hc).
Defined.

(** *** Exceptions *)

Lemma search_raises_nothing_witness :
  0 ≤ 0 ≤ 4
  ∧ ∀ e, @backreach_single only_3_providers 5 (0, near_params) 0%Q 1%Q
           (Some (0, (3, 3), (0, 0), 0, 0, 0)) false 0 ≠ Raise e.
Proof.
  split; [lia|].
  apply (@search_raises_nothing only_3_providers (ToyFacts.toy_providers_ok _ _)
           (toy_shapes_ok _ _) 5 (0, near_params) 0%Q 1%Q 0 (3, 3) (0, 0) 0 0 0 0).
  - lia.
  - by eexists.
Defined.

Lemma get_predecessors_outcomes_witness :
  @get_predecessors clear_providers (state_with []) 0 = Raise IndexError
  ∧ @get_predecessors clear_providers (state_with [0; 7]) 0
    = Raise AssertionError
  ∧ @get_predecessors clear_providers
      (mkState 3 1 1 [0] None None 4) 0 = Raise AttributeError
  ∧ ∃ s' preds n',
      @get_predecessors clear_providers (state_with [7; 0]) 0
      = Ok ((s', preds), n').
Proof.
  pose proof (@get_predecessors_outcomes clear_providers
                (ToyFacts.toy_providers_ok _ _)) as H.
  split; [exact (H (state_with []) 0)|].
  split; [exact (H (state_with [0; 7]) 0)|].
  split; [exact (H (mkState 3 1 1 [0] None None 4) 0)|].
  exact (H (state_with [7; 0]) 0).
Defined.

Lemma fatal_scenarios_witness :
  ¬ 0 ≤ 7 ≤ 4
  ∧ @backreach_single clear_providers 5 (0, near_params) 0%Q 1%Q
      (Some (7, (3, 3), (0, 0), 0, 0, 0)) false 0 = Raise AssertionError
  ∧ @backreach_single clear_providers 5 (0, near_params) 0%Q 1%Q
      None false 0 = Raise AssertionError.
Proof.
  destruct (@fatal_scenarios clear_providers (ToyFacts.toy_providers_ok _ _))
    as [Hnone Hcmd].
  split; [lia|]. split.
  - apply (Hcmd 4%nat (0, near_params) 0%Q 1%Q 7 (3, 3) (0, 0) 0 0 0 0).
    + lia.
    + by eexists.
  - apply Hnone.
Defined.

(** *** What the predecessors cover *)

(** The point at relative position (86, -5), in the cell (8, -1), where
    candidate 2 gives the command 0. *)
Lemma no_predecessor_lost_witness :
  ∃ self' preds n' p stp,
    @get_predecessors four_case_providers (state0 0) 1
    = Ok ((self', preds), n')
    ∧ contains star0_back [14; 5; 1; 0; 100; 0]%Q
    ∧ p ∈ preds
    ∧ alpha_prev_list p = [0; 2]
    ∧ star p = Some stp
    ∧ contains stp [14; 5; 1; 0; 100; 0]%Q.
Proof.
  assert (F : omap (λ r, star r.1.1)
                (@get_predecessors four_case_providers (state0 0) 1)
              = Ok (Some star0_back)) by (vm_compute; reflexivity).
  destruct (@get_predecessors four_case_providers (state0 0) 1)
    as [[[self' preds] n']| |] eqn:H; [|discriminate..].
  simpl in F. injection F as Hst.
  assert (Hpt : contains star0_back [14; 5; 1; 0; 100; 0]%Q).
  { unfold contains. vm_compute. apply list_elem_of_further, list_elem_of_here. }
  destruct (@no_predecessor_lost four_case_providers
              (ToyFacts.toy_providers_ok _ _) contains
              (ToyFacts.toy_optimizer_ok _ _) (toy_geometry_ok _ _)
              (state0 0) self' preds 1 n' star0_back 0 H Hst eq_refl
              [14; 5; 1; 0; 100; 0]%Q 2 Hpt)
    as (p & stp & Hp & Hhist & Hstp & Hin).
  - lia.
  - reflexivity.
  - vm_compute. reflexivity.
  - exists self', preds, n', p, stp. split; [reflexivity|].
    split; [exact Hpt|]. split; [exact Hp|]. split; [exact Hhist|].
    split; [exact Hstp|exact Hin].
Defined.

(** The point at relative position (96, -5), in the cell (9, -1), where
    candidate 2 gives the command 1. *)
Lemma unrestricted_only_if_right_witness :
  ∃ self' preds n',
    @get_predecessors four_case_providers (state0 0) 1
    = Ok ((self', preds), n')
    ∧ contains star0_back [4; 5; 1; 0; 100; 0]%Q
    ∧ ∀ p, p ∈ preds → alpha_prev_list p = [0; 2] →
        ∃ q w, star p = Some (toy_make_qstar star0_back q)
               ∧ domain_witness p = Some w.
Proof.
  assert (F : omap (λ r, star r.1.1)
                (@get_predecessors four_case_providers (state0 0) 1)
              = Ok (Some star0_back)) by (vm_compute; reflexivity).
  destruct (@get_predecessors four_case_providers (state0 0) 1)
    as [[[self' preds] n']| |] eqn:H; [|discriminate..].
  simpl in F. injection F as Hst.
  assert (Hpt : contains star0_back [4; 5; 1; 0; 100; 0]%Q).
  { unfold contains. vm_compute. apply list_elem_of_here. }
  exists self', preds, n'. split; [reflexivity|]. split; [exact Hpt|].
  intros p Hp Hhist.
  destruct (@unrestricted_only_if_right four_case_providers
              (ToyFacts.toy_providers_ok _ _) contains
              (ToyFacts.toy_optimizer_ok _ _) (toy_geometry_ok _ _)
              (state0 0) self' preds 1 n' star0_back 0 H Hst eq_refl
              [4; 5; 1; 0; 100; 0]%Q 2 Hpt)
    with (p := p) as (q & w & _ & _ & Hstar & _ & Hw).
  - reflexivity.
  - vm_compute. discriminate.
  - exact Hp.
  - exact Hhist.
  - exists q, w. split; [exact Hstar|exact Hw].
Defined.

(** *** A step back and a step forward *)

Lemma backstep_round_trip_witness :
  ∃ self1 self2 st2,
    @backstep clear_providers (state0 3) false (-1) = Ok self1
    ∧ qtheta1 self1 = 1
    ∧ @backstep clear_providers self1 true 3 = Ok self2
    ∧ star self2 = Some st2
    ∧ mat_eq (a_mat st2) identity6
    ∧ vec_eq (b_vec st2) (np_zeros 6)
    ∧ qtheta1 self2 = 3.
Proof.
  assert (Hinv : mat_eq (matmul (toy_time_elapse_mat 3 1%Q)
                           (toy_time_elapse_mat 3 (-1)%Q)) (identity 6)).
  { vm_compute. repeat constructor. }
  assert (Hrect : Forall (λ row : Vec, length row = 6%nat) identity6).
  { vm_compute. repeat constructor. }
  destruct (@backstep_round_trip clear_providers (ToyFacts.toy_providers_ok _ _)
              (state0 3) star0 3 6 6 eq_refl eq_refl ltac:(lia) eq_refl
              Hrect eq_refl Hinv)
    as (self1 & self2 & st2 & H1 & H2 & Hst2 & _ & Ha & Hb & Hq & _).
  exists self1, self2, st2. split; [exact H1|]. split.
  { assert (F : omap qtheta1 (@backstep clear_providers (state0 3) false (-1))
                = Ok 1) by (vm_compute; reflexivity).
    rewrite H1 in F. by injection F. }
  split; [exact H2|]. split; [exact Hst2|]. split; [exact Ha|].
  split; [exact Hb|exact Hq].
Defined.

(** *** The replay *)

(** With the network that always answers 0, the history [0; 0; 0] is
    explained from any point. *)
Lemma replay_verdict_witness :
  ∃ log,
    @print_replay_witness clear_providers toy_get_witness
      (state_with [0; 0; 0]) false = Ok log
    ∧ last log = Some Print_all_matched
    ∧ @explained clear_providers (state_with [0; 0; 0]) [0; 0; 0]
        [5; 5; 1; 0; 100; 0]%Q 3.
Proof.
  assert (F : omap (λ log, match last log with
                            | Some Print_all_matched => true
                            | _ => false
                            end)
                (@print_replay_witness clear_providers toy_get_witness
                   (state_with [0; 0; 0]) false)
              = Ok true) by (vm_compute; reflexivity).
  destruct (@print_replay_witness clear_providers toy_get_witness
              (state_with [0; 0; 0]) false) as [log| |] eqn:H;
    [|discriminate..].
  simpl in F.
  assert (Hlast : last log = Some Print_all_matched).
  { destruct (last log) as [[]|]; try discriminate. reflexivity. }
  destruct (@replay_verdict clear_providers toy_get_witness
              (state_with [0; 0; 0]) false star0
              [5; 5; 1; 0; 100; 0]%Q [5; 5; 1; 0; 100; 0]%Q 1%Q log
              eq_refl) as (_ & Hmatched & _).
  - vm_compute. reflexivity.
  - exact H.
  - exists log. split; [reflexivity|]. split; [exact Hlast|].
    exact (proj2 (proj1 Hmatched Hlast)).
Defined.

(** With the network [four_case_net] the replay of the history [0; 2]
    ends on a mismatch, and returns. *)
Lemma replay_raises_nothing_witness :
  Forall (λ c, 0 ≤ c ≤ 4) [0; 2]
  ∧ ∃ log l,
      @print_replay_witness four_case_providers toy_get_witness
        (state_with [0; 2]) true = Ok log
      ∧ last log = Some l
      ∧ (l = Print_tiny_radius ∨ l = Print_all_matched ∨ l = Print_mismatch).
Proof.
  assert (Hall : Forall (λ c, 0 ≤ c ≤ 4) [0; 2])
    by (repeat constructor; lia).
  split; [exact Hall|].
  apply (@replay_raises_nothing four_case_providers toy_get_witness
           (ToyFacts.toy_providers_ok _ _) (toy_shapes_ok _ _)
           (state_with [0; 2]) true star0
           [5; 5; 1; 0; 100; 0]%Q [5; 5; 1; 0; 100; 0]%Q 1%Q eq_refl).
  - vm_compute. reflexivity.
  - reflexivity.
  - exact Hall.
Defined.

(** The counterexample of the scenario at heading level 7, replayed from
    a range point. *)
Lemma replay_returns_to_scenario_witness :
  ∃ res c n' r,
    @backreach_single clear_providers 5 (0, near_params) 0%Q 1%Q
      (Some (0, (2000, 2000), (0, 0), 7, 1, 2)) false 0 = Ok (res, n')
    ∧ counterexample res = Some c
    ∧ @replay clear_providers c [20000; 0; 0; 0; 0; 0]%Q [] = Ok r
    ∧ mismatch r = false
    ∧ q_theta1 r = 7
    ∧ qtheta1 (s_copy r) = 7.
Proof.
  assert (F : omap (λ res,
                match counterexample res.1 with
                | Some c => omap mismatch
                              (@replay clear_providers c
                                 [20000; 0; 0; 0; 0; 0]%Q [])
                | None => Raise IndexError
                end)
                (@backreach_single clear_providers 5 (0, near_params)
                   0%Q 1%Q (Some (0, (2000, 2000), (0, 0), 7, 1, 2)) false 0)
              = Ok (Ok false)) by (vm_compute; reflexivity).
  destruct (@backreach_single clear_providers 5 (0, near_params) 0%Q 1%Q
              (Some (0, (2000, 2000), (0, 0), 7, 1, 2)) false 0)
    as [[res n']| |] eqn:H; [|discriminate..].
  simpl in F. destruct (counterexample res) as [c|] eqn:Hc; [|discriminate].
  destruct (@replay clear_providers c [20000; 0; 0; 0; 0; 0]%Q [])
    as [r| |] eqn:Hr; [|discriminate..].
  simpl in F. injection F as Hm.
  destruct (@replay_returns_to_scenario clear_providers _ _ _ _ _ _ _ _ _ _ _
              _ _ H c _ _ r Hc Hr Hm) as (Hq & Hcopy & _).
  exists res, c, n', r. split; [reflexivity|]. split; [exact Hc|].
  split; [exact Hr|]. split; [exact Hm|]. split; [exact Hq|exact Hcopy].
Defined.

(** *** Emitting a predecessor on a store *)

Lemma emit_does_not_alias_witness :
  ∃ p h',
    @HeapEmit.emit clear_providers
      (store0 clear_providers star0 star1 [5; 5; 1; 0; 100; 0]%Q
         [15; 5; 1; 0; 100; 0]%Q) 1%positive None None 2 9
    = Ok ((p, h'), 10)
    ∧ @Heap.read_state clear_providers h' p
      = Some (mkState 3 1 1 [0; 4; 2] (Some star0)
                (Some [5; 5; 1; 0; 100; 0]%Q) 9)
    ∧ @Heap.read_state clear_providers h' 1%positive
      = Some (mkState 3 1 1 [0; 4] (Some star0)
                (Some [5; 5; 1; 0; 100; 0]%Q) 0).
Proof.
  assert (Hv : @Heap.read_state clear_providers
                 (store0 clear_providers star0 star1 [5; 5; 1; 0; 100; 0]%Q
                    [15; 5; 1; 0; 100; 0]%Q) 1%positive
               = Some (mkState 3 1 1 [0; 4] (Some star0)
                         (Some [5; 5; 1; 0; 100; 0]%Q) 0))
    by (vm_compute; reflexivity).
  destruct (@emit_does_not_alias clear_providers _ 1%positive _ 2 9 Hv)
    as ((p & h' & He & Hp & Hself & _) & _).
  exists p, h'. split; [exact He|]. split; [exact Hp|exact Hself].
Defined.

(** *** The search leaves nothing out *)

Lemma search_is_exhaustive_witness :
  ∃ r n' init_s,
    @backreach_single only_3_providers 5 (0, near_params) 0%Q 1%Q
      (Some near_params) false 0 = Ok (r, n')
    ∧ counterexample r = None
    ∧ state_id init_s = 0
    ∧ ∀ s, @descends only_3_providers init_s s →
        ∀ k, ∃ s' preds k',
          @get_predecessors only_3_providers s k = Ok ((s', preds), k')
          ∧ ∀ p, p ∈ preds → @is_counterexample only_3_providers p = Ok false.
Proof.
  assert (F : omap (λ r, bool_decide (counterexample r.1 = None))
                (@backreach_single only_3_providers 5 (0, near_params)
                   0%Q 1%Q (Some near_params) false 0)
              = Ok true) by (vm_compute; reflexivity).
  destruct (@backreach_single only_3_providers 5 (0, near_params) 0%Q 1%Q
              (Some near_params) false 0) as [[r n']| |] eqn:H;
    [|discriminate..].
  simpl in F. injection F as Hnone. apply bool_decide_eq_true in Hnone.
  destruct (@search_is_exhaustive only_3_providers _ _ _ _ _ _ _ _ _ _ _ _ _
              H Hnone) as (init_s & Hinit & Hall).
  exists r, n', init_s. split; [reflexivity|]. split; [exact Hnone|].
  split; [|exact Hall].
  unfold State_init in Hinit.
  destruct (is_feasible _) in Hinit; [|discriminate].
  by injection Hinit as <-.
Defined.

(** *** Printing *)

Lemma State_str_inj_witness :
  State_str (state_with [0; 4]) = "State(id=4 with alpha_prev_list = [0, 4])"
  ∧ State_str (mkState 9 2 2 [0; 4] None None 4 : State (list Vec))
    = "State(id=4 with alpha_prev_list = [0, 4])"
  ∧ state_id (state_with [0; 4]) = 4
  ∧ alpha_prev_list (state_with [0; 4]) = [0; 4].
Proof.
  split; [vm_compute; reflexivity|]. split; [vm_compute; reflexivity|].
  destruct (State_str_inj (state_with [0; 4])
              (mkState 9 2 2 [0; 4] None None 4 : State (list Vec)))
    as [Hid Hhist]; [vm_compute; reflexivity|].
  split; [exact Hid|exact Hhist].
Defined.

Lemma print_replay_init_inj_witness :
  print_replay_init (state_with [0; 4])
  = ["alpha_prev_list = [0, 4]"; "qtheta1 = 3"; "qv_own = 1"; "qv_int = 1"]
  ∧ print_replay_init (state_with [0; 4])
    = print_replay_init (mkState 3 1 1 [0; 4] None None 7 : State (list Vec)).
Proof.
  split; [vm_compute; reflexivity|].
  apply (print_replay_init_inj (state_with [0; 4])
           (mkState 3 1 1 [0; 4] None None 7 : State (list Vec))).
  repeat split.
Defined.

End ToyRuns.
